(** * pygmsh helpers: edge-loop orientation and mesh post-processing

    A shallow embedding of [pygmsh/helpers.py]: [orient_lines], the
    argument list that [generate_mesh] hands to Gmsh, and the
    post-processing tail of [generate_mesh] (cell-type filter, vertex
    pruning, z-component pruning), with the properties stated about them. *)

From Stdlib Require Import ZArith QArith Qabs Qminmax Lia.
From stdpp Require Import base option list sorting gmap strings pretty.

#[local] Set Warnings "-clear-no-such-hyp".
Local Open Scope Z_scope.
Local Open Scope nat_scope.

(** * The code *)

(** ** Python exceptions and the result of a call *)

(** The exceptions that the modelled code can raise are [IndexError]
    (an out-of-range subscript), [ValueError] (numpy.concatenate on an
    empty sequence) and [TypeError] (an object of the wrong kind).
    [MalformedLoopError] and [EmptyResultError] are the error names of
    the specification; no statement of helpers.py raises them, they are
    listed so that statements about them can be written. *)
Inductive exn : Set :=
  | IndexError
  | ValueError
  | TypeError
  | MalformedLoopError
  | EmptyResultError.

Inductive result (A : Type) : Type :=
  | Ok (a : A)
  | Raise (e : exn).
Arguments Ok {A} a.
Arguments Raise {A} e.

#[global] Instance result_ret : MRet result := λ A a, Ok a.
#[global] Instance result_bind : MBind result := λ A B f m,
  match m with
  | Ok a => f a
  | Raise e => Raise e
  end.
#[global] Instance result_fmap : FMap result := λ A B f m,
  match m with
  | Ok a => Ok (f a)
  | Raise e => Raise e
  end.

(** [xs[i]] on a Python list or a numpy array, for an index [0 <= i]. *)
Definition subscript {A} (xs : list A) (i : nat) : result A :=
  match xs !! i with
  | Some x => Ok x
  | None => Raise IndexError
  end.

(** ** numpy primitives used by the code *)
Module Np.

(** [numpy.where(inn == out)[0]]: the positions of [out] in [inn],
    ascending. *)
Fixpoint where_from (i : nat) (inn : list Z) (out : Z) : list nat :=
  match inn with
  | [] => []
  | x :: inn' =>
      if decide (x = out) then i :: where_from (S i) inn' out
      else where_from (S i) inn' out
  end.
Definition where_eq (inn : list Z) (out : Z) : list nat :=
  where_from 0 inn out.

(** [a[[j, k]] = a[[k, j]]]: the right-hand side is copied first, then
    row [j] and row [k] are assigned in this order. *)
Definition swap {A} (j k : nat) (a : list A) : list A :=
  match a !! j, a !! k with
  | Some aj, Some ak => <[k := aj]> (<[j := ak]> a)
  | _, _ => a
  end.

(** [a[j:] = f(a[j:])] for an elementwise [f]; where source and target
    overlap, as in [a[j:] = numpy.flip(a[j:], axis=1)], numpy reads the
    source before it writes. *)
Definition map_from {A} (f : A → A) (j : nat) (a : list A) : list A :=
  take j a ++ (f <$> drop j a).

End Np.

(** ** Line segments *)

(** Modelled from the spec: the line-segment class and its unary minus
    (the class of the elements of [lines] is not part of helpers.py).  A
    segment stores an ordered pair of point ids (tail, head) and a sign;
    [sign = false] is the spec's sign −1: traversal from the stored head
    to the stored tail. *)
Record Line : Set := mkLine { points : Z * Z; sign : bool }.

(** Modelled from the spec: unary minus of a segment (defined with the
    segment class, outside helpers.py) flips the sign and keeps the stored
    pair. *)
Definition neg (l : Line) : Line := mkLine (points l) (negb (sign l)).

#[global] Instance Line_eq_dec : EqDecision Line.
Proof. solve_decision. Defined.

(** The pair (effective tail, effective head) of a segment. *)
Definition flip (p : Z * Z) : Z * Z := (p.2, p.1).
Definition dir (b : bool) (p : Z * Z) : Z * Z := if b then p else flip p.
Definition effective (l : Line) : Z * Z := dir (sign l) (points l).
Definition eff_tail (l : Line) : Z := (effective l).1.
Definition eff_head (l : Line) : Z := (effective l).2.

(** ** orient_lines *)
Module Orient.

(** The rows of [point_pair_ids] are pairs of integers, and [==] on them
    is equality of integers.  This is the array that [numpy.array]
    builds when every id is a Python int from −2^63 to 2^63 − 1: its
    dtype is then an integer dtype.  With ids outside this range numpy
    can infer float64 for the whole array, where two different ids can
    compare equal; the statements that depend on ids being told apart
    carry the bound [int64_ids] on the ids. *)

(** The three arrays of the loop. *)
Record state : Set := St {
  point_pair_ids : list (Z * Z);
  order : list nat;
  oriented : list bool
}.

(** [numpy.where(inn == out)[0] + j] for column [col] of
    [point_pair_ids[j:]]. *)
Definition candidates (col : Z * Z → Z) (j : nat) (ppi : list (Z * Z))
    (out : Z) : list nat :=
  (λ i, i + j) <$> Np.where_eq (col <$> drop j ppi) out.

(** One iteration of the [for j in range(1, len(point_pair_ids))] body. *)
Definition step (j : nat) (s : state) : result state :=
  prev ← subscript (point_pair_ids s) (j - 1);
  let out := prev.2 in
  let wh := candidates fst j (point_pair_ids s) out in
  let '(wh, ppi, ori) :=
    if decide (length wh = 0) then
      (candidates snd j (point_pair_ids s) out,
       Np.map_from flip j (point_pair_ids s),
       Np.map_from negb j (oriented s))
    else (wh, point_pair_ids s, oriented s) in
  k ← subscript wh 0;
  Ok (St (Np.swap j k ppi) (Np.swap j k (order s)) ori).

Fixpoint loop (js : list nat) (s : state) : result state :=
  match js with
  | [] => Ok s
  | j :: js' => s' ← step j s; loop js' s'
  end.

Definition init (ppi : list (Z * Z)) : state :=
  St ppi (seq 0 (length ppi)) (replicate (length ppi) true).

(** The loop on the id array alone. *)
Definition run (ppi : list (Z * Z)) : result state :=
  loop (seq 1 (length ppi - 1)) (init ppi).

(** [lines[j] if oriented[j] else -lines[j]]. *)
Definition signed (b : bool) (l : Line) : Line := if b then l else neg l.

Definition orient_lines (lines : list Line) : result (list Line) :=
  let point_pair_ids := points <$> lines in
  s ← run point_pair_ids;
  lines1 ← mapM (subscript lines) (order s);
  mapM (λ j, l ← subscript lines1 j;
             b ← subscript (oriented s) j;
             Ok (signed b l))
       (seq 0 (length (oriented s))).

End Orient.

(** ** The post-processing tail of [generate_mesh] *)
Module Mesh.

(** A two-dimensional numpy array: the length of its second axis and
    its rows.  Every row of an array has [ncols] entries ([rect]). *)
Record array2 (A : Type) : Type := Arr2 { ncols : nat; rows : list (list A) }.
Arguments Arr2 {A} ncols rows.
Arguments ncols {A} a.
Arguments rows {A} a.

Definition rect {A} (a : array2 A) : Prop :=
  Forall (λ r, length r = ncols a) (rows a).

(** [a.shape] and [numpy.prod(a.shape)]. *)
Definition shape {A} (a : array2 A) : nat * nat := (length (rows a), ncols a).
Definition size {A} (a : array2 A) : nat := (shape a).1 * (shape a).2.

(** [flat.reshape(shape)] for a flat array of [shape.1 * shape.2]
    entries. *)
Definition np_reshape {A} (flat : list A) (sh : nat * nat) : array2 A :=
  Arr2 sh.2 (reshape (replicate sh.1 sh.2) flat).

(** [numpy.concatenate(arrs)] raises on an empty sequence. *)
Definition np_concatenate {A} (arrs : list (list A)) : result (list A) :=
  match arrs with
  | [] => Raise ValueError
  | _ => Ok (concat arrs)
  end.

(** [numpy.unique(a, return_inverse=True)]: the sorted distinct values
    of [a], and for every entry of [a] its position among them. *)
Fixpoint insert_sorted (x : nat) (u : list nat) : list nat :=
  match u with
  | [] => [x]
  | y :: u' =>
      if decide (x < y) then x :: u
      else if decide (x = y) then u
      else y :: insert_sorted x u'
  end.
Definition np_unique (a : list nat) : list nat := foldr insert_sorted [] a.
Fixpoint index_of (x : nat) (u : list nat) : nat :=
  match u with
  | [] => 0
  | y :: u' => if decide (x = y) then 0 else S (index_of x u')
  end.
Definition np_unique_inverse (a : list nat) : list nat * list nat :=
  let u := np_unique a in (u, (λ x, index_of x u) <$> a).

(** [a[idx]] for an index array [idx]. *)
Definition np_take {A} (a : list A) (idx : list nat) : result (list A) :=
  mapM (subscript a) idx.

(** [meshio.CellBlock]: a cell type and the array of the vertex ids of
    its cells, one row per cell. *)
Record CellBlock : Type := mkCellBlock { type : string; data : array2 nat }.

Section mesh.
(** The rows of the per-point data arrays and the per-block cell data
    arrays are not looked into. *)
Context {PD CD : Type}.

(** [meshio.Mesh]; the two dictionaries in their iteration order. *)
Record mesh : Type := Mesh {
  points : array2 Q;
  cells : list CellBlock;
  point_data : list (string * list PD);
  cell_data : list (string * list CD)
}.

(** *** remove_lower_dim_cells *)
Definition cells_2d : gset string := {[ "triangle"; "quad" ]}.
Definition cells_3d : gset string :=
  {[ "tetra"; "hexahedron"; "wedge"; "pyramid"; "penta_prism"; "hexa_prism" ]}.

Definition keep_types (cs : list CellBlock) : gset string :=
  if decide (Exists (λ c, type c ∈ cells_3d) cs) then cells_3d
  else if decide (Exists (λ c, type c ∈ cells_2d) cs) then cells_2d
  else list_to_set (type <$> cs).

Definition remove_lower_dim_cells (m : mesh) : mesh :=
  let keep := keep_types (cells m) in
  let cell_data' :=
    (λ '(name, val),
       (name, (filter (λ dc, type dc.2 ∈ keep) (zip val (cells m))).*1))
      <$> cell_data m in
  Mesh (points m) (filter (λ c, type c ∈ keep) (cells m))
       (point_data m) cell_data'.

(** *** prune_vertices *)

(** The loop that cuts [uidx] into the new cell blocks. *)
Fixpoint rebuild (cs : list CellBlock) (uidx : list nat) (k : nat)
    : list CellBlock :=
  match cs with
  | [] => []
  | c :: cs' =>
      let n := size (data c) in
      mkCellBlock (type c)
                  (np_reshape (take n (drop k uidx)) (shape (data c)))
        :: rebuild cs' uidx (k + n)
  end.

(** [for key in point_data: point_data[key] = point_data[key][uvertices]]. *)
Definition index_point_data (uvertices : list nat)
    (pd : list (string * list PD)) : result (list (string * list PD)) :=
  mapM (λ kv, arr' ← np_take kv.2 uvertices; Ok (kv.1, arr')) pd.

Definition prune_vertices (m : mesh) : result mesh :=
  flat ← mapM (λ c, np_concatenate (rows (data c))) (cells m);
  ncells ← np_concatenate flat;
  let '(uvertices, uidx) := np_unique_inverse ncells in
  let cells' := rebuild (cells m) uidx 0 in
  rows' ← np_take (rows (points m)) uvertices;
  point_data' ← index_point_data uvertices (point_data m);
  Ok (Mesh (Arr2 (ncols (points m)) rows') cells' point_data' (cell_data m)).

(** *** prune_z_0 *)

(** The double nearest to [1.0e-13], as an exact rational. *)
Definition tol : Q := 3961408125713217 # 39614081257132168796771975168.

Definition Qltb (x y : Q) : bool :=
  (Qnum x * Zpos (Qden y) <? Qnum y * Zpos (Qden x))%Z.

(** [a[:, i]] for [i < ncols a]. *)
Definition column (i : nat) (a : array2 Q) : list Q :=
  omap (λ r, r !! i) (rows a).

Definition prune_z_0 (m : mesh) : mesh :=
  if bool_decide (ncols (points m) = 3)
     && forallb (λ z, Qltb (Qabs z) tol) (column 2 (points m))
  then Mesh (Arr2 2 (take 2 <$> rows (points m)))
            (cells m) (point_data m) (cell_data m)
  else m.

(** *** The three stages in the order of the code *)
Definition process (remove_lower prune_v prune_z : bool) (m : mesh)
    : result mesh :=
  let m1 := if remove_lower then remove_lower_dim_cells m else m in
  m2 ← (if prune_v then prune_vertices m1 else Ok m1);
  Ok (if prune_z then prune_z_0 m2 else m2).

End mesh.
Arguments mesh : clear implicits.

End Mesh.

(** ** [orient_lines] on a store of objects *)

(** To speak about what a call leaves untouched, the same code is read
    once more over a store: the input list, the segment objects and the
    three numpy arrays are objects with an address, and the code reads,
    allocates and writes them.  Addresses are positions in the store;
    allocation appends. *)
Module Store.

Abbreviation loc := nat.

Inductive obj : Set :=
  | OList (items : list loc)          (** a Python list of references *)
  | OLine (l : Line)                  (** a segment *)
  | OPairs (a : list (Z * Z))         (** [point_pair_ids] *)
  | OInts (a : list nat)              (** [order] *)
  | OBools (a : list bool).           (** [oriented] *)

Abbreviation heap := (list obj).

(** A computation reads and changes the store and returns or raises. *)
Definition prog (A : Type) : Type := heap → result A * heap.

#[global] Instance prog_ret : MRet prog := λ A a h, (Ok a, h).
#[global] Instance prog_bind : MBind prog := λ A B f p h,
  match p h with
  | (Ok a, h') => f a h'
  | (Raise e, h') => (Raise e, h')
  end.

Definition lift {A} (r : result A) : prog A := λ h, (r, h).

Definition alloc (o : obj) : prog loc := λ h, (Ok (length h), h ++ [o]).
Definition write (l : loc) (o : obj) : prog unit := λ h, (Ok (), <[l := o]> h).

Definition read_list (l : loc) : prog (list loc) := λ h,
  (match h !! l with Some (OList items) => Ok items | _ => Raise TypeError end, h).
Definition read_line (l : loc) : prog Line := λ h,
  (match h !! l with Some (OLine ln) => Ok ln | _ => Raise TypeError end, h).
Definition read_pairs (l : loc) : prog (list (Z * Z)) := λ h,
  (match h !! l with Some (OPairs a) => Ok a | _ => Raise TypeError end, h).
Definition read_ints (l : loc) : prog (list nat) := λ h,
  (match h !! l with Some (OInts a) => Ok a | _ => Raise TypeError end, h).
Definition read_bools (l : loc) : prog (list bool) := λ h,
  (match h !! l with Some (OBools a) => Ok a | _ => Raise TypeError end, h).

(** Modelled from the spec: unary minus of a segment (the class is not
    part of helpers.py) builds a new segment with the sign flipped and
    leaves its operand as it is. *)
Definition neg_line (l : loc) : prog loc :=
  ln ← read_line l; alloc (OLine (neg ln)).

(** The body of the loop; [wh] and [inn] are temporaries of the
    iteration and stay values. *)
Definition step (ppi order oriented : loc) (j : nat) : prog unit :=
  a ← read_pairs ppi;
  prev ← lift (subscript a (j - 1));
  let out := prev.2 in
  let wh := Orient.candidates fst j a out in
  wh ← (if decide (length wh = 0) then
          write ppi (OPairs (Np.map_from flip j a));;
          o ← read_bools oriented;
          write oriented (OBools (Np.map_from negb j o));;
          mret (Orient.candidates snd j a out)
        else mret wh);
  k ← lift (subscript wh 0);
  a ← read_pairs ppi;
  write ppi (OPairs (Np.swap j k a));;
  o ← read_ints order;
  write order (OInts (Np.swap j k o)).

Fixpoint for_each (js : list nat) (body : nat → prog unit) : prog unit :=
  match js with
  | [] => mret ()
  | j :: js' => body j;; for_each js' body
  end.

(** [lines[j] if oriented[j] else -lines[j]]. *)
Definition pick (items1 : list loc) (ori : list bool) (j : nat) : prog loc :=
  l ← lift (subscript items1 j);
  b ← lift (subscript ori j);
  if b : bool then mret l else neg_line l.

Definition orient_lines (lines : loc) : prog loc :=
  items ← read_list lines;
  pairs ← mapM (λ l, ln ← read_line l; mret (points ln)) items;
  ppi ← alloc (OPairs pairs);
  order ← alloc (OInts (seq 0 (length pairs)));
  oriented ← alloc (OBools (replicate (length pairs) true));
  for_each (seq 1 (length pairs - 1)) (step ppi order oriented);;
  ord ← read_ints order;
  items1 ← lift (mapM (subscript items) ord);
  lines1 ← alloc (OList items1);
  ori ← read_bools oriented;
  items2 ← mapM (pick items1 ori) (seq 0 (length ori));
  alloc (OList items2).

End Store.

(** ** The command line of [generate_mesh] *)

(** Before it starts Gmsh, [generate_mesh] builds the argument list of
    the call.  [extra_gmsh_arguments] is a Python list that the caller
    may hold on to, so the lists are the objects of a store here;
    allocation appends.  The file names are taken as they are once the
    temporary files have been named. *)
Module Gmsh.

Abbreviation heap := (list (list string)).

(** [if extra_gmsh_arguments is None: extra_gmsh_arguments = []], then
    [if mesh_file_type == "mesh": extra_gmsh_arguments += [...]]; on a
    list, [+=] extends the list object in place.  The result is the
    reference that [extra_gmsh_arguments] is bound to afterwards. *)
Definition extra_arguments (extra_gmsh_arguments : option nat)
    (mesh_file_type : string) (h : heap) : result nat * heap :=
  let '(l, h) := match extra_gmsh_arguments with
                 | None => (length h, h ++ [[]])
                 | Some l => (l, h)
                 end in
  if decide (mesh_file_type = "mesh") then
    match h !! l with
    | Some xs =>
        (Ok l, <[l := xs ++ ["-string"; "Mesh.SaveElementTagType=2;"]]> h)
    | None => (Raise TypeError, h)
    end
  else (Ok l, h).

(** [[f"-{dim}", geo_filename, "-format", mesh_file_type, "-bin", "-o",
    msh_filename] + extra_gmsh_arguments], a new list. *)
Definition args (dim : Z) (geo_filename mesh_file_type msh_filename : string)
    (extra_gmsh_arguments : list string) : list string :=
  ["-" +:+ pretty dim; geo_filename; "-format"; mesh_file_type; "-bin"; "-o";
   msh_filename] ++ extra_gmsh_arguments.

(** The arguments that a call hands to Gmsh, and what the call does to
    the store on the way. *)
Definition command_line (dim : Z) (extra_gmsh_arguments : option nat)
    (geo_filename msh_filename mesh_file_type : string) (h : heap)
    : result (list string) * heap :=
  match extra_arguments extra_gmsh_arguments mesh_file_type h with
  | (Ok l, h') =>
      (match h' !! l with
       | Some xs => Ok (args dim geo_filename mesh_file_type msh_filename xs)
       | None => Raise TypeError
       end, h')
  | (Raise e, h') => (Raise e, h')
  end.

End Gmsh.

(** * Vocabulary of the statements *)

(** The ids from which [numpy.array] builds an integer array: the Python
    ints from −2^63 to 2^63 − 1. *)
Definition int64 (z : Z) : Prop := (- 2 ^ 63 ≤ z < 2 ^ 63)%Z.
Definition int64_ids (P : list (Z * Z)) : Prop :=
  Forall (λ p, int64 p.1 ∧ int64 p.2) P.

#[global] Instance int64_dec z : Decision (int64 z).
Proof. unfold int64. apply _. Defined.
#[global] Instance int64_ids_dec P : Decision (int64_ids P).
Proof. unfold int64_ids. apply _. Defined.

Section orient_vocabulary.
Import Orient.

(** Whether the search for a stored tail equal to [out] finds a row
    among the rows from [j] on. *)
Definition found (j : nat) (ppi : list (Z * Z)) (out : Z) : bool :=
  bool_decide (length (candidates fst j ppi out) ≠ 0).

(** At the start of iteration [j] on the input rows [P]: the three
    arrays have the length of the input, [order] is a permutation of the positions, the flags of
    the unplaced rows agree, every row is the input row that [order]
    names in the direction that [oriented] gives, the placed rows are
    chained, and position 0 still holds input row 0 as stored. *)
Record Inv (P : list (Z * Z)) (j : nat) (s : state) : Prop := {
  inv_len_ppi : length (point_pair_ids s) = length P;
  inv_len_order : length (order s) = length P;
  inv_len_ori : length (oriented s) = length P;
  inv_perm : order s ≡ₚ seq 0 (length P);
  inv_uniform : ∃ b, ∀ i, j ≤ i → i < length P → oriented s !! i = Some b;
  inv_rows : ∀ i o b, order s !! i = Some o → oriented s !! i = Some b →
             point_pair_ids s !! i = dir b <$> P !! o;
  inv_chain : ∀ i x y, S i < j → point_pair_ids s !! i = Some x →
              point_pair_ids s !! S i = Some y → x.2 = y.1;
  inv_first : 0 < length P → order s !! 0 = Some 0 ∧ oriented s !! 0 = Some true
}.

(** The unordered pair of endpoint ids of a row. *)
Definition undir (p : Z * Z) : Z * Z :=
  if decide (p.1 ≤ p.2)%Z then p else flip p.

(** The consecutive pairs of a vertex sequence. *)
Fixpoint path_edges (ws : list Z) : list (Z * Z) :=
  match ws with
  | x :: ((y :: _) as ws') => (x, y) :: path_edges ws'
  | _ => []
  end.

Definition cycle_edges (vs : list Z) : list (Z * Z) :=
  match vs with
  | [] => []
  | v :: _ => path_edges (vs ++ [v])
  end.

(** [is_cycle vs P]: the rows [P], read as undirected edges, are exactly
    the edges of the closed walk through the pairwise distinct vertices
    [vs] (so every id has degree 2 and there is one cycle). *)
Definition is_cycle (vs : list Z) (P : list (Z * Z)) : Prop :=
  NoDup vs ∧ vs ≠ [] ∧ undir <$> P ≡ₚ undir <$> cycle_edges vs.

#[global] Instance is_cycle_dec vs P : Decision (is_cycle vs P).
Proof. unfold is_cycle. apply _. Defined.

(** The number of row ends that are the id [v]. *)
Definition degree (v : Z) (P : list (Z * Z)) : nat :=
  length (filter (λ p, p.1 = v) P) + length (filter (λ p, p.2 = v) P).

(** At the start of iteration [j] the unplaced rows, read as undirected
    edges, are the edges of a simple path from the head of the last
    placed row back to the tail of row 0. *)
Definition Path (j : nat) (s : state) : Prop :=
  ∃ ws prev first,
    point_pair_ids s !! (j - 1) = Some prev ∧
    point_pair_ids s !! 0 = Some first ∧
    NoDup ws ∧ head ws = Some prev.2 ∧ last ws = Some first.1 ∧
    undir <$> drop j (point_pair_ids s) ≡ₚ undir <$> path_edges ws.

(** The loop condition on the returned list: every segment's effective
    head is the effective tail of the next one, cyclically. *)
Definition closes (out : list Line) : Prop :=
  ∀ i l l', out !! i = Some l → out !! ((i + 1) mod length out) = Some l' →
            eff_head l = eff_tail l'.

(** The multiset of underlying undirected edges. *)
Definition edges (ls : list Line) : list (Z * Z) := undir ∘ points <$> ls.

(** The input rows [P] in the order in which the first run, which ended
    in [sF], returned them. *)
Definition reordered (P : list (Z * Z)) (sF : state) : list (Z * Z) :=
  (λ o, P !!! o) <$> order sF.

(** The state of the second run when the first run has the flags [ori]. *)
Definition replay (P : list (Z * Z)) (sF : state) (ori : list bool) : state :=
  St (zip_with dir ori (reordered P sF)) (seq 0 (length P)) ori.

(** Position [k] is the first position from [j] on whose column [col]
    holds [out]. *)
Definition lowest_match (col : Z * Z → Z) (j : nat) (ppi : list (Z * Z))
    (out : Z) (k : nat) : Prop :=
  j ≤ k ∧ (∃ r, ppi !! k = Some r ∧ col r = out) ∧
  ∀ i r, j ≤ i < k → ppi !! i = Some r → col r ≠ out.

(** No position from [j] on holds [out] in column [col]. *)
Definition no_match (col : Z * Z → Z) (j : nat) (ppi : list (Z * Z))
    (out : Z) : Prop :=
  ∀ i r, j ≤ i → ppi !! i = Some r → col r ≠ out.

End orient_vocabulary.

(** The largest absolute value of a list of coordinates (0 for none). *)
Definition max_abs (zs : list Q) : Q :=
  foldr (λ z acc, Qmax (Qabs z) acc) 0%Q zs.

(** The vertex ids that the cell blocks refer to, in storage order. *)
Definition referenced (cs : list Mesh.CellBlock) : list nat :=
  concat ((λ c, concat (Mesh.rows (Mesh.data c))) <$> cs).

(** A block with every vertex id replaced by its image under [f]. *)
Definition map_block (f : nat → nat) (c : Mesh.CellBlock) : Mesh.CellBlock :=
  Mesh.mkCellBlock (Mesh.type c)
    (Mesh.Arr2 (Mesh.ncols (Mesh.data c))
               (fmap (M := list) f <$> Mesh.rows (Mesh.data c))).

(** Every block holds at least one cell, and there is a block. *)
Definition has_cells (cs : list Mesh.CellBlock) : Prop :=
  cs ≠ [] ∧ Forall (λ c, Mesh.rows (Mesh.data c) ≠ []) cs.

(** The invariants of the data model that the pruner relies on: cell
    arrays are rectangular, every vertex id is a valid point id, and
    every per-point data array has one entry per point. *)
Definition valid {PD CD} (m : Mesh.mesh PD CD) : Prop :=
  Forall (λ c, Mesh.rect (Mesh.data c)) (Mesh.cells m) ∧
  Forall (λ x, x < length (Mesh.rows (Mesh.points m)))
         (referenced (Mesh.cells m)) ∧
  Forall (λ kv, length kv.2 = length (Mesh.rows (Mesh.points m)))
         (Mesh.point_data m).

(** [keeps h0 p Q]: run in any store that extends [h0], the computation
    [p] leaves the objects of [h0] as they are, and a returned value
    satisfies [Q]. *)
Definition keeps (h0 : Store.heap) {A} (p : Store.prog A) (Q : A → Prop) : Prop :=
  ∀ k, (∃ k', (p (h0 ++ k)).2 = h0 ++ k') ∧
       ∀ a, (p (h0 ++ k)).1 = Ok a → Q a.

(** The references [items] point at the segments [ls]. *)
Definition holds (h : Store.heap) (items : list Store.loc) (ls : list Line) : Prop :=
  Forall2 (λ l ln, h !! l = Some (Store.OLine ln)) items ls.

(** The store [h] followed by the three arrays of the loop. *)
Definition with_arrays (h : Store.heap) (s : Orient.state) : Store.heap :=
  h ++ [Store.OPairs (Orient.point_pair_ids s); Store.OInts (Orient.order s);
        Store.OBools (Orient.oriented s)].

(** The outcome of a value computation, without its value. *)
Definition outcome {A} (r : result A) : result () :=
  match r with Ok _ => Ok () | Raise e => Raise e end.

(** The last comprehension of the value reading. *)
Definition pick_value (ls1 : list Line) (ori : list bool) (j : nat) : result Line :=
  l ← subscript ls1 j; b ← subscript ori j; Ok (Orient.signed b l).

(** ** Vocabulary of the further properties *)

(** Every row's second id is the first id of the row after it; the step
    from the last row back to the first is not part of it. *)
Definition chained (P : list (Z * Z)) : Prop :=
  ∀ i x y, P !! i = Some x → P !! S i = Some y → x.2 = y.1.

(** Every point is a vertex of some cell. *)
Definition all_referenced {PD CD} (m : Mesh.mesh PD CD) : Prop :=
  ∀ i, i < length (Mesh.rows (Mesh.points m)) → i ∈ referenced (Mesh.cells m).

(** What the pruner asks of the vertex ids: each one is an index into
    the point array and into every per-point data array. *)
Definition in_range {PD CD} (m : Mesh.mesh PD CD) : Prop :=
  Forall (λ x, x < length (Mesh.rows (Mesh.points m)))
         (referenced (Mesh.cells m)) ∧
  Forall (λ kv, Forall (λ x, x < length kv.2) (referenced (Mesh.cells m)))
         (Mesh.point_data m).

(** The blocks [cs'] have the types and the shapes of the blocks [cs],
    and the vertex id at every place of [cs'] names in [new] the entry
    that the id at the same place of [cs] names in [old]. *)
Definition same_entries {A} (old new : list A)
    (cs cs' : list Mesh.CellBlock) : Prop :=
  Forall2 (λ c c',
    Mesh.type c' = Mesh.type c ∧
    Mesh.ncols (Mesh.data c') = Mesh.ncols (Mesh.data c) ∧
    Forall2 (Forall2 (λ x x', is_Some (old !! x) ∧ new !! x' = old !! x))
            (Mesh.rows (Mesh.data c)) (Mesh.rows (Mesh.data c')))
    cs cs'.

(** The state that the cell-type filter leaves: every block has a type
    of the kept tier, and no cell-data list is longer than the list of
    blocks. *)
Definition filtered {PD CD} (m : Mesh.mesh PD CD) : Prop :=
  Forall (λ c, Mesh.type c ∈ Mesh.keep_types (Mesh.cells m)) (Mesh.cells m) ∧
  Forall (λ kv, length kv.2 ≤ length (Mesh.cells m)) (Mesh.cell_data m).

(** The store after [n] calls in a row. *)
Fixpoint after_calls {A} (n : nat) (call : Gmsh.heap → A * Gmsh.heap)
    (h : Gmsh.heap) : Gmsh.heap :=
  match n with
  | 0 => h
  | S n' => after_calls n' call (call h).2
  end.

(** A segment, and the state of the loop, with every point id renamed
    by [f]. *)
Definition rename (f : Z → Z) (l : Line) : Line :=
  mkLine (prod_map f f (points l)) (sign l).
Definition rename_state (f : Z → Z) (s : Orient.state) : Orient.state :=
  Orient.St (prod_map f f <$> Orient.point_pair_ids s)
            (Orient.order s) (Orient.oriented s).

(** * Proofs *)

Lemma bind_Ok {A B} (f : A → result B) (m : result A) b :
  m ≫= f = Ok b ↔ ∃ a, m = Ok a ∧ f a = Ok b.
Proof.
  destruct m as [a|e]; simpl.
  - split; [by exists a|]. by intros (? & [= <-] & ?).
  - split; [done|]. by intros (? & ? & _).
Qed.

Lemma subscript_Ok {A} (xs : list A) i x :
  subscript xs i = Ok x ↔ xs !! i = Some x.
Proof. unfold subscript. destruct (xs !! i); split; congruence. Qed.

(** ** Elementary facts about the numpy primitives *)
Section np_facts.
Context {A : Type}.
Implicit Types (a : list A) (j k : nat).

Lemma where_from_head i inn out k :
  Np.where_from i inn out !! 0 = Some k ↔
  ∃ m, k = i + m ∧ inn !! m = Some out ∧ ∀ m', m' < m → inn !! m' ≠ Some out.
Proof.
  revert i. induction inn as [|x inn IH]; intros i; simpl.
  - split; [done|]. intros (m & _ & Hm & _). by rewrite lookup_nil in Hm.
  - destruct (decide (x = out)) as [->|Hne]; simpl.
    + split.
      * intros [= <-]. exists 0. split; [lia|]. split; [done|]. lia.
      * intros (m & -> & Hm & Hlow). destruct m as [|m]; [f_equal; lia|].
        exfalso. apply (Hlow 0); [lia|done].
    + rewrite IH. split.
      * intros (m & -> & Hm & Hlow). exists (S m). split; [lia|]. split; [done|].
        intros [|m'] Hlt; simpl; [congruence|]. apply Hlow. lia.
      * intros (m & -> & Hm & Hlow). destruct m as [|m]; simpl in Hm; [congruence|].
        exists m. split; [lia|]. split; [done|].
        intros m' Hlt. apply (Hlow (S m')). lia.
Qed.

Lemma where_from_nil i inn out :
  Np.where_from i inn out = [] ↔ out ∉ inn.
Proof.
  revert i. induction inn as [|x inn IH]; intros i; simpl.
  - split; [|done]. intros _. apply not_elem_of_nil.
  - rewrite not_elem_of_cons. destruct (decide (x = out)) as [->|Hne].
    + split; [done|]. intros [? _]. done.
    + rewrite IH. split; [intros ?; split; [congruence|done]|intros [_ ?]; done].
Qed.

Lemma length_swap j k a : length (Np.swap j k a) = length a.
Proof.
  unfold Np.swap. destruct (a !! j), (a !! k); try done.
  by rewrite !length_insert.
Qed.

Lemma swap_same j a : Np.swap j j a = a.
Proof.
  unfold Np.swap. destruct (a !! j) as [x|] eqn:Hj; [|done].
  rewrite list_insert_insert_eq. by apply list_insert_id.
Qed.

(** A swap of two positions [j < k] seen on the decomposed array. *)
Lemma swap_decomp j k a x y :
  j < k → a !! j = Some x → a !! k = Some y →
  ∃ l1 l2 l3, a = l1 ++ x :: l2 ++ y :: l3 ∧ length l1 = j ∧
              length l2 = k - S j ∧
              Np.swap j k a = l1 ++ y :: l2 ++ x :: l3.
Proof.
  intros Hjk Hj Hk.
  destruct (list_elem_of_split_length a j x Hj) as (l1 & r & -> & Hl1).
  assert (r !! (k - S j) = Some y) as Hr.
  { rewrite lookup_app_r in Hk by lia.
    replace (k - length l1) with (S (k - S j)) in Hk by lia. done. }
  destruct (list_elem_of_split_length r (k - S j) y Hr) as (l2 & l3 & -> & Hl2).
  exists l1, l2, l3. split; [done|]. split; [done|]. split; [done|].
  unfold Np.swap. rewrite Hj, Hk.
  rewrite (insert_app_r_alt l1 _ j) by lia.
  replace (j - length l1) with 0 by lia. simpl.
  rewrite (insert_app_r_alt l1 _ k) by lia.
  replace (k - length l1) with (S (length l2 + 0)) by lia. simpl.
  by rewrite (insert_app_r l2 _ 0).
Qed.

Lemma swap_lookup j k a i :
  j < length a → k < length a →
  Np.swap j k a !! i =
    a !! (if decide (i = k) then j else if decide (i = j) then k else i).
Proof.
  intros Hj Hk. unfold Np.swap.
  destruct (lookup_lt_is_Some_2 a j Hj) as [x Hx].
  destruct (lookup_lt_is_Some_2 a k Hk) as [y Hy].
  rewrite Hx, Hy. destruct (decide (i = k)) as [->|Hik].
  - rewrite list_lookup_insert_eq by (rewrite length_insert; lia). done.
  - rewrite list_lookup_insert_ne by done.
    destruct (decide (i = j)) as [->|Hij].
    + by rewrite list_lookup_insert_eq by lia.
    + by rewrite list_lookup_insert_ne by done.
Qed.

Lemma swap_take j k a : j ≤ k → take j (Np.swap j k a) = take j a.
Proof.
  intros Hjk. unfold Np.swap.
  destruct (a !! j) eqn:Hj, (a !! k) eqn:Hk; try done.
  rewrite take_insert_ge by lia. by rewrite take_insert_ge by lia.
Qed.

Lemma swap_perm j k a : Np.swap j k a ≡ₚ a.
Proof.
  destruct (decide (j = k)) as [->|Hne]; [by rewrite swap_same|].
  assert (∀ j k a, j < k → Np.swap j k a ≡ₚ a) as Hlt.
  { clear. intros j k a Hjk. destruct (a !! j) as [x|] eqn:Hj;
      [|unfold Np.swap; by rewrite Hj].
    destruct (a !! k) as [y|] eqn:Hk; [|unfold Np.swap; by rewrite Hj, Hk].
    destruct (swap_decomp j k a x y Hjk Hj Hk) as (l1 & l2 & l3 & -> & _ & _ & ->).
    apply Permutation_app_head.
    rewrite !(Permutation_middle l2). by rewrite Permutation_swap. }
  destruct (decide (j < k)); [apply Hlt; lia|].
  assert (Np.swap j k a = Np.swap k j a) as ->; [|apply Hlt; lia].
  unfold Np.swap. destruct (a !! j) as [x|] eqn:Hj, (a !! k) as [y|] eqn:Hk; try done.
  by apply list_insert_insert_ne.
Qed.

(** After the swap the pool [a[j:]] starts with the old [a[k]], and the
    rows behind it are the old pool without that row. *)
Lemma swap_pool j k a y :
  j ≤ k → a !! k = Some y →
  ∃ pool, drop j (Np.swap j k a) = y :: pool ∧ y :: pool ≡ₚ drop j a.
Proof.
  intros Hjk Hk.
  assert (j < length a) as Hlen by (apply lookup_lt_Some in Hk; lia).
  destruct (lookup_lt_is_Some_2 a j Hlen) as [x Hj].
  destruct (decide (j = k)) as [->|Hne].
  - rewrite swap_same. exists (drop (S k) a).
    rewrite <- (drop_S a y k Hk). done.
  - destruct (swap_decomp j k a x y ltac:(lia) Hj Hk)
      as (l1 & l2 & l3 & -> & Hl1 & _ & ->).
    exists (l2 ++ x :: l3). rewrite <- Hl1, !drop_app_length. split; [done|].
    rewrite !(Permutation_middle l2). by rewrite Permutation_swap.
Qed.

Lemma length_map_from (f : A → A) j a : length (Np.map_from f j a) = length a.
Proof.
  unfold Np.map_from. rewrite length_app, length_fmap, <- length_app.
  by rewrite take_drop.
Qed.

Lemma map_from_take (f : A → A) j a : take j (Np.map_from f j a) = take j a.
Proof.
  unfold Np.map_from. destruct (decide (j ≤ length a)).
  - rewrite take_app_length'; [done|]. rewrite length_take. lia.
  - rewrite drop_ge by lia. simpl. rewrite app_nil_r. by rewrite take_take, Nat.min_id.
Qed.

Lemma map_from_drop (f : A → A) j a : drop j (Np.map_from f j a) = f <$> drop j a.
Proof.
  unfold Np.map_from. destruct (decide (j ≤ length a)).
  - rewrite drop_app_length'; [done|]. rewrite length_take. lia.
  - rewrite !drop_ge; [done|lia|]. rewrite drop_ge by lia. simpl.
    rewrite app_nil_r, length_take. lia.
Qed.

Lemma map_from_lookup (f : A → A) j a i :
  Np.map_from f j a !! i = if decide (i < j) then a !! i else f <$> a !! i.
Proof.
  unfold Np.map_from. destruct (decide (i < j)) as [Hlt|Hge].
  - destruct (decide (i < length a)).
    + rewrite lookup_app_l by (rewrite length_take; lia). by rewrite lookup_take_lt.
    + rewrite drop_ge by lia. simpl. rewrite app_nil_r.
      rewrite lookup_take_lt by done. done.
  - destruct (decide (j ≤ length a)).
    + rewrite lookup_app_r by (rewrite length_take; lia).
      rewrite length_take, list_lookup_fmap, lookup_drop. f_equal. f_equal. lia.
    + rewrite drop_ge by lia. simpl. rewrite app_nil_r.
      rewrite lookup_take_ge by lia. rewrite (lookup_ge_None_2 a i) by lia. done.
Qed.

End np_facts.

(** ** The loop of [orient_lines], step by step *)
Section orient_step.
Import Orient.
Implicit Types (ppi : list (Z * Z)) (s : state) (j k : nat).

Lemma flip_flip p : flip (flip p) = p.
Proof. by destruct p. Qed.

Lemma dir_negb b p : dir (negb b) p = flip (dir b p).
Proof. destruct b, p; done. Qed.

Lemma candidates_head col j ppi out k :
  candidates col j ppi out !! 0 = Some k ↔
  j ≤ k ∧ (∃ r, ppi !! k = Some r ∧ col r = out) ∧
  ∀ i r, j ≤ i < k → ppi !! i = Some r → col r ≠ out.
Proof.
  unfold candidates, Np.where_eq. rewrite list_lookup_fmap.
  split.
  - intros Hk. destruct (Np.where_from _ _ _ !! 0) as [m|] eqn:Hm; [|done].
    simpl in Hk. injection Hk as <-.
    apply where_from_head in Hm as (m' & -> & Hm & Hlow). simpl in *.
    rewrite list_lookup_fmap, lookup_drop in Hm.
    split; [lia|]. split.
    + destruct (ppi !! (j + m')) as [r|] eqn:Hr; [|done].
      exists r. replace (m' + j) with (j + m') by lia. split; [done|].
      simpl in Hm. congruence.
    + intros i r Hi Hr Hcol. apply (Hlow (i - j)); [lia|].
      rewrite list_lookup_fmap, lookup_drop.
      replace (j + (i - j)) with i by lia. rewrite Hr. simpl. by f_equal.
  - intros (Hjk & (r & Hr & Hcol) & Hlow).
    assert (Np.where_from 0 (col <$> drop j ppi) out !! 0 = Some (k - j)) as ->.
    { apply where_from_head. exists (k - j). split; [done|]. split.
      - rewrite list_lookup_fmap, lookup_drop.
        replace (j + (k - j)) with k by lia. rewrite Hr. simpl. by f_equal.
      - intros m' Hm'. rewrite list_lookup_fmap, lookup_drop.
        destruct (ppi !! (j + m')) as [r'|] eqn:Hr'; [|done]. simpl.
        intros [= Heq]. apply (Hlow (j + m') r'); [lia|done|done]. }
    simpl. f_equal. lia.
Qed.

Lemma candidates_empty col j ppi out :
  length (candidates col j ppi out) = 0 ↔
  ∀ r, r ∈ drop j ppi → col r ≠ out.
Proof.
  unfold candidates, Np.where_eq. rewrite length_fmap, length_zero_iff_nil.
  rewrite where_from_nil, list_elem_of_fmap. split.
  - intros Hno r Hr Hcol. apply Hno. by exists r.
  - intros Hno (r & Hcol & Hr). by apply (Hno r).
Qed.

Lemma candidates_nonempty col j ppi out r :
  r ∈ drop j ppi → col r = out → is_Some (candidates col j ppi out !! 0).
Proof.
  intros Hr Hcol. apply lookup_lt_is_Some_2.
  destruct (decide (length (candidates col j ppi out) = 0)) as [He|]; [|lia].
  exfalso. by apply (proj1 (candidates_empty _ _ _ _) He r).
Qed.

Lemma candidates_flip j ppi out :
  candidates snd j ppi out = candidates fst j (Np.map_from flip j ppi) out.
Proof.
  unfold candidates. rewrite map_from_drop. do 2 f_equal.
  rewrite <- list_fmap_compose. by apply list_fmap_ext.
Qed.

(** The body of the loop with the two searches read as one search in the
    array as it stands after the conditional flip. *)
Lemma step_eq j s :
  step j s =
    (prev ← subscript (point_pair_ids s) (j - 1);
     let b := found j (point_pair_ids s) prev.2 in
     let ppi1 := if b then point_pair_ids s
                 else Np.map_from flip j (point_pair_ids s) in
     k ← subscript (candidates fst j ppi1 prev.2) 0;
     Ok (St (Np.swap j k ppi1) (Np.swap j k (order s))
            (if b then oriented s else Np.map_from negb j (oriented s)))).
Proof.
  unfold step, found. destruct (subscript _ (j - 1)) as [prev|]; [|done]. simpl.
  destruct (decide (length (candidates fst j (point_pair_ids s) prev.2) = 0))
    as [He|Hne].
  - rewrite bool_decide_eq_false_2 by (intros ?; done).
    by rewrite candidates_flip.
  - by rewrite bool_decide_eq_true_2.
Qed.

(** What a successful iteration did. *)
Lemma step_Ok j s s' :
  step j s = Ok s' →
  ∃ prev k r,
    let b := found j (point_pair_ids s) prev.2 in
    let ppi1 := if b then point_pair_ids s
                else Np.map_from flip j (point_pair_ids s) in
    point_pair_ids s !! (j - 1) = Some prev ∧
    j ≤ k ∧ ppi1 !! k = Some r ∧ r.1 = prev.2 ∧
    (∀ i r', j ≤ i < k → ppi1 !! i = Some r' → r'.1 ≠ prev.2) ∧
    s' = St (Np.swap j k ppi1) (Np.swap j k (order s))
            (if b then oriented s else Np.map_from negb j (oriented s)).
Proof.
  rewrite step_eq.
  intros (prev & Hprev%subscript_Ok & (k & Hk%subscript_Ok & [= <-])%bind_Ok)%bind_Ok.
  apply candidates_head in Hk as (Hjk & (r & Hr & Hcol) & Hlow).
  exists prev, k, r. simpl. eauto 10.
Qed.

End orient_step.

(** ** Invariants of the loop, for every input *)
Section orient_inv.
Import Orient.
Variable P : list (Z * Z).
Local Abbreviation N := (length P).
Implicit Types (s : state) (j k : nat).

Lemma Inv_init : Inv P 1 (init P).
Proof.
  split; simpl.
  - done.
  - by rewrite length_seq.
  - by rewrite length_replicate.
  - done.
  - exists true. intros i _ Hi. by apply lookup_replicate_2.
  - intros i o b Ho [-> _]%lookup_replicate.
    apply lookup_seq in Ho as [-> _]. simpl.
    by destruct (P !! i).
  - intros; lia.
  - intros HN. split; [by rewrite lookup_seq_lt|by apply lookup_replicate_2].
Qed.

Lemma step_Inv j s s' :
  1 ≤ j → Inv P j s → step j s = Ok s' → Inv P (S j) s'.
Proof.
  intros Hj [Hlp Hlo Hlb Hperm [b0 Hunif] Hrows Hchain Hfirst] Hstep.
  apply step_Ok in Hstep as (prev & k & r & Hprev & Hjk & Hk & Hcol & _ & ->).
  set (b := found j (point_pair_ids s) prev.2) in *.
  set (ppi1 := if b then point_pair_ids s
               else Np.map_from flip j (point_pair_ids s)) in *.
  set (ori1 := if b then oriented s else Np.map_from negb j (oriented s)).
  assert (length ppi1 = N) as Hlp1.
  { unfold ppi1. destruct b; [done|]. by rewrite length_map_from. }
  assert (length ori1 = N) as Hlb1.
  { unfold ori1. destruct b; [done|]. by rewrite length_map_from. }
  assert (k < N) as HkN by (apply lookup_lt_Some in Hk; lia).
  assert (∀ i, j ≤ i → i < N → ori1 !! i = Some (if b then b0 else negb b0))
    as Hunif1.
  { intros i Hi HiN. unfold ori1. destruct b; [by apply Hunif|].
    rewrite map_from_lookup. destruct (decide (i < j)); [lia|].
    by rewrite Hunif. }
  assert (∀ i o c, order s !! i = Some o → ori1 !! i = Some c →
                   ppi1 !! i = dir c <$> P !! o) as Hrows1.
  { intros i o c Ho Hc. unfold ppi1, ori1 in *. destruct b; [by apply Hrows|].
    rewrite map_from_lookup in Hc. rewrite map_from_lookup.
    destruct (decide (i < j)); [by apply Hrows|].
    destruct (oriented s !! i) as [c'|] eqn:Hc'; [|done].
    injection Hc as <-. rewrite (Hrows i o c' Ho Hc').
    destruct (P !! o); [|done]. simpl. by rewrite dir_negb. }
  assert (take j ppi1 = take j (point_pair_ids s)) as Htake.
  { unfold ppi1. destruct b; [done|]. apply map_from_take. }
  split; simpl.
  - by rewrite length_swap.
  - by rewrite length_swap.
  - done.
  - by rewrite swap_perm.
  - exists (if b then b0 else negb b0). intros i Hi. apply Hunif1. lia.
  - intros i o c. rewrite !swap_lookup by lia. intros Ho Hc.
    apply (Hrows1 _ o c Ho).
    repeat case_decide; subst; try done.
    + rewrite Hunif1 in Hc by lia. rewrite Hunif1 by lia. done.
    + rewrite Hunif1 in Hc by lia. rewrite Hunif1 by lia. done.
  - intros i x y Hi. rewrite !swap_lookup by lia.
    destruct (decide (S i = j)) as [Heq|Hne].
    + replace (j - 1) with i in Hprev by lia.
      repeat case_decide; try lia.
      * intros Hx Hy.
        assert (ppi1 !! i = Some prev) as Hx'.
        { rewrite <- (lookup_take_lt ppi1 j) by lia. rewrite Htake.
          by rewrite lookup_take_lt by lia. }
        subst. congruence.
      * intros Hx Hy.
        assert (ppi1 !! i = Some prev) as Hx'.
        { rewrite <- (lookup_take_lt ppi1 j) by lia. rewrite Htake.
          by rewrite lookup_take_lt by lia. }
        congruence.
    + repeat case_decide; try lia.
      rewrite <- (lookup_take_lt ppi1 j i), <- (lookup_take_lt ppi1 j (S i)) by lia.
      rewrite Htake, !lookup_take_lt by lia. apply Hchain. lia.
  - intros HN. destruct (Hfirst HN) as [Ho Hb]. rewrite swap_lookup by lia.
    repeat case_decide; try lia. split; [done|].
    unfold ori1. destruct b; [done|]. rewrite map_from_lookup.
    by case_decide; [|lia].
Qed.

Lemma loop_Inv n j s s' :
  1 ≤ j → Inv P j s → loop (seq j n) s = Ok s' → Inv P (j + n) s'.
Proof.
  revert j s. induction n as [|n IH]; intros j s Hj HI; simpl.
  - intros [= <-]. by rewrite Nat.add_0_r.
  - intros (s1 & Hs1 & Hloop)%bind_Ok.
    replace (j + S n) with (S j + n) by lia.
    apply (IH (S j) s1); [lia| |done]. by apply (step_Inv j s).
Qed.

(** An iteration never touches the rows before [j]. *)
Lemma step_take j s s' :
  step j s = Ok s' →
  take j (point_pair_ids s') = take j (point_pair_ids s) ∧
  take j (order s') = take j (order s) ∧
  take j (oriented s') = take j (oriented s).
Proof.
  intros (prev & k & r & Hprev & Hjk & Hk & Hcol & _ & ->)%step_Ok. simpl.
  rewrite !swap_take by done.
  destruct (found _ _ _); [done|]. by rewrite !map_from_take.
Qed.

Lemma loop_take n j s s' :
  loop (seq j n) s = Ok s' →
  take j (point_pair_ids s') = take j (point_pair_ids s) ∧
  take j (order s') = take j (order s) ∧
  take j (oriented s') = take j (oriented s).
Proof.
  revert j s. induction n as [|n IH]; intros j s; simpl.
  - by intros [= <-].
  - intros (s1 & Hstep & Hloop)%bind_Ok.
    destruct (step_take _ _ _ Hstep) as (H1 & H2 & H3).
    destruct (IH _ _ Hloop) as (H1' & H2' & H3').
    rewrite <- H1, <- H2, <- H3.
    apply (f_equal (take j)) in H1'. apply (f_equal (take j)) in H2'.
    apply (f_equal (take j)) in H3'.
    rewrite !take_take in H1'. rewrite !take_take in H2'.
    rewrite !take_take in H3'.
    by replace (j `min` S j) with j in * by lia.
Qed.

End orient_inv.

(** ** Simple cycles *)

Section paths.
Implicit Types (ws vs : list Z) (p q e : Z * Z).

Lemma undir_flip p : undir (flip p) = undir p.
Proof.
  destruct p as [a b]. unfold undir, flip. simpl.
  repeat case_decide; try done; try lia. f_equal; lia.
Qed.

Lemma undir_eq p q : undir p = undir q → q = p ∨ q = flip p.
Proof.
  destruct p as [a b], q as [c d]. unfold undir, flip. simpl.
  repeat case_decide; intros [= -> ->]; auto.
Qed.

Lemma undir_fmap_flip (l : list (Z * Z)) : undir <$> (flip <$> l) = undir <$> l.
Proof.
  rewrite <- list_fmap_compose. apply list_fmap_ext.
  intros _ p _. apply undir_flip.
Qed.

Lemma path_edges_app ws v t :
  path_edges (ws ++ v :: t) = path_edges (ws ++ [v]) ++ path_edges (v :: t).
Proof.
  induction ws as [|x [|y ws] IH]; simpl in *.
  - done.
  - done.
  - by rewrite IH.
Qed.

Lemma path_edges_snoc ws u x :
  path_edges ((ws ++ [u]) ++ [x]) = path_edges (ws ++ [u]) ++ [(u, x)].
Proof. rewrite <- app_assoc. simpl. by rewrite path_edges_app. Qed.

Lemma path_edges_elem ws a b :
  (a, b) ∈ path_edges ws → a ∈ ws ∧ b ∈ ws.
Proof.
  induction ws as [|x [|y ws] IH]; simpl.
  - intros []%elem_of_nil.
  - intros []%elem_of_nil.
  - intros [[= -> ->]|Hin]%elem_of_cons.
    + split; [left|right; left].
    + destruct (IH Hin). split; by right.
Qed.

Lemma path_edges_split ws e :
  e ∈ path_edges ws → ∃ l1 l2, ws = l1 ++ e.1 :: e.2 :: l2.
Proof.
  induction ws as [|x [|y ws] IH]; simpl.
  - intros []%elem_of_nil.
  - intros []%elem_of_nil.
  - intros [->|Hin]%elem_of_cons.
    + by exists [], ws.
    + destruct (IH Hin) as (l1 & l2 & Heq). exists (x :: l1), l2.
      simpl. by rewrite Heq.
Qed.

Lemma path_edges_nil ws : path_edges ws = [] → length ws ≤ 1.
Proof. destruct ws as [|x [|y ws]]; simpl; [lia|lia|done]. Qed.

Lemma length_path_edges ws : length (path_edges ws) = length ws - 1.
Proof.
  induction ws as [|x [|y ws] IH]; [done|done|].
  change (path_edges (x :: y :: ws)) with ((x, y) :: path_edges (y :: ws)).
  simpl in *. lia.
Qed.

Lemma length_cycle_edges vs : length (cycle_edges vs) = length vs.
Proof.
  destruct vs as [|v vs]; [done|]. unfold cycle_edges.
  rewrite length_path_edges, length_app. simpl. lia.
Qed.

Lemma is_cycle_length vs (P : list (Z * Z)) :
  is_cycle vs P → length P = length vs ∧ 0 < length P.
Proof.
  intros (_ & Hne & Hperm). apply Permutation_length in Hperm.
  rewrite !length_fmap, length_cycle_edges in Hperm.
  split; [done|]. rewrite Hperm. destruct vs; [done|simpl; lia].
Qed.

Lemma path_edges_reverse ws :
  undir <$> path_edges (reverse ws) ≡ₚ undir <$> path_edges ws.
Proof.
  induction ws as [|x [|y ws] IH]; [done|done|].
  rewrite (reverse_cons (y :: ws)), (reverse_cons ws) in *.
  rewrite path_edges_snoc, fmap_app, IH. simpl.
  rewrite <- Permutation_cons_append.
  by rewrite <- (undir_flip (x, y)).
Qed.

(** Removing one edge from a cycle leaves a simple path between its
    two endpoints. *)
Lemma cycle_open vs e :
  e ∈ cycle_edges vs →
  ∃ ws, ws ≡ₚ vs ∧ head ws = Some e.2 ∧ last ws = Some e.1 ∧
        cycle_edges vs ≡ₚ e :: path_edges ws.
Proof.
  destruct vs as [|v0 vs']; [intros []%elem_of_nil|].
  unfold cycle_edges. remember (v0 :: vs') as vs eqn:Evs.
  intros He. destruct (path_edges_split _ _ He) as (l1 & l2 & Hsplit).
  destruct e as [x y]. cbn [fst snd] in *. clear He.
  destruct (decide (l2 = [])) as [->|Hl2].
  - (* the closing edge *)
    change (l1 ++ [x; y]) with (l1 ++ [x] ++ [y]) in Hsplit.
    rewrite app_assoc in Hsplit.
    apply app_inj_tail in Hsplit as [Hvs ->].
    exists vs. split; [done|]. split; [by rewrite Evs|]. split.
    + rewrite Hvs. apply last_snoc.
    + rewrite Hvs, path_edges_snoc. by rewrite <- Permutation_cons_append.
  - destruct (exists_last Hl2) as (l2' & z & ->).
    change (l1 ++ x :: y :: l2' ++ [z]) with (l1 ++ [x; y] ++ l2' ++ [z]) in Hsplit.
    rewrite !app_assoc in Hsplit.
    apply app_inj_tail in Hsplit as [Hvs <-].
    rewrite <- !app_assoc in Hvs. cbn [app] in Hvs.
    assert (∃ t, l1 ++ [x] = v0 :: t) as [t Ht].
    { rewrite Evs in Hvs.
      destruct l1 as [|a l1]; simpl in *; injection Hvs as -> _; eauto. }
    exists ((y :: l2') ++ l1 ++ [x]). split; [|split; [done|split]].
    + rewrite Hvs. rewrite (Permutation_app_comm (y :: l2')).
      by rewrite <- app_assoc.
    + rewrite app_assoc. apply last_snoc.
    + assert (path_edges ((y :: l2') ++ l1 ++ [x])
              = path_edges ((y :: l2') ++ [v0]) ++ path_edges (l1 ++ [x])) as ->.
      { rewrite Ht. apply path_edges_app. }
      assert (path_edges (vs ++ [v0])
              = path_edges (l1 ++ [x]) ++ (x, y) :: path_edges ((y :: l2') ++ [v0]))
        as ->.
      { rewrite Hvs.
        replace ((l1 ++ x :: y :: l2') ++ [v0])
          with ((l1 ++ [x]) ++ y :: (l2' ++ [v0])) by (by rewrite <- !app_assoc).
        rewrite (path_edges_app (l1 ++ [x]) y), path_edges_snoc.
        by rewrite <- app_assoc. }
      rewrite <- Permutation_middle. apply perm_skip.
      apply Permutation_app_comm.
Qed.

Lemma degree_cons v p P :
  degree v (p :: P)
  = (if decide (p.1 = v) then 1 else 0) + (if decide (p.2 = v) then 1 else 0)
    + degree v P.
Proof.
  unfold degree. rewrite !filter_cons.
  destruct (decide (p.1 = v)), (decide (p.2 = v)); simpl; lia.
Qed.

Lemma degree_undir v (P : list (Z * Z)) : degree v (undir <$> P) = degree v P.
Proof.
  induction P as [|[a b] P IH]; [done|].
  rewrite fmap_cons, !degree_cons, IH. unfold undir, flip. simpl.
  repeat case_decide; simpl in *; lia.
Qed.

Lemma degree_perm v (P Q : list (Z * Z)) : P ≡ₚ Q → degree v P = degree v Q.
Proof. intros HPQ. unfold degree. by rewrite HPQ. Qed.

(** Along a vertex sequence every occurrence of [v] counts twice, but for
    the two ends of the sequence. *)
Lemma degree_path v ws :
  degree v (path_edges ws)
  + (if decide (head ws = Some v) then 1 else 0)
  + (if decide (last ws = Some v) then 1 else 0)
  = 2 * length (filter (λ w, w = v) ws).
Proof.
  induction ws as [|x [|y ws] IH].
  - done.
  - simpl. rewrite filter_cons, filter_nil.
    repeat case_decide; simplify_eq; simpl; lia.
  - change (path_edges (x :: y :: ws)) with ((x, y) :: path_edges (y :: ws)).
    rewrite degree_cons, last_cons_cons, (filter_cons _ x). simpl in *.
    repeat case_decide; simplify_eq; simpl in *; lia.
Qed.

Lemma count_NoDup v ws :
  NoDup ws → length (filter (λ w, w = v) ws) = if decide (v ∈ ws) then 1 else 0.
Proof.
  induction 1 as [|w ws Hw _ IH].
  { by rewrite decide_False by apply not_elem_of_nil. }
  rewrite filter_cons. destruct (decide (w = v)) as [->|Hwv]; simpl; rewrite IH.
  - rewrite decide_False by done. by rewrite decide_True by left.
  - destruct (decide (v ∈ ws)).
    + by rewrite decide_True by (by right).
    + rewrite decide_False; [done|]. intros [?|?]%elem_of_cons; by subst.
Qed.

(** In a simple cycle every vertex has degree 2, and no other id occurs. *)
Lemma is_cycle_degree vs (P : list (Z * Z)) v :
  is_cycle vs P → degree v P = if decide (v ∈ vs) then 2 else 0.
Proof.
  intros (Hnd & Hne & Hperm).
  rewrite <- degree_undir, (degree_perm _ _ _ Hperm), degree_undir.
  destruct vs as [|v0 vs']; [done|]. unfold cycle_edges.
  remember (v0 :: vs') as vs eqn:Evs.
  assert (head (vs ++ [v0]) = Some v0) as Hhd by (by subst).
  assert (v0 ∈ vs) as Hv0 by (subst; left).
  pose proof (degree_path v (vs ++ [v0])) as Hpath.
  rewrite Hhd, last_snoc, filter_app, length_app, (count_NoDup v vs Hnd) in Hpath.
  rewrite (filter_cons _ v0), filter_nil in Hpath. clear Hhd Evs.
  destruct (decide (v0 = v)) as [->|Hne0].
  - rewrite !decide_True in Hpath by done. rewrite decide_True by done.
    simpl in Hpath. lia.
  - rewrite (decide_False (P := Some v0 = Some v)) in Hpath by congruence.
    simpl in Hpath. destruct (decide (v ∈ vs)); lia.
Qed.

End paths.

(** ** The loop on a simple cycle *)
Section orient_valid.
Import Orient.
Implicit Types (s : state) (j k : nat).

Lemma Path_init vs P :
  is_cycle vs P → Path 1 (init P).
Proof.
  intros Hcyc. destruct (is_cycle_length _ _ Hcyc) as [_ HN].
  destruct Hcyc as (Hnd & Hne & Hperm). unfold Path, init. simpl.
  destruct P as [|r0 rest]; [simpl in HN; lia|].
  assert (undir r0 ∈ undir <$> cycle_edges vs) as Hin.
  { rewrite <- Hperm. simpl. left. }
  apply list_elem_of_fmap in Hin as (e & Heq & He).
  destruct (cycle_open vs e He) as (ws & Hws & Hhd & Hlast & Hcyc).
  assert (undir <$> rest ≡ₚ undir <$> path_edges ws) as Hrest.
  { rewrite Hcyc in Hperm. simpl in Hperm. rewrite Heq in Hperm.
    by apply Permutation_cons_inv in Hperm. }
  symmetry in Heq. apply undir_eq in Heq as [->| ->].
  - exists ws, e, e. simpl. rewrite drop_0.
    split; [done|]. split; [done|]. split; [by rewrite Hws|]. done.
  - exists (reverse ws), (flip e), (flip e). simpl. rewrite drop_0.
    split; [done|]. split; [done|]. split; [by rewrite reverse_Permutation, Hws|].
    rewrite head_reverse, last_reverse, path_edges_reverse. done.
Qed.

Lemma step_Path j s :
  1 ≤ j → j < length (point_pair_ids s) → Path j s →
  ∃ s', step j s = Ok s' ∧ Path (S j) s'.
Proof.
  intros Hj Hlt (ws & prev & first & Hprev & Hfirst & Hnd & Hhd & Hlast & Hpool).
  set (ppi := point_pair_ids s) in *.
  (* the path has a first edge (w0, w1) *)
  assert (0 < length (path_edges ws)) as Hlen.
  { apply Permutation_length in Hpool.
    rewrite !length_fmap, length_drop in Hpool. lia. }
  destruct ws as [|w0 [|w1 ws']]; simpl in Hlen; try lia. clear Hlen.
  change (path_edges (w0 :: w1 :: ws'))
    with ((w0, w1) :: path_edges (w1 :: ws')) in Hpool.
  rewrite fmap_cons in Hpool. simpl in Hhd. injection Hhd as Hw0.
  apply NoDup_cons in Hnd as [Hw0out Hnd].
  assert (w0 ≠ w1) as Hne by (intros ->; apply Hw0out; left).
  (* the only unplaced edge at [w0] is {w0, w1} *)
  assert (∀ r, r ∈ drop j ppi → r.1 = w0 ∨ r.2 = w0 →
               r = (w0, w1) ∨ r = (w1, w0)) as Hinc.
  { intros r Hr Hend.
    assert (undir r ∈ undir <$> drop j ppi) as Hu by (by apply list_elem_of_fmap_2).
    rewrite Hpool in Hu. apply elem_of_cons in Hu as [Heq|Hin].
    - symmetry in Heq. by apply undir_eq in Heq.
    - exfalso. apply Hw0out.
      apply list_elem_of_fmap in Hin as ([a b] & Heq & He).
      apply path_edges_elem in He as [Ha Hb].
      symmetry in Heq. apply undir_eq in Heq as [Heq|Heq];
        rewrite Heq in Hend; simpl in Hend; destruct Hend; by subst. }
  assert (∃ r, r ∈ drop j ppi ∧ (r = (w0, w1) ∨ r = (w1, w0))) as (r0 & Hr0 & Hr0eq).
  { assert (undir (w0, w1) ∈ undir <$> drop j ppi) as Hu by (rewrite Hpool; left).
    apply list_elem_of_fmap in Hu as (r & Heq & Hr).
    exists r. split; [done|]. by apply undir_eq in Heq. }
  rewrite step_eq. fold ppi.
  apply subscript_Ok in Hprev as Hsub. rewrite Hsub. simpl.
  rewrite <- Hw0.
  set (b := found j ppi w0).
  set (ppi1 := if b then ppi else Np.map_from flip j ppi).
  assert (undir <$> drop j ppi1
          ≡ₚ undir (w0, w1) :: (undir <$> path_edges (w1 :: ws'))) as Hpool1.
  { unfold ppi1. destruct b; [done|]. by rewrite map_from_drop, undir_fmap_flip. }
  assert (take j ppi1 = take j ppi) as Htake.
  { unfold ppi1. destruct b; [done|]. apply map_from_take. }
  assert (∃ k, candidates fst j ppi1 w0 !! 0 = Some k ∧
               ppi1 !! k = Some (w0, w1) ∧ j ≤ k) as (k & Hk & Hrk & Hjk).
  { unfold ppi1. destruct b eqn:Hb; unfold b, found in Hb.
    - apply bool_decide_eq_true in Hb.
      destruct (lookup_lt_is_Some_2 (candidates fst j ppi w0) 0) as [k Hk]; [lia|].
      exists k. split; [done|].
      apply candidates_head in Hk as (Hjk & (r & Hr & Hcol) & _).
      split; [|done]. rewrite Hr. f_equal.
      assert (r ∈ drop j ppi) as Hin.
      { apply list_elem_of_lookup. exists (k - j). rewrite lookup_drop.
        by replace (j + (k - j)) with k by lia. }
      destruct (Hinc r Hin (or_introl Hcol)) as [->| ->]; [done|].
      simpl in Hcol. congruence.
    - apply bool_decide_eq_false in Hb.
      assert (length (candidates fst j ppi w0) = 0) as Hemp by lia.
      pose proof (proj1 (candidates_empty _ _ _ _) Hemp) as Hno.
      assert ((w1, w0) ∈ drop j ppi) as Hin.
      { destruct Hr0eq as [->| ->]; [|done]. by destruct (Hno _ Hr0). }
      destruct (candidates_nonempty fst j (Np.map_from flip j ppi) w0 (w0, w1))
        as [k Hk]; [|done|].
      { rewrite map_from_drop. by apply (list_elem_of_fmap_2 flip) in Hin. }
      exists k. split; [done|].
      apply candidates_head in Hk as (Hjk & (r & Hr & Hcol) & _).
      split; [|done]. rewrite Hr. f_equal.
      assert (r ∈ flip <$> drop j ppi) as Hrin.
      { rewrite <- map_from_drop. apply list_elem_of_lookup. exists (k - j).
        rewrite lookup_drop. by replace (j + (k - j)) with k by lia. }
      apply list_elem_of_fmap in Hrin as (r' & -> & Hr').
      destruct r' as [a c]. simpl in Hcol. subst c.
      destruct (Hinc _ Hr' (or_intror eq_refl)) as [[= -> ->]|[= ->]]; [done|done]. }
  apply subscript_Ok in Hk as Hsubk. rewrite Hsubk. simpl.
  eexists. split; [reflexivity|].
  destruct (swap_pool j k ppi1 (w0, w1) Hjk Hrk) as (pool & Hdrop & Hperm).
  exists (w1 :: ws'), (w0, w1), first. cbn [point_pair_ids head fst snd].
  replace (S j - 1) with j by lia.
  split; [|split; [|split; [done|split; [done|split]]]].
  - replace (Np.swap j k ppi1 !! j) with (drop j (Np.swap j k ppi1) !! 0)
      by (rewrite lookup_drop; f_equal; lia).
    by rewrite Hdrop.
  - rewrite <- (lookup_take_lt _ j) by lia.
    rewrite swap_take, Htake by done. by rewrite lookup_take_lt by lia.
  - by rewrite last_cons_cons in Hlast.
  - assert (drop (S j) (Np.swap j k ppi1) = pool) as ->.
    { replace (S j) with (j + 1) by lia. rewrite <- drop_drop, Hdrop. done. }
    apply (Permutation_cons_inv (a := undir (w0, w1))).
    rewrite <- Hpool1, <- Hperm. done.
Qed.

Lemma loop_Path P n j s :
  1 ≤ j → j + n = length P → Inv P j s → Path j s →
  ∃ s', loop (seq j n) s = Ok s' ∧ Inv P (length P) s' ∧ Path (length P) s'.
Proof.
  revert j s. induction n as [|n IH]; intros j s Hj Hn HI HP; simpl.
  - replace (length P) with j by lia. eauto.
  - destruct (step_Path j s) as (s1 & Hstep & HP1); [done| |done|].
    { rewrite (inv_len_ppi P j s HI). lia. }
    rewrite Hstep. simpl. apply (IH (S j)); [lia|lia| |done].
    by apply (step_Inv P j s).
Qed.

(** On a simple cycle the loop runs to its end and the last placed row
    leads back to the first. *)
Lemma run_cycle vs P :
  is_cycle vs P →
  ∃ s, run P = Ok s ∧ Inv P (length P) s ∧
       ∀ first lst, point_pair_ids s !! 0 = Some first →
                    point_pair_ids s !! (length P - 1) = Some lst →
                    lst.2 = first.1.
Proof.
  intros Hcyc. unfold run.
  destruct (is_cycle_length _ _ Hcyc) as [_ HN].
  destruct (loop_Path P (length P - 1) 1 (init P)) as (s & Hloop & HI & HP);
    [done|lia|apply Inv_init|by apply (Path_init vs)|].
  exists s. split; [done|]. split; [done|].
  intros first lst Hfirst Hlst.
  destruct HP as (ws & prev & first' & Hprev & Hfirst' & Hnd & Hhd & Hlast & Hpool).
  rewrite drop_ge in Hpool by (rewrite (inv_len_ppi P _ s HI); lia).
  simpl in Hpool. symmetry in Hpool. apply Permutation_nil_r in Hpool.
  apply fmap_nil_inv, path_edges_nil in Hpool.
  destruct ws as [|w [|w' ws]]; simpl in *; try done; try lia.
  congruence.
Qed.

End orient_valid.

(** ** Comprehensions over index lists *)
Lemma mapM_Ok {A B} (f : A → result B) (l : list A) (k : list B) :
    mapM f l = Ok k ↔ Forall2 (λ x y, f x = Ok y) l k.
  Proof.
    revert k. induction l as [|x l IH]; intros k; simpl.
    - split; [intros [= <-]; constructor|]. by intros ->%Forall2_nil_inv_l.
    - split.
      + intros (y & Hy & (k' & Hk' & [= <-])%bind_Ok)%bind_Ok.
        constructor; [done|]. by apply IH.
      + intros (y & k' & Hy & Hk' & ->)%Forall2_cons_inv_l.
        rewrite Hy. simpl. apply IH in Hk'. by rewrite Hk'.
  Qed.

Section comprehensions.
Context {A B : Type}.
Implicit Types (xs : list A) (idx : list nat).

Lemma mapM_seq_Ok (f : nat → result B) (ys : list B) :
  (∀ i y, ys !! i = Some y → f i = Ok y) →
  mapM f (seq 0 (length ys)) = Ok ys.
Proof.
  intros Hf. apply mapM_Ok.
  apply Forall2_same_length_lookup. split; [by rewrite length_seq|].
  intros i j y Hj Hy. apply lookup_seq in Hj as [-> _]. by apply Hf.
Qed.

Lemma mapM_subscript_total xs idx :
  Forall (λ i, i < length xs) idx →
  ∃ ys, mapM (subscript xs) idx = Ok ys.
Proof.
  induction 1 as [|i idx Hi _ [ys IH]]; simpl; [by eexists|].
  destruct (lookup_lt_is_Some_2 xs i Hi) as [x Hx].
  apply subscript_Ok in Hx. rewrite Hx, IH. simpl. by eexists.
Qed.

Lemma mapM_subscript_omap xs idx ys :
  mapM (subscript xs) idx = Ok ys → ys = omap (xs !!.) idx.
Proof.
  rewrite mapM_Ok. induction 1 as [|i y idx ys Hy _ IH]; [done|].
  apply subscript_Ok in Hy. simpl. by rewrite Hy, IH.
Qed.

Lemma omap_lookup_seq xs : omap (xs !!.) (seq 0 (length xs)) = xs.
Proof.
  induction xs as [|x xs IH] using rev_ind; [done|].
  rewrite length_app. simpl. rewrite Nat.add_1_r, seq_S, omap_app. simpl.
  rewrite list_lookup_middle by done. simpl. f_equal.
  rewrite <- IH at 2. apply list_omap_ext, Forall2_same_length_lookup.
  split; [done|]. intros i a b Ha Hb.
  assert (a = b) as -> by congruence.
  apply lookup_seq in Hb as [-> Hlt]. by apply lookup_app_l.
Qed.

(** Indexing by a permutation of the positions permutes the list. *)
Lemma mapM_subscript_perm xs idx ys :
  idx ≡ₚ seq 0 (length xs) → mapM (subscript xs) idx = Ok ys → ys ≡ₚ xs.
Proof.
  intros Hperm ->%mapM_subscript_omap.
  by rewrite Hperm, omap_lookup_seq.
Qed.

End comprehensions.

(** ** From the final arrays to the returned list *)
Section orient_output.
Import Orient.
Implicit Types (lines out perm : list Line) (s : state).

Lemma run_Inv P s : run P = Ok s → Inv P (1 + (length P - 1)) s.
Proof. intros Hrun. by apply (loop_Inv P _ 1 (init P)); [|apply Inv_init|]. Qed.

Lemma points_signed b l : points (signed b l) = points l.
Proof. by destruct b. Qed.

Lemma sign_signed b l : sign (signed b l) = if b then sign l else negb (sign l).
Proof. by destruct b. Qed.

(** The list that [orient_lines] builds from the final arrays. *)
Lemma orient_lines_of_run lines s :
  run (points <$> lines) = Ok s →
  ∃ perm, mapM (subscript lines) (order s) = Ok perm ∧ perm ≡ₚ lines ∧
          orient_lines lines = Ok (zip_with signed (oriented s) perm).
Proof.
  intros Hrun. pose proof (run_Inv _ _ Hrun) as HI.
  destruct HI as [_ Hlo Hlb Hperm _ _ _ _]. rewrite length_fmap in *.
  destruct (mapM_subscript_total lines (order s)) as [perm Hmap].
  { apply Forall_forall. intros o Ho. rewrite Hperm in Ho.
    apply elem_of_seq in Ho. lia. }
  exists perm. split; [done|].
  assert (perm ≡ₚ lines) as Hpl by (by apply (mapM_subscript_perm lines (order s))).
  split; [done|].
  unfold orient_lines. rewrite Hrun. simpl. rewrite Hmap. simpl.
  assert (length (oriented s) = length (zip_with signed (oriented s) perm)) as ->.
  { rewrite length_zip_with_l_eq; [done|]. rewrite Hlb. by rewrite Hpl. }
  apply mapM_seq_Ok. intros i y (b & l & -> & Hb & Hl)%lookup_zip_with_Some.
  apply subscript_Ok in Hb, Hl. by rewrite Hl, Hb.
Qed.

Lemma orient_lines_Ok lines out :
  orient_lines lines = Ok out →
  ∃ s perm, run (points <$> lines) = Ok s ∧
            mapM (subscript lines) (order s) = Ok perm ∧ perm ≡ₚ lines ∧
            out = zip_with signed (oriented s) perm.
Proof.
  intros Hout. pose proof Hout as (s & Hrun & _)%bind_Ok.
  destruct (orient_lines_of_run lines s Hrun) as (perm & Hmap & Hperm & Heq).
  exists s, perm. repeat split; try done. congruence.
Qed.

(** Row [i] of the final id array is the stored pair of output segment
    [i], flipped when the segment was negated. *)
Lemma output_row lines s perm j i l :
  Inv (points <$> lines) j s →
  mapM (subscript lines) (order s) = Ok perm →
  zip_with signed (oriented s) perm !! i = Some l →
  ∃ b l0, oriented s !! i = Some b ∧ l0 ∈ lines ∧ l = signed b l0 ∧
          point_pair_ids s !! i = Some (dir b (points l0)).
Proof.
  intros HI Hmap (b & l0 & -> & Hb & Hl0)%lookup_zip_with_Some.
  apply mapM_Ok in Hmap.
  destruct (Forall2_lookup_r _ _ _ _ _ Hmap Hl0) as (o & Ho & Hsub).
  apply subscript_Ok in Hsub.
  exists b, l0. split; [done|]. split; [by eapply list_elem_of_lookup_2|].
  split; [done|].
  rewrite (inv_rows _ _ _ HI i o b Ho Hb), list_lookup_fmap, Hsub. done.
Qed.

Lemma edges_signed flips perm :
  length flips = length perm → edges (zip_with signed flips perm) = edges perm.
Proof.
  revert perm. induction flips as [|b flips IH]; intros [|l perm]; simpl; try done.
  intros [= Hlen]. unfold edges in *. simpl. rewrite points_signed.
  f_equal. by apply IH.
Qed.

End orient_output.

(** ** Running the loop again on rows that are already in chain order *)
Section orient_replay.
Import Orient.
Variable P : list (Z * Z).
Variable sF : state.
Local Abbreviation N := (length P).
Implicit Types (s : state) (j k : nat).

Hypothesis HF : ∃ jF, Inv P jF sF.

Lemma length_reordered : length (reordered P sF) = N.
Proof.
  destruct HF as [jF HI]. unfold reordered.
  by rewrite length_fmap, (inv_len_order P jF sF HI).
Qed.

Lemma found_spec j ppi out :
  found j ppi out = true ↔ ∃ r, r ∈ drop j ppi ∧ r.1 = out.
Proof.
  unfold found. rewrite bool_decide_eq_true. split.
  - intros Hne.
    destruct (lookup_lt_is_Some_2 (candidates fst j ppi out) 0) as [k Hk]; [lia|].
    apply candidates_head in Hk as (Hjk & (r & Hr & Hcol) & _).
    exists r. split; [|done]. apply list_elem_of_lookup. exists (k - j).
    rewrite lookup_drop. by replace (j + (k - j)) with k by lia.
  - intros (r & Hr & Hcol) Hemp.
    by apply (proj1 (candidates_empty _ _ _ _) Hemp r).
Qed.

Lemma found_perm j ppi ppi' out :
  drop j ppi ≡ₚ drop j ppi' → found j ppi out = found j ppi' out.
Proof.
  intros Hperm. apply eq_true_iff_eq. rewrite !found_spec.
  by setoid_rewrite Hperm.
Qed.

(** The unplaced rows are the input rows that the unplaced part of
    [order] names, all in one direction. *)
Lemma pool_rows j s b :
  Inv P j s → (∀ i, j ≤ i → i < N → oriented s !! i = Some b) →
  drop j (point_pair_ids s) = (λ o, dir b (P !!! o)) <$> drop j (order s).
Proof.
  intros HI Hb. apply list_eq. intros i.
  rewrite list_lookup_fmap, !lookup_drop.
  destruct (order s !! (j + i)) as [o|] eqn:Ho; simpl.
  - assert (j + i < N) as Hlt.
    { apply lookup_lt_Some in Ho. by rewrite (inv_len_order P j s HI) in Ho. }
    rewrite (inv_rows P j s HI (j + i) o b Ho) by (apply Hb; lia).
    assert (o < N) as Ho'.
    { apply list_elem_of_lookup_2 in Ho. rewrite (inv_perm P j s HI) in Ho.
      apply elem_of_seq in Ho. lia. }
    by rewrite (list_lookup_lookup_total_lt P o Ho').
  - apply lookup_ge_None in Ho. apply lookup_ge_None.
    rewrite (inv_len_ppi P j s HI). by rewrite (inv_len_order P j s HI) in Ho.
Qed.

Lemma replay_pool j ori b :
  length ori = N → (∀ i, j ≤ i → i < N → ori !! i = Some b) →
  drop j (point_pair_ids (replay P sF ori)) = (λ o, dir b (P !!! o)) <$> drop j (order sF).
Proof.
  intros Hlen Hb. apply list_eq. intros i. simpl.
  rewrite list_lookup_fmap, !lookup_drop, lookup_zip_with.
  unfold reordered. rewrite list_lookup_fmap.
  destruct (order sF !! (j + i)) as [o|] eqn:Ho; simpl.
  - assert (j + i < N) as Hlt.
    { apply lookup_lt_Some in Ho. destruct HF as [jF HI].
      by rewrite (inv_len_order P jF sF HI) in Ho. }
    by rewrite Hb by lia.
  - by destruct (ori !! (j + i)).
Qed.

Lemma replay_row ori i o b :
  order sF !! i = Some o → ori !! i = Some b →
  point_pair_ids (replay P sF ori) !! i = Some (dir b (P !!! o)).
Proof.
  intros Ho Hb. simpl. rewrite lookup_zip_with, Hb. simpl.
  unfold reordered. by rewrite list_lookup_fmap, Ho.
Qed.

Lemma replay_flip j ori :
  Np.map_from flip j (point_pair_ids (replay P sF ori))
  = point_pair_ids (replay P sF (Np.map_from negb j ori)).
Proof.
  apply list_eq. intros i. simpl.
  rewrite map_from_lookup, !lookup_zip_with, map_from_lookup.
  destruct (decide (i < j)); [done|].
  destruct (ori !! i) as [b|]; simpl; [|done].
  destruct ((reordered P sF) !! i) as [p|]; simpl; [|done].
  by rewrite dir_negb.
Qed.

(** One iteration of the first run is mirrored by an iteration of the
    second run that finds its row already in place. *)
Lemma step_replay j s s1 :
  1 ≤ j → Inv P j s → step j s = Ok s1 →
  take j (order s) = take j (order sF) →
  take (S j) (order s1) = take (S j) (order sF) →
  step j (replay P sF (oriented s)) = Ok (replay P sF (oriented s1)).
Proof.
  intros Hj HI Hstep Htk Htk1.
  pose proof (step_Inv P j s s1 Hj HI Hstep) as HI1.
  destruct HF as [jF HIF].
  pose proof Hstep as (prev & k & r & Hprev & Hjk & Hk & Hcol & _ & Hs1)%step_Ok.
  set (b := found j (point_pair_ids s) prev.2) in *.
  assert (k < N) as HkN.
  { apply lookup_lt_Some in Hk. destruct b; [|rewrite length_map_from in Hk];
      by rewrite (inv_len_ppi P j s HI) in Hk. }
  destruct (inv_uniform P j s HI) as [b0 Hb0].
  (* the row before [j] *)
  assert (point_pair_ids (replay P sF (oriented s)) !! (j - 1) = Some prev) as Hprev'.
  { destruct (lookup_lt_is_Some_2 (order s) (j - 1)) as [o Ho];
      [rewrite (inv_len_order P j s HI); lia|].
    destruct (lookup_lt_is_Some_2 (oriented s) (j - 1)) as [c Hc];
      [rewrite (inv_len_ori P j s HI); lia|].
    assert (order sF !! (j - 1) = Some o) as HoF.
    { rewrite <- (lookup_take_lt _ j) by lia. rewrite <- Htk.
      by rewrite lookup_take_lt by lia. }
    rewrite (replay_row _ _ o c HoF Hc).
    rewrite (inv_rows P j s HI _ o c Ho Hc) in Hprev.
    assert (o < N) as Ho'.
    { apply list_elem_of_lookup_2 in Ho. rewrite (inv_perm P j s HI) in Ho.
      apply elem_of_seq in Ho. lia. }
    by rewrite (list_lookup_lookup_total_lt P o Ho') in Hprev. }
  (* the same search result *)
  assert (found j (point_pair_ids (replay P sF (oriented s))) prev.2 = b) as Hfound.
  { apply found_perm.
    rewrite (replay_pool j _ b0) by (by rewrite ?(inv_len_ori P j s HI)).
    rewrite (pool_rows j s b0 HI Hb0). apply fmap_Permutation.
    apply (Permutation_app_inv_l (take j (order s))).
    rewrite take_drop. rewrite Htk, take_drop.
    by rewrite (inv_perm P j s HI), (inv_perm P jF sF HIF). }
  (* the row at [j] of the second run is the row that the first run chose *)
  assert (oriented s1 = if b then oriented s else Np.map_from negb j (oriented s))
    as Hori1 by (by rewrite Hs1).
  assert (point_pair_ids (replay P sF (oriented s1)) !! j = Some r) as Hrow.
  { destruct (lookup_lt_is_Some_2 (order s1) j) as [o Ho];
      [rewrite (inv_len_order P _ s1 HI1); lia|].
    destruct (lookup_lt_is_Some_2 (oriented s1) j) as [c Hc];
      [rewrite (inv_len_ori P _ s1 HI1); lia|].
    assert (order sF !! j = Some o) as HoF.
    { rewrite <- (lookup_take_lt _ (S j)) by lia. rewrite <- Htk1.
      by rewrite lookup_take_lt by lia. }
    rewrite (replay_row _ _ o c HoF Hc).
    pose proof (inv_rows P _ s1 HI1 _ o c Ho Hc) as Hr1.
    assert (point_pair_ids s1 !! j = Some r) as Hr.
    { rewrite Hs1. simpl. rewrite swap_lookup.
      - by repeat case_decide; subst.
      - apply lookup_lt_Some in Hk. lia.
      - by apply lookup_lt_Some in Hk. }
    assert (o < N) as Ho'.
    { apply list_elem_of_lookup_2 in Ho. rewrite (inv_perm P _ s1 HI1) in Ho.
      apply elem_of_seq in Ho. lia. }
    rewrite (list_lookup_lookup_total_lt P o Ho') in Hr1. simpl in Hr1.
    by rewrite <- Hr, Hr1. }
  rewrite step_eq. apply subscript_Ok in Hprev'. rewrite Hprev'. simpl.
  simpl in Hfound. rewrite Hfound.
  assert ((if b then zip_with dir (oriented s) (reordered P sF)
           else Np.map_from flip j (zip_with dir (oriented s) (reordered P sF)))
          = point_pair_ids (replay P sF (oriented s1))) as ->.
  { rewrite Hori1. destruct b; [done|]. apply (replay_flip j (oriented s)). }
  assert (candidates fst j (point_pair_ids (replay P sF (oriented s1))) prev.2 !! 0
          = Some j) as Hcand.
  { apply candidates_head. split; [done|]. split; [by exists r|]. intros; lia. }
  apply subscript_Ok in Hcand. rewrite Hcand. simpl.
  rewrite !swap_same. by rewrite <- Hori1.
Qed.

Lemma loop_replay n j s :
  1 ≤ j → Inv P j s → loop (seq j n) s = Ok sF →
  loop (seq j n) (replay P sF (oriented s)) = Ok (replay P sF (oriented sF)).
Proof.
  revert j s. induction n as [|n IH]; intros j s Hj HI; simpl.
  - by intros [= <-].
  - intros Hloop. pose proof Hloop as (s1 & Hstep & Hrest)%bind_Ok.
    destruct (loop_take (S n) j s sF Hloop) as (_ & Htk & _).
    destruct (loop_take n (S j) s1 sF Hrest) as (_ & Htk1 & _).
    rewrite (step_replay j s s1) by done. simpl.
    apply IH; [lia| |done]. by apply (step_Inv P j s).
Qed.

End orient_replay.

Section orient_again.
Import Orient.

(** On its own output order the loop keeps every row where it is and
    takes the same flip decisions. *)
Lemma run_replay P sF :
  run P = Ok sF →
  run (reordered P sF) = Ok (St (point_pair_ids sF) (seq 0 (length P)) (oriented sF)).
Proof.
  intros Hrun. pose proof (run_Inv P sF Hrun) as HI.
  assert (∃ jF, Inv P jF sF) as HF by eauto.
  unfold run. rewrite (length_reordered P sF HF).
  assert (init (reordered P sF) = replay P sF (oriented (init P))) as ->.
  { unfold init, replay. rewrite (length_reordered P sF HF). simpl. f_equal.
    apply list_eq. intros i. rewrite lookup_zip_with.
    destruct (reordered P sF !! i) as [p|] eqn:Hp.
    - apply lookup_lt_Some in Hp as Hlt. rewrite (length_reordered P sF HF) in Hlt.
      by rewrite lookup_replicate_2.
    - by destruct (replicate _ _ !! i). }
  rewrite (loop_replay P sF HF _ 1 (init P)); [|done|apply Inv_init|done].
  f_equal. unfold replay. f_equal.
  apply list_eq. intros i. rewrite lookup_zip_with. unfold reordered.
  rewrite list_lookup_fmap.
  destruct (order sF !! i) as [o|] eqn:Ho.
  - destruct (lookup_lt_is_Some_2 (oriented sF) i) as [c Hc].
    { apply lookup_lt_Some in Ho.
      by rewrite (inv_len_ori P _ sF HI), <- (inv_len_order P _ sF HI). }
    rewrite Hc. simpl. rewrite (inv_rows P _ sF HI i o c Ho Hc).
    assert (o < length P) as Ho'.
    { apply list_elem_of_lookup_2 in Ho. rewrite (inv_perm P _ sF HI) in Ho.
      apply elem_of_seq in Ho. lia. }
    by rewrite (list_lookup_lookup_total_lt P o Ho').
  - apply lookup_ge_None in Ho. rewrite (inv_len_order P _ sF HI) in Ho.
    rewrite (lookup_ge_None_2 (point_pair_ids sF)); [by destruct (_ !! i)|].
    by rewrite (inv_len_ppi P _ sF HI).
Qed.

Lemma points_output lines s perm :
  run (points <$> lines) = Ok s →
  mapM (subscript lines) (order s) = Ok perm →
  points <$> zip_with signed (oriented s) perm = reordered (points <$> lines) s.
Proof.
  intros Hrun Hmap. pose proof (run_Inv _ _ Hrun) as HI.
  apply mapM_Ok in Hmap. unfold reordered.
  apply list_eq. intros i. rewrite !list_lookup_fmap, lookup_zip_with.
  destruct (order s !! i) as [o|] eqn:Ho.
  - destruct (Forall2_lookup_l _ _ _ _ _ Hmap Ho) as (l & Hl & Hsub).
    apply subscript_Ok in Hsub.
    destruct (lookup_lt_is_Some_2 (oriented s) i) as [c Hc].
    { apply lookup_lt_Some in Ho.
      by rewrite (inv_len_ori _ _ s HI), <- (inv_len_order _ _ s HI). }
    rewrite Hc, Hl. simpl. rewrite points_signed. f_equal.
    symmetry. apply list_lookup_total_correct.
    by rewrite list_lookup_fmap, Hsub.
  - apply lookup_ge_None in Ho. rewrite (Forall2_length _ _ _ Hmap) in Ho.
    rewrite (lookup_ge_None_2 perm) by done. by destruct (_ !! i).
Qed.

(** Applied to its own output, [orient_lines] keeps the order and
    negates again exactly the segments that it negated the first time. *)
Lemma orient_lines_again lines out :
  orient_lines lines = Ok out →
  ∃ s, run (points <$> lines) = Ok s ∧ length (oriented s) = length out ∧
       orient_lines out = Ok (zip_with signed (oriented s) out).
Proof.
  intros (s & perm & Hrun & Hmap & Hperm & ->)%orient_lines_Ok.
  pose proof (run_Inv _ _ Hrun) as HI.
  pose proof (inv_len_ori _ _ _ HI) as Hlb. rewrite length_fmap in Hlb.
  exists s. split; [done|].
  assert (length (zip_with signed (oriented s) perm) = length lines) as Hlen.
  { rewrite length_zip_with_l_eq; [done|]. by rewrite Hlb, Hperm. }
  split; [by rewrite Hlen|].
  pose proof (run_replay _ _ Hrun) as Hrun2.
  rewrite <- (points_output lines s perm Hrun Hmap) in Hrun2.
  destruct (orient_lines_of_run _ _ Hrun2) as (perm2 & Hmap2 & _ & ->).
  simpl in *. rewrite length_fmap, <- Hlen in Hmap2.
  apply mapM_subscript_omap in Hmap2. rewrite omap_lookup_seq in Hmap2.
  by subst.
Qed.

End orient_again.

(** ** Statements about [orient_lines] *)

Section orient_claims.
Import Orient.
Implicit Types (lines perm : list Line) (s : state).

Lemma effective_signed b l :
  sign l = true → effective (signed b l) = dir b (points l).
Proof. intros Hs. destruct l as [p sg]. simpl in Hs. subst. by destruct b. Qed.

Lemma signed_id b l : signed b l = l ↔ b = true.
Proof.
  destruct b; simpl; [done|]. split; [|done].
  destruct l as [p []]; unfold neg; simpl; intros [=].
Qed.

Lemma zip_with_signed_id flips (out : list Line) :
  length flips = length out →
  zip_with signed flips out = out ↔ Forall (λ b, b = true) flips.
Proof.
  revert out. induction flips as [|b flips IH]; intros [|l out]; simpl; try done.
  intros [= Hlen]. rewrite Forall_cons, <- (IH out Hlen), <- (signed_id b l).
  split; [by intros [= -> ->]|by intros [-> ->]].
Qed.

Lemma loop_app l1 l2 s : loop (l1 ++ l2) s = loop l1 s ≫= loop l2.
Proof.
  revert s. induction l1 as [|j l1 IH]; intros s; simpl; [done|].
  destruct (step j s) as [s1|e]; simpl; [apply IH|done].
Qed.

Lemma candidates_no_match col j ppi out :
  length (candidates col j ppi out) = 0 ↔ no_match col j ppi out.
Proof.
  rewrite candidates_empty. unfold no_match. split.
  - intros Hno i r Hi Hr. apply Hno, list_elem_of_lookup. exists (i - j).
    rewrite lookup_drop. by replace (j + (i - j)) with i by lia.
  - intros Hno r (i & Hi)%list_elem_of_lookup. rewrite lookup_drop in Hi.
    apply (Hno (j + i) r); [lia|done].
Qed.

(** Which position an iteration swaps into place. *)
Lemma step_choice j s s' :
  step j s = Ok s' →
  ∃ prev k,
    point_pair_ids s !! (j - 1) = Some prev ∧
    (lowest_match fst j (point_pair_ids s) prev.2 k ∨
     (no_match fst j (point_pair_ids s) prev.2 ∧
      lowest_match snd j (point_pair_ids s) prev.2 k)) ∧
    order s' = Np.swap j k (order s).
Proof.
  unfold step. intros (prev & Hprev%subscript_Ok & Hrest)%bind_Ok.
  exists prev.
  destruct (decide (length (candidates fst j (point_pair_ids s) prev.2) = 0))
    as [Hemp|Hne].
  - apply bind_Ok in Hrest as (k & Hk%subscript_Ok & [= <-]).
    exists k. split; [done|]. split; [|done]. right.
    split; [by apply candidates_no_match|by apply candidates_head].
  - apply bind_Ok in Hrest as (k & Hk%subscript_Ok & [= <-]).
    exists k. split; [done|]. split; [|done]. left. by apply candidates_head.
Qed.

(** An iteration that finds no candidate in either column raises. *)
Lemma step_stuck j s prev :
  point_pair_ids s !! (j - 1) = Some prev →
  no_match fst j (point_pair_ids s) prev.2 →
  no_match snd j (point_pair_ids s) prev.2 →
  step j s = Raise IndexError.
Proof.
  intros Hprev%subscript_Ok Hfst%candidates_no_match Hsnd%candidates_no_match.
  unfold step. rewrite Hprev. simpl.
  rewrite decide_True by done.
  apply length_zero_iff_nil in Hsnd. by rewrite Hsnd.
Qed.

End orient_claims.

Section orient_theorems.
Import Orient.
Implicit Types (lines : list Line) (vs : list Z).

(** C1 (as amended).  For every input of sign +1 segments whose endpoint
    ids, integers of the int64 range, form one simple cycle,
    [orient_lines] returns a permutation of the input, each segment
    possibly negated, in which every segment's effective head is the
    effective tail of the next one (cyclically), and the multiset of
    undirected edges is that of the input. *)
Theorem orient_lines_closes_loop lines vs :
  is_cycle vs (points <$> lines) →
  int64_ids (points <$> lines) →
  Forall (λ l, sign l = true) lines →
  ∃ out perm flips,
    orient_lines lines = Ok out ∧
    perm ≡ₚ lines ∧ length flips = length perm ∧
    out = zip_with signed flips perm ∧
    closes out ∧ edges out ≡ₚ edges lines.
Proof.
  intros Hcyc _ Hsign.
  destruct (is_cycle_length _ _ Hcyc) as [_ HN]. rewrite length_fmap in HN.
  destruct (run_cycle vs _ Hcyc) as (s & Hrun & HI & Hwrap).
  destruct (orient_lines_of_run lines s Hrun) as (perm & Hmap & Hperm & Hout).
  pose proof (inv_len_ori _ _ _ HI) as Hlb. rewrite length_fmap in Hlb.
  assert (length (oriented s) = length perm) as Hlen by (by rewrite Hlb, Hperm).
  exists (zip_with signed (oriented s) perm), perm, (oriented s).
  split; [done|]. split; [done|]. split; [done|]. split; [done|]. split.
  - intros i l l' Hl Hl'.
    rewrite length_zip_with_l_eq, Hlb in Hl' by done.
    assert (i < length lines) as Hi.
    { apply lookup_lt_Some in Hl. by rewrite length_zip_with_l_eq, Hlb in Hl. }
    destruct (output_row lines s perm _ _ _ HI Hmap Hl)
      as (b & l0 & Hb & Hl0 & -> & Hrow).
    destruct (output_row lines s perm _ _ _ HI Hmap Hl')
      as (b' & l0' & Hb' & Hl0' & -> & Hrow').
    rewrite Forall_forall in Hsign.
    unfold eff_head, eff_tail. rewrite !effective_signed by auto.
    rewrite length_fmap in Hwrap.
    destruct (decide (i + 1 < length lines)) as [Hlt|Hge].
    + rewrite Nat.mod_small in Hrow' by done.
      replace (i + 1) with (S i) in * by lia.
      apply (inv_chain _ _ _ HI i _ _); [rewrite length_fmap; lia|done|done].
    + assert (i + 1 = length lines) as Heq by lia.
      rewrite Heq, Nat.Div0.mod_same in Hrow'.
      replace i with (length lines - 1) in Hrow by lia.
      by apply Hwrap.
  - rewrite edges_signed by done. unfold edges. by rewrite Hperm.
Qed.

Lemma orient_lines_closes_loop_witness :
  let lines := [mkLine (0, 1)%Z true; mkLine (2, 1)%Z true; mkLine (0, 2)%Z true] in
  ∃ out perm flips,
    orient_lines lines = Ok out ∧
    perm ≡ₚ lines ∧ length flips = length perm ∧
    out = zip_with signed flips perm ∧
    closes out ∧ edges out ≡ₚ edges lines.
Proof.
  apply (orient_lines_closes_loop _ [0; 1; 2]%Z).
  - apply (bool_decide_unpack _). vm_compute. exact I.
  - apply (bool_decide_unpack _). vm_compute. exact I.
  - apply (bool_decide_unpack _). vm_compute. exact I.
Defined.

(** C1 as stated fails on an input that carries a negated segment: the
    stored pairs are already chained, the list is returned as it is, and
    the first segment, of sign −1, runs against the chain. *)
Lemma orient_lines_ignores_input_sign :
  let lines := [mkLine (0, 1)%Z false; mkLine (1, 2)%Z true; mkLine (2, 0)%Z true] in
  is_cycle [0; 1; 2]%Z (points <$> lines) ∧
  ¬ ∃ out, orient_lines lines = Ok out ∧ closes out.
Proof.
  split.
  - apply (bool_decide_unpack _). vm_compute. exact I.
  - intros (out & Hout & Hcl). vm_compute in Hout. injection Hout as <-.
    specialize (Hcl 0 _ _ eq_refl eq_refl). vm_compute in Hcl. discriminate.
Qed.

(** C2 (as amended).  On ids of the int64 range: when the loop reaches
    an iteration [j] at which no unplaced row holds the required id,
    neither as stored tail nor as stored head, [orient_lines] fails
    there with [IndexError] and returns no list. *)
Theorem orient_lines_stuck lines j s prev :
  int64_ids (points <$> lines) →
  1 ≤ j < length lines →
  loop (seq 1 (j - 1)) (init (points <$> lines)) = Ok s →
  point_pair_ids s !! (j - 1) = Some prev →
  no_match fst j (point_pair_ids s) prev.2 →
  no_match snd j (point_pair_ids s) prev.2 →
  orient_lines lines = Raise IndexError.
Proof.
  intros _ Hj Hloop Hprev Hfst Hsnd.
  unfold orient_lines, run. rewrite length_fmap.
  replace (seq 1 (length lines - 1))
    with (seq 1 (j - 1) ++ j :: seq (S j) (length lines - 1 - j)).
  - rewrite loop_app, Hloop. simpl.
    by rewrite (step_stuck j s prev).
  - replace (length lines - 1) with ((j - 1) + S (length lines - 1 - j)) at 2 by lia.
    rewrite seq_app. f_equal. by replace (1 + (j - 1)) with j by lia.
Qed.

Lemma orient_lines_stuck_witness :
  orient_lines [mkLine (0, 1)%Z true; mkLine (2, 3)%Z true] = Raise IndexError.
Proof.
  apply (orient_lines_stuck _ 1 (init [(0, 1); (2, 3)]%Z) (0, 1)%Z).
  - apply (bool_decide_unpack _). vm_compute. exact I.
  - simpl. lia.
  - reflexivity.
  - reflexivity.
  - intros [|[|i]] r Hi Hr; simpl in *; try lia; [|done].
    injection Hr as <-. simpl. lia.
  - intros [|[|i]] r Hi Hr; simpl in *; try lia; [|done].
    injection Hr as <-. simpl. lia.
Defined.

(** C2 as stated fails: the exception raised at the break is
    [IndexError], not [MalformedLoopError]. *)
Lemma orient_lines_stuck_not_malformed :
  let lines := [mkLine (0, 1)%Z true; mkLine (2, 3)%Z true] in
  let s := init (points <$> lines) in
  loop (seq 1 0) s = Ok s ∧
  no_match fst 1 (point_pair_ids s) 1%Z ∧
  no_match snd 1 (point_pair_ids s) 1%Z ∧
  orient_lines lines ≠ Raise MalformedLoopError.
Proof.
  split; [reflexivity|]. split; [|split].
  - intros [|[|i]] r Hi Hr; simpl in *; try lia; [|done].
    injection Hr as <-. simpl. lia.
  - intros [|[|i]] r Hi Hr; simpl in *; try lia; [|done].
    injection Hr as <-. simpl. lia.
  - vm_compute. discriminate.
Qed.

(** The two scenarios of the specification: a square given out of order,
    and a square given against the direction of its first edge. *)
Example orient_lines_square_unordered :
  orient_lines [mkLine (2, 3)%Z true; mkLine (0, 1)%Z true;
                mkLine (3, 0)%Z true; mkLine (1, 2)%Z true]
  = Ok [mkLine (2, 3)%Z true; mkLine (3, 0)%Z true;
        mkLine (0, 1)%Z true; mkLine (1, 2)%Z true].
Proof. reflexivity. Qed.

Example orient_lines_square_reversed :
  orient_lines [mkLine (1, 0)%Z true; mkLine (2, 1)%Z true;
                mkLine (3, 2)%Z true; mkLine (0, 3)%Z true]
  = Ok [mkLine (1, 0)%Z true; mkLine (0, 3)%Z true;
        mkLine (3, 2)%Z true; mkLine (2, 1)%Z true].
Proof. reflexivity. Qed.

(** A closed walk that passes a vertex of degree 3 is returned without
    any failure although the last segment does not lead back to the
    first: the wrap-around link is never examined. *)
Remark orient_lines_degree_three_silent :
  let lines := [mkLine (0, 1)%Z true; mkLine (1, 2)%Z true;
                mkLine (2, 0)%Z true; mkLine (0, 1)%Z true] in
  orient_lines lines = Ok lines ∧ ¬ closes lines.
Proof.
  split; [reflexivity|]. intros Hcl.
  specialize (Hcl 3 _ _ eq_refl eq_refl). vm_compute in Hcl. discriminate.
Qed.

(** C6 (as amended).  On a simple cycle of ids of the int64 range,
    [orient_lines] applied to its own output succeeds, keeps the order
    of the segments, and negates again exactly the segments that the
    first application negated; so the second output equals the first if
    and only if the first application negated no segment. *)
Theorem orient_lines_twice lines vs :
  is_cycle vs (points <$> lines) →
  int64_ids (points <$> lines) →
  ∃ out perm flips,
    orient_lines lines = Ok out ∧
    perm ≡ₚ lines ∧ length flips = length perm ∧
    out = zip_with signed flips perm ∧
    orient_lines out = Ok (zip_with signed flips out) ∧
    (orient_lines out = Ok out ↔ Forall (λ b, b = true) flips).
Proof.
  intros Hcyc _.
  destruct (run_cycle vs _ Hcyc) as (s & Hrun & HI & _).
  destruct (orient_lines_of_run lines s Hrun) as (perm & Hmap & Hperm & Hout).
  pose proof (inv_len_ori _ _ _ HI) as Hlb. rewrite length_fmap in Hlb.
  assert (length (oriented s) = length perm) as Hlen by (by rewrite Hlb, Hperm).
  destruct (orient_lines_again lines _ Hout) as (s' & Hrun' & Hlen' & Hagain).
  assert (s' = s) as -> by congruence.
  exists (zip_with signed (oriented s) perm), perm, (oriented s).
  repeat (split; [done|]).
  rewrite Hagain. rewrite <- (zip_with_signed_id _ _ Hlen').
  split; [by intros [= ->]|by intros ->].
Qed.

Lemma orient_lines_twice_witness :
  let lines := [mkLine (0, 1)%Z true; mkLine (2, 1)%Z true; mkLine (0, 2)%Z true] in
  ∃ out perm flips,
    orient_lines lines = Ok out ∧
    perm ≡ₚ lines ∧ length flips = length perm ∧
    out = zip_with signed flips perm ∧
    orient_lines out = Ok (zip_with signed flips out) ∧
    (orient_lines out = Ok out ↔ Forall (λ b, b = true) flips).
Proof.
  apply (orient_lines_twice _ [0; 1; 2]%Z).
  - apply (bool_decide_unpack _). vm_compute. exact I.
  - apply (bool_decide_unpack _). vm_compute. exact I.
Defined.

(** C6 as stated fails: on a triangle with one edge stored backwards the
    second application undoes the negations of the first. *)
Lemma orient_lines_not_idempotent :
  let lines := [mkLine (0, 1)%Z true; mkLine (2, 1)%Z true; mkLine (0, 2)%Z true] in
  is_cycle [0; 1; 2]%Z (points <$> lines) ∧
  ∃ out, orient_lines lines = Ok out ∧ orient_lines out ≠ Ok out.
Proof.
  split.
  - apply (bool_decide_unpack _). vm_compute. exact I.
  - eexists. split; [vm_compute; reflexivity|]. vm_compute. discriminate.
Qed.

(** C8 (as amended).  On a simple cycle of ids of the int64 range the
    first returned segment is the first input segment itself, as it was
    given.  Every iteration [j] selects the lowest position [k] from
    [j] on whose stored tail is the required id, or, when no stored
    tail matches, the lowest one whose stored head is; and the segment
    that waits at position [k] is the segment returned at position [j],
    negated or not so that, read in the direction of its flag, it starts
    at the required id. *)
Theorem orient_lines_start_and_tie_break lines vs :
  is_cycle vs (points <$> lines) →
  int64_ids (points <$> lines) →
  ∃ out first,
    orient_lines lines = Ok out ∧
    lines !! 0 = Some first ∧ out !! 0 = Some first ∧
    ∀ j, 1 ≤ j < length lines →
      ∃ s s' prev k o l b,
        loop (seq 1 (j - 1)) (init (points <$> lines)) = Ok s ∧
        step j s = Ok s' ∧
        point_pair_ids s !! (j - 1) = Some prev ∧
        (lowest_match fst j (point_pair_ids s) prev.2 k ∨
         (no_match fst j (point_pair_ids s) prev.2 ∧
          lowest_match snd j (point_pair_ids s) prev.2 k)) ∧
        order s' = Np.swap j k (order s) ∧
        order s !! k = Some o ∧ lines !! o = Some l ∧
        out !! j = Some (signed b l) ∧
        (dir b (points l)).1 = prev.2.
Proof.
  intros Hcyc _.
  destruct (is_cycle_length _ _ Hcyc) as [_ HN]. rewrite length_fmap in HN.
  destruct (run_cycle vs _ Hcyc) as (s & Hrun & HI & _).
  destruct (orient_lines_of_run lines s Hrun) as (perm & Hmap & Hperm & Hout).
  destruct (lookup_lt_is_Some_2 lines 0 HN) as [first Hfirst].
  apply mapM_Ok in Hmap.
  exists (zip_with signed (oriented s) perm), first.
  split; [done|]. split; [done|]. split.
  - destruct (inv_first _ _ _ HI) as [Ho Hb]; [by rewrite length_fmap|].
    destruct (Forall2_lookup_l _ _ _ _ _ Hmap Ho) as (l & Hl & Hsub).
    apply subscript_Ok in Hsub.
    rewrite lookup_zip_with, Hb, Hl. simpl. congruence.
  - intros j Hj. unfold run in Hrun. rewrite length_fmap in Hrun.
    replace (seq 1 (length lines - 1))
      with (seq 1 (j - 1) ++ seq j (S (length lines - 1 - j))) in Hrun.
    2:{ replace (length lines - 1) with ((j - 1) + S (length lines - 1 - j)) at 2
          by lia.
        rewrite seq_app. f_equal. by replace (1 + (j - 1)) with j by lia. }
    rewrite loop_app in Hrun.
    apply bind_Ok in Hrun as (sj & Hsj & Hrest).
    pose proof (loop_take _ _ _ _ Hrest) as (Hp0 & _ & _).
    simpl in Hrest. apply bind_Ok in Hrest as (sj' & Hstep & Htail).
    pose proof (loop_take _ _ _ _ Htail) as (_ & Ho' & _).
    destruct (step_choice j sj sj' Hstep) as (prev & k & Hprev & Hk & Hord).
    pose proof (loop_Inv _ _ 1 _ _ (le_n 1) (Inv_init _) Hsj) as HIj.
    replace (1 + (j - 1)) with j in HIj by lia.
    assert (k < length (order sj)) as Hklt.
    { rewrite (inv_len_order _ _ _ HIj), <- (inv_len_ppi _ _ _ HIj).
      destruct Hk as [(_ & (r & Hr & _) & _)|(_ & _ & (r & Hr & _) & _)];
        by eapply lookup_lt_Some. }
    assert (j < length (order sj)) as Hjlt.
    { rewrite (inv_len_order _ _ _ HIj), length_fmap. lia. }
    destruct (lookup_lt_is_Some_2 _ _ Hklt) as [o Hko].
    assert (order s !! j = Some o) as Hjo.
    { rewrite <- (lookup_take_lt _ (S j)) by lia. rewrite Ho'.
      rewrite lookup_take_lt by lia. rewrite Hord, swap_lookup by done.
      rewrite <- Hko. repeat case_decide; congruence. }
    destruct (lookup_lt_is_Some_2 (oriented s) j) as [b Hb].
    { rewrite (inv_len_ori _ _ _ HI), length_fmap. lia. }
    destruct (Forall2_lookup_l _ _ _ _ _ Hmap Hjo) as (l & Hl & Hlo%subscript_Ok).
    exists sj, sj', prev, k, o, l, b.
    repeat (split; [done|]). split.
    + by rewrite lookup_zip_with, Hb, Hl.
    + pose proof (inv_rows _ _ _ HI j o b Hjo Hb) as Hrow.
      rewrite list_lookup_fmap, Hlo in Hrow. simpl in Hrow.
      symmetry. apply (inv_chain _ _ _ HI (j - 1) prev (dir b (points l))).
      * rewrite length_fmap. lia.
      * rewrite <- (lookup_take_lt _ j) by lia. rewrite Hp0.
        by rewrite lookup_take_lt by lia.
      * by replace (S (j - 1)) with j by lia.
Qed.

Lemma orient_lines_start_and_tie_break_witness :
  let lines := [mkLine (2, 3)%Z true; mkLine (0, 1)%Z true;
                mkLine (3, 0)%Z true; mkLine (1, 2)%Z true] in
  ∃ out first,
    orient_lines lines = Ok out ∧
    lines !! 0 = Some first ∧ out !! 0 = Some first ∧
    ∀ j, 1 ≤ j < length lines →
      ∃ s s' prev k o l b,
        loop (seq 1 (j - 1)) (init (points <$> lines)) = Ok s ∧
        step j s = Ok s' ∧
        point_pair_ids s !! (j - 1) = Some prev ∧
        (lowest_match fst j (point_pair_ids s) prev.2 k ∨
         (no_match fst j (point_pair_ids s) prev.2 ∧
          lowest_match snd j (point_pair_ids s) prev.2 k)) ∧
        order s' = Np.swap j k (order s) ∧
        order s !! k = Some o ∧ lines !! o = Some l ∧
        out !! j = Some (signed b l) ∧
        (dir b (points l)).1 = prev.2.
Proof.
  apply (orient_lines_start_and_tie_break _ [0; 1; 2; 3]%Z).
  - apply (bool_decide_unpack _). vm_compute. exact I.
  - apply (bool_decide_unpack _). vm_compute. exact I.
Defined.

(** C8 as stated fails in its first part: the first returned segment is
    the first input segment with the sign that it was given, so on a
    valid cycle whose first segment is given negated it has sign −1. *)
Lemma orient_lines_first_keeps_given_sign :
  let lines := [mkLine (0, 1)%Z false; mkLine (1, 2)%Z true; mkLine (2, 0)%Z true] in
  is_cycle [0; 1; 2]%Z (points <$> lines) ∧
  int64_ids (points <$> lines) ∧
  ∃ out first,
    orient_lines lines = Ok out ∧ out !! 0 = Some first ∧ sign first = false.
Proof.
  split; [|split].
  - apply (bool_decide_unpack _). vm_compute. exact I.
  - apply (bool_decide_unpack _). vm_compute. exact I.
  - eexists _, _. split; [vm_compute; reflexivity|]. by split.
Qed.

End orient_theorems.


(** ** Facts about [numpy.unique] *)
Section unique_facts.
Import Mesh.
Implicit Types (a u : list nat) (x y : nat).

Lemma elem_of_insert_sorted y x u :
  y ∈ insert_sorted x u ↔ y = x ∨ y ∈ u.
Proof.
  induction u as [|z u IH]; simpl.
  - rewrite list_elem_of_singleton. split; [by left|].
    by intros [?|?%elem_of_nil].
  - repeat case_decide; subst; rewrite ?elem_of_cons, ?IH; tauto.
Qed.

Lemma insert_sorted_sorted x u :
  StronglySorted lt u → StronglySorted lt (insert_sorted x u).
Proof.
  induction 1 as [|z u Hu IH Hz]; simpl.
  - repeat constructor.
  - repeat case_decide.
    + constructor; [by constructor|]. constructor; [done|].
      eapply Forall_impl; [exact Hz|]. simpl. lia.
    + by constructor.
    + constructor; [done|]. apply Forall_forall.
      intros y [->|Hy]%elem_of_insert_sorted; [lia|].
      rewrite Forall_forall in Hz. by apply Hz.
Qed.

Lemma np_unique_sorted a : StronglySorted lt (np_unique a).
Proof.
  induction a as [|x a IH]; simpl; [constructor|].
  by apply insert_sorted_sorted.
Qed.

Lemma elem_of_np_unique x a : x ∈ np_unique a ↔ x ∈ a.
Proof.
  induction a as [|y a IH]; simpl; [done|].
  by rewrite elem_of_insert_sorted, elem_of_cons, IH.
Qed.

Lemma sorted_lt_NoDup u : StronglySorted lt u → NoDup u.
Proof.
  induction 1 as [|z u Hu IH Hz]; constructor; [|done].
  intros Hin. rewrite Forall_forall in Hz. specialize (Hz z Hin). lia.
Qed.

Lemma sorted_lt_unique u1 u2 :
  StronglySorted lt u1 → StronglySorted lt u2 →
  (∀ x, x ∈ u1 ↔ x ∈ u2) → u1 = u2.
Proof.
  intros H1. revert u2. induction H1 as [|z u1 Hu1 IH Hz]; intros u2 H2 Hel.
  - destruct u2 as [|y u2]; [done|]. exfalso.
    apply (not_elem_of_nil y), Hel. left.
  - destruct H2 as [|y u2 Hu2 Hy].
    { exfalso. apply (not_elem_of_nil z), Hel. left. }
    rewrite Forall_forall in Hz, Hy.
    assert (z = y) as ->.
    { assert (z ∈ y :: u2) as [->|Hzin]%elem_of_cons by (apply Hel; left); [done|].
      assert (y ∈ z :: u1) as [->|Hyin]%elem_of_cons by (apply Hel; left); [done|].
      specialize (Hz _ Hyin). specialize (Hy _ Hzin). lia. }
    f_equal. apply IH; [done|]. intros x. split; intros Hx.
    + assert (x ∈ y :: u2) as [->|?]%elem_of_cons by (apply Hel; by right); [|done].
      specialize (Hz _ Hx). lia.
    + assert (x ∈ y :: u1) as [->|?]%elem_of_cons by (apply Hel; by right); [|done].
      specialize (Hy _ Hx). lia.
Qed.

Lemma index_of_lookup x u : x ∈ u → u !! index_of x u = Some x.
Proof.
  induction u as [|y u IH]; simpl; [by intros ?%elem_of_nil|].
  intros Hin. case_decide; subst; [done|]. simpl. apply IH.
  by apply elem_of_cons in Hin as [?|?].
Qed.

Lemma index_of_lt x u : x ∈ u → index_of x u < length u.
Proof. intros Hin. by eapply lookup_lt_Some, index_of_lookup. Qed.

(** The [i]-th entry of a duplicate-free list has index [i]. *)
Lemma index_of_nth u i x : NoDup u → u !! i = Some x → index_of x u = i.
Proof.
  intros Hnd Hi. eapply NoDup_lookup; [done| |done].
  apply index_of_lookup. by eapply list_elem_of_lookup_2.
Qed.

Lemma seq_sorted j n : StronglySorted lt (seq j n).
Proof.
  revert j. induction n as [|n IH]; intros j; simpl; constructor; [done|].
  apply Forall_forall. intros x Hx%elem_of_seq. lia.
Qed.

Lemma index_of_seq x n : x < n → index_of x (seq 0 n) = x.
Proof.
  intros Hlt. apply index_of_nth; [apply NoDup_seq|]. by apply lookup_seq_lt.
Qed.

(** The ranks of the entries of [a] are exactly [0 .. length u - 1]. *)
Lemma np_unique_ranks a :
  let u := np_unique a in
  np_unique ((λ x, index_of x u) <$> a) = seq 0 (length u).
Proof.
  intros u. apply sorted_lt_unique; [apply np_unique_sorted|apply seq_sorted|].
  intros y. rewrite elem_of_np_unique, list_elem_of_fmap, elem_of_seq. split.
  - intros (x & -> & Hx). split; [lia|]. simpl.
    by apply index_of_lt, elem_of_np_unique.
  - intros [_ Hy]. simpl in Hy.
    destruct (lookup_lt_is_Some_2 u y Hy) as [x Hx]. exists x. split.
    + symmetry. apply index_of_nth; [|done]. apply sorted_lt_NoDup, np_unique_sorted.
    + by eapply elem_of_np_unique, list_elem_of_lookup_2.
Qed.

End unique_facts.

(** ** The cell-type filter *)
Section mesh_filter.
Import Mesh.
Context {PD CD : Type}.
Implicit Types (m : mesh PD CD) (cs : list CellBlock) (T : gset string).

Lemma filter_all {A} (P : A → Prop) `{!∀ x, Decision (P x)} (l : list A) :
  Forall P l → filter P l = l.
Proof.
  induction 1 as [|x l Hx _ IH]; [done|].
  by rewrite filter_cons_True, IH.
Qed.

(** A data list filtered through the blocks it is zipped with stays
    aligned with the filtered blocks. *)
Lemma filter_lockstep (P : CellBlock → Prop) `{!∀ c, Decision (P c)}
    (val : list CD) cs :
  length val = length cs →
  let val' := (filter (λ dc, P dc.2) (zip val cs)).*1 in
  zip val' (filter P cs) = filter (λ dc, P dc.2) (zip val cs) ∧
  length val' = length (filter P cs).
Proof.
  revert cs. induction val as [|d val IH]; intros [|c cs]; simpl; try done.
  intros [= Hlen]. destruct (IH cs Hlen) as [IH1 IH2].
  rewrite !filter_cons. simpl. destruct (decide (P c)); simpl.
  - split; [by f_equal|by f_equal].
  - done.
Qed.

Lemma keep_types_3d cs :
  Exists (λ c, type c ∈ cells_3d) cs → keep_types cs = cells_3d.
Proof. intros H. unfold keep_types. by rewrite decide_True. Qed.

Lemma keep_types_2d cs :
  ¬ Exists (λ c, type c ∈ cells_3d) cs →
  Exists (λ c, type c ∈ cells_2d) cs → keep_types cs = cells_2d.
Proof.
  intros H3 H2. unfold keep_types.
  by rewrite decide_False, decide_True.
Qed.

Lemma keep_types_all cs :
  ¬ Exists (λ c, type c ∈ cells_3d) cs →
  ¬ Exists (λ c, type c ∈ cells_2d) cs →
  filter (λ c, type c ∈ keep_types cs) cs = cs.
Proof.
  intros H3 H2. unfold keep_types. rewrite !decide_False by done.
  apply filter_all, Forall_forall. intros c Hc.
  apply elem_of_list_to_set, list_elem_of_fmap. by exists c.
Qed.

Lemma elem_of_cells_3d (t : string) :
  t ∈ cells_3d ↔
  t ∈ ["tetra"; "hexahedron"; "wedge"; "pyramid"; "penta_prism"; "hexa_prism"]%string.
Proof. unfold cells_3d. rewrite !elem_of_cons, elem_of_nil. set_solver. Qed.

Lemma elem_of_cells_2d (t : string) :
  t ∈ cells_2d ↔ t ∈ ["triangle"; "quad"]%string.
Proof. unfold cells_2d. rewrite !elem_of_cons, elem_of_nil. set_solver. Qed.

End mesh_filter.

Section mesh_filter_theorem.
Import Mesh.
Context {PD CD : Type}.
Implicit Types (m : mesh PD CD).

(** C3.  With [remove_lower_dim_cells]: if some block has a tier-3 type,
    exactly the tier-3 blocks are kept; otherwise, if some block has a
    tier-2 type, exactly the tier-2 blocks; otherwise every block.  Every
    cell-data field keeps its name and loses the entries of the removed
    blocks, so that the kept entries stay paired with their blocks.
    Points and point data are not touched. *)
Theorem remove_lower_dim_cells_tiers m :
  let m' := remove_lower_dim_cells m in
  let has (T : gset string) := Exists (λ c, type c ∈ T) (cells m) in
  (has cells_3d → cells m' = filter (λ c, type c ∈ cells_3d) (cells m)) ∧
  (¬ has cells_3d → has cells_2d →
     cells m' = filter (λ c, type c ∈ cells_2d) (cells m)) ∧
  (¬ has cells_3d → ¬ has cells_2d → cells m' = cells m) ∧
  points m' = points m ∧ point_data m' = point_data m ∧
  (cell_data m').*1 = (cell_data m).*1 ∧
  ∀ i name val,
    cell_data m !! i = Some (name, val) → length val = length (cells m) →
    ∃ val', cell_data m' !! i = Some (name, val') ∧
            length val' = length (cells m') ∧
            zip val' (cells m')
            = filter (λ dc, type dc.2 ∈ keep_types (cells m)) (zip val (cells m)).
Proof.
  simpl. split; [|split; [|split; [|split; [done|split; [done|split]]]]].
  - intros H3. by rewrite keep_types_3d.
  - intros H3 H2. by rewrite keep_types_2d.
  - intros H3 H2. by apply keep_types_all.
  - rewrite <- list_fmap_compose. apply list_fmap_ext. by intros _ [name val] _.
  - intros i name val Hi Hlen. rewrite list_lookup_fmap, Hi. simpl.
    eexists. split; [done|].
    destruct (filter_lockstep (λ c, type c ∈ keep_types (cells m)) val (cells m) Hlen)
      as [Hzip Hlen']. done.
Qed.

(** The filter keeps a block whenever there is one. *)
Lemma remove_lower_dim_cells_nonempty m :
  cells m ≠ [] → cells (remove_lower_dim_cells m) ≠ [].
Proof.
  intros Hne. simpl. unfold keep_types.
  destruct (decide (Exists _ (cells m))) as [H3|H3].
  - apply Exists_exists in H3 as (c & Hc & Hin). intros Hnil.
    by eapply (filter_nil_not_elem_of _ _ c Hnil).
  - destruct (decide (Exists _ (cells m))) as [H2|H2].
    + apply Exists_exists in H2 as (c & Hc & Hin). intros Hnil.
      by eapply (filter_nil_not_elem_of _ _ c Hnil).
    + pose proof (keep_types_all (cells m) H3 H2) as Hall.
      unfold keep_types in Hall. rewrite !decide_False in Hall by done.
      by rewrite Hall.
Qed.

End mesh_filter_theorem.

(** The spec's example: tetra and triangle blocks together. *)
Lemma remove_lower_dim_cells_tiers_witness :
  let tet := Mesh.mkCellBlock "tetra" (Mesh.Arr2 4 [[0; 1; 2; 3]]) in
  let tri := Mesh.mkCellBlock "triangle" (Mesh.Arr2 3 [[0; 1; 2]; [1; 2; 3]]) in
  let m : Mesh.mesh nat nat :=
    Mesh.Mesh (Mesh.Arr2 3 (replicate 4 [0%Q; 0%Q; 0%Q])) [tri; tet; tri] []
              [("gmsh:physical"%string, [7; 8; 9])] in
  Mesh.cells (Mesh.remove_lower_dim_cells m) = [tet] ∧
  Mesh.cell_data (Mesh.remove_lower_dim_cells m) = [("gmsh:physical"%string, [8])].
Proof.
  intros tet tri m.
  destruct (remove_lower_dim_cells_tiers m) as (H3 & _ & _ & _ & _ & _ & Hdata).
  split.
  - rewrite H3; [by vm_compute|]. apply (bool_decide_unpack _). by vm_compute.
  - destruct (Hdata 0 "gmsh:physical"%string [7; 8; 9] eq_refl eq_refl)
      as (val' & Hval' & _ & _). by vm_compute.
Defined.

(** ** The z-component reducer *)

Section mesh_reduce.
Import Mesh.
Context {PD CD : Type}.
Implicit Types (m : mesh PD CD) (zs : list Q).

Lemma Qltb_lt x y : Qltb x y = true ↔ (x < y)%Q.
Proof. unfold Qltb, Qlt. apply Z.ltb_lt. Qed.

Lemma tol_pos : (0 < tol)%Q.
Proof. reflexivity. Qed.

Lemma max_abs_lt zs :
  (max_abs zs < tol)%Q ↔ Forall (λ z, (Qabs z < tol)%Q) zs.
Proof.
  induction zs as [|z zs IH]; simpl.
  - split; [constructor|]. intros _. apply tol_pos.
  - rewrite Q.max_lub_lt_iff, Forall_cons, IH. done.
Qed.

Lemma forallb_below zs :
  forallb (λ z, Qltb (Qabs z) tol) zs = true ↔ (max_abs zs < tol)%Q.
Proof.
  rewrite max_abs_lt. induction zs as [|z zs IH]; simpl.
  - split; [constructor|done].
  - rewrite andb_true_iff, Forall_cons, IH, Qltb_lt. done.
Qed.

Lemma column_elem i (a : array2 Q) r z :
  r ∈ rows a → r !! i = Some z → z ∈ column i a.
Proof. intros Hr Hz. unfold column. apply list_elem_of_omap. eauto. Qed.

Lemma prune_z_0_applies m :
  ncols (points m) = 3 → (max_abs (column 2 (points m)) < tol)%Q →
  prune_z_0 m = Mesh (Arr2 2 (take 2 <$> rows (points m)))
                     (cells m) (point_data m) (cell_data m).
Proof.
  intros H3 Hmax. unfold prune_z_0.
  rewrite bool_decide_eq_true_2 by done.
  apply forallb_below in Hmax. by rewrite Hmax.
Qed.

Lemma prune_z_0_keeps m :
  ncols (points m) ≠ 3 ∨ ¬ (max_abs (column 2 (points m)) < tol)%Q →
  prune_z_0 m = m.
Proof.
  intros Hno. unfold prune_z_0.
  destruct (bool_decide _) eqn:H3; simpl; [|done].
  destruct (forallb _ _) eqn:Hall; [|done].
  apply bool_decide_eq_true in H3. apply forallb_below in Hall.
  by destruct Hno.
Qed.

(** C5.  The reducer acts only on points with 3 components; it drops
    the third component of every point when the largest |z| is below
    the tolerance and leaves the mesh as it is otherwise; one point with
    |z| = 1e-12 keeps every point at 3 components. *)
Theorem prune_z_0_boundary m :
  rect (points m) →
  (ncols (points m) ≠ 3 → prune_z_0 m = m) ∧
  (ncols (points m) = 3 →
     ((max_abs (column 2 (points m)) < tol)%Q →
        prune_z_0 m = Mesh (Arr2 2 (take 2 <$> rows (points m)))
                           (cells m) (point_data m) (cell_data m) ∧
        rect (points (prune_z_0 m)) ∧ ncols (points (prune_z_0 m)) = 2) ∧
     (¬ (max_abs (column 2 (points m)) < tol)%Q → prune_z_0 m = m) ∧
     (∀ r z, r ∈ rows (points m) → r !! 2 = Some z →
             (Qabs z == 1 # 1000000000000)%Q →
             prune_z_0 m = m ∧
             Forall (λ r, length r = 3) (rows (points (prune_z_0 m))))).
Proof.
  intros Hrect. split; [intros; apply prune_z_0_keeps; by left|].
  intros H3. split; [|split].
  - intros Hmax. rewrite prune_z_0_applies by done. split; [done|]. split; [|done].
    unfold rect in *. simpl. apply Forall_fmap.
    eapply Forall_impl; [exact Hrect|]. simpl. intros r Hr.
    rewrite length_take. lia.
  - intros; apply prune_z_0_keeps; by right.
  - intros r z Hr Hz Habs.
    assert (prune_z_0 m = m) as Hkeep.
    { apply prune_z_0_keeps. right. rewrite max_abs_lt, Forall_forall.
      intros Hall. specialize (Hall z (column_elem 2 _ r z Hr Hz)).
      rewrite Habs in Hall. vm_compute in Hall. discriminate. }
    split; [done|]. rewrite Hkeep. unfold rect in Hrect. by rewrite H3 in Hrect.
Qed.

End mesh_reduce.

Lemma prune_z_0_boundary_witness :
  let pts := Mesh.Arr2 3 [[0; 0; 0]; [1; 0; 1 # 1000000000000]; [0; 1; 0]]%Q in
  let m : Mesh.mesh nat nat := Mesh.Mesh pts [] [] [] in
  Mesh.prune_z_0 m = m ∧
  Forall (λ r, length r = 3) (Mesh.rows (Mesh.points (Mesh.prune_z_0 m))).
Proof.
  intros pts m.
  assert (Mesh.rect (Mesh.points m)) as Hrect by (by repeat constructor).
  destruct (prune_z_0_boundary m Hrect) as (_ & H3).
  destruct (H3 eq_refl) as (_ & _ & Hone).
  apply (Hone [1; 0; 1 # 1000000000000]%Q (1 # 1000000000000)%Q).
  - right. left.
  - reflexivity.
  - reflexivity.
Defined.

(** ** The vertex pruner *)

Section mesh_prune.
Import Mesh.
Context {PD CD : Type}.
Implicit Types (m : mesh PD CD) (cs : list CellBlock).

Lemma reshape_concat {A} (rs : list (list A)) nc rest :
  Forall (λ r, length r = nc) rs →
  reshape (replicate (length rs) nc) (concat rs ++ rest) = rs.
Proof.
  induction 1 as [|r rs Hr _ IH]; simpl; [done|].
  rewrite <- app_assoc, take_app_length', drop_app_length' by done.
  by rewrite IH.
Qed.

Lemma length_concat_rect {A} (rs : list (list A)) nc :
  Forall (λ r, length r = nc) rs → length (concat rs) = length rs * nc.
Proof.
  induction 1 as [|r rs Hr _ IH]; simpl; [done|].
  rewrite length_app. lia.
Qed.

Lemma fmap_concat {A B} (f : A → B) (rs : list (list A)) :
  f <$> concat rs = concat (fmap (M := list) f <$> rs).
Proof.
  induction rs as [|r rs IH]; simpl; [done|]. by rewrite fmap_app, IH.
Qed.

Lemma referenced_cons c cs :
  referenced (c :: cs) = concat (rows (data c)) ++ referenced cs.
Proof. done. Qed.

Lemma referenced_map_block f cs :
  referenced (map_block f <$> cs) = f <$> referenced cs.
Proof.
  induction cs as [|c cs IH]; [done|].
  rewrite fmap_cons, !referenced_cons, fmap_app, IH. simpl.
  by rewrite fmap_concat.
Qed.

(** Cutting the renumbered flat array back into blocks renumbers every
    block in place. *)
Lemma rebuild_map f cs pre post :
  Forall (λ c, rect (data c)) cs →
  rebuild cs (pre ++ (f <$> referenced cs) ++ post) (length pre)
  = map_block f <$> cs.
Proof.
  intros Hrect. revert pre.
  induction Hrect as [|c cs Hc _ IH]; intros pre; simpl; [done|].
  rewrite referenced_cons, fmap_app.
  unfold size, shape. simpl.
  assert (length (f <$> concat (rows (data c)))
          = length (rows (data c)) * ncols (data c)) as Hlen.
  { rewrite length_fmap. by apply length_concat_rect. }
  f_equal.
  - unfold map_block, np_reshape. simpl. do 2 f_equal.
    rewrite drop_app_length, <- app_assoc, take_app_length' by done.
    rewrite fmap_concat. rewrite <- (app_nil_r (concat _)).
    rewrite <- (length_fmap (fmap (M := list) f) (rows (data c))).
    apply reshape_concat. apply Forall_fmap.
    eapply Forall_impl; [exact Hc|]. simpl. intros r. by rewrite length_fmap.
  - rewrite <- Hlen, <- length_app.
    rewrite <- (app_assoc (f <$> concat _)), (app_assoc pre).
    apply IH.
Qed.

Lemma rect_map_block f cs :
  Forall (λ c, rect (data c)) cs → Forall (λ c, rect (data c)) (map_block f <$> cs).
Proof.
  intros H. apply Forall_fmap. eapply Forall_impl; [exact H|].
  intros c Hc. unfold rect in *. simpl. apply Forall_fmap.
  eapply Forall_impl; [exact Hc|]. simpl. intros r. by rewrite length_fmap.
Qed.

Lemma has_cells_map_block f cs : has_cells cs → has_cells (map_block f <$> cs).
Proof.
  intros [Hne Hall]. split; [by destruct cs|].
  apply Forall_fmap. eapply Forall_impl; [exact Hall|].
  intros c Hc. unfold compose, map_block. simpl in *.
  intros Hnil%fmap_nil_inv. done.
Qed.

(** When the two concatenations succeed. *)
Lemma concat_blocks_Ok cs flat :
  mapM (λ c, np_concatenate (rows (data c))) cs = Ok flat ↔
  Forall (λ c, rows (data c) ≠ []) cs ∧
  flat = (λ c, concat (rows (data c))) <$> cs.
Proof.
  rewrite mapM_Ok. split.
  - induction 1 as [|c r cs flat Hc _ [IH1 IH2]]; [done|].
    unfold np_concatenate in Hc.
    destruct (rows (data c)) as [|r0 rs] eqn:Hrows; [done|].
    injection Hc as <-. split; [constructor; [by rewrite Hrows|done]|].
    simpl. rewrite Hrows. by f_equal.
  - intros [Hall ->]. induction Hall as [|c cs Hc _ IH]; constructor; [|done].
    unfold np_concatenate. by destruct (rows (data c)).
Qed.

Lemma flattened_Ok cs ncells :
  (mapM (λ c, np_concatenate (rows (data c))) cs ≫= np_concatenate) = Ok ncells ↔
  has_cells cs ∧ ncells = referenced cs.
Proof.
  rewrite bind_Ok. split.
  - intros (flat & [Hall ->]%concat_blocks_Ok & Hcat).
    unfold np_concatenate in Hcat. destruct cs as [|c cs]; [done|].
    simpl in Hcat. injection Hcat as <-. by split.
  - intros [[Hne Hall] ->]. eexists. split; [by apply concat_blocks_Ok|].
    by destruct cs.
Qed.

End mesh_prune.

Section mesh_prune_run.
Import Mesh.
Context {PD CD : Type}.
Implicit Types (m : mesh PD CD) (cs : list CellBlock) (u idx : list nat).

Lemma Forall2_iff {A B} (P Q : A → B → Prop) (l : list A) (k : list B) :
  (∀ x y, P x y ↔ Q x y) → Forall2 P l k ↔ Forall2 Q l k.
Proof.
  intros HPQ. split; intros H; eapply Forall2_impl; try exact H;
    intros x y; apply HPQ.
Qed.

Lemma np_take_Ok {A} (a : list A) idx ys :
  np_take a idx = Ok ys ↔ Forall2 (λ i y, a !! i = Some y) idx ys.
Proof.
  unfold np_take. rewrite mapM_Ok. apply Forall2_iff.
  intros i y. apply subscript_Ok.
Qed.

Lemma np_take_seq {A} (a : list A) : np_take a (seq 0 (length a)) = Ok a.
Proof. apply mapM_seq_Ok. intros i y. apply subscript_Ok. Qed.

Lemma index_point_data_Ok u (pd pd' : list (string * list PD)) :
  index_point_data u pd = Ok pd' ↔
  Forall2 (λ kv kv', kv'.1 = kv.1 ∧ Forall2 (λ x v, kv.2 !! x = Some v) u kv'.2)
          pd pd'.
Proof.
  unfold index_point_data. rewrite mapM_Ok. apply Forall2_iff.
  intros [key arr] [key' arr']. simpl. rewrite bind_Ok. split.
  - intros (ys & Hys%np_take_Ok & [= <- <-]). done.
  - intros [-> Hys%np_take_Ok]. by exists arr'.
Qed.

Lemma index_point_data_total u (pd : list (string * list PD)) :
  Forall (λ kv, Forall (λ x, x < length kv.2) u) pd →
  ∃ pd', index_point_data u pd = Ok pd'.
Proof.
  unfold index_point_data.
  induction 1 as [|[key arr] pd Hkv _ [pd' IH]]; simpl; [by eexists|].
  destruct (mapM_subscript_total arr u Hkv) as [ys Hys].
  fold (np_take arr u) in Hys. rewrite Hys. simpl. rewrite IH. simpl.
  by eexists.
Qed.

Lemma index_point_data_seq n (pd : list (string * list PD)) :
  Forall (λ kv, length kv.2 = n) pd → index_point_data (seq 0 n) pd = Ok pd.
Proof.
  intros Hall. apply index_point_data_Ok.
  apply Forall2_same_length_lookup. split; [done|].
  intros i kv kv' Hkv Hkv'. assert (kv' = kv) as -> by congruence.
  split; [done|]. rewrite Forall_forall in Hall.
  rewrite <- (Hall kv) by (by eapply list_elem_of_lookup_2).
  by apply np_take_Ok, np_take_seq.
Qed.

Lemma elem_of_referenced x cs :
  x ∈ referenced cs ↔ ∃ c row, c ∈ cs ∧ row ∈ rows (data c) ∧ x ∈ row.
Proof.
  unfold referenced. induction cs as [|c cs IH]; simpl.
  - split; [by intros ?%elem_of_nil|]. by intros (c & row & ?%elem_of_nil & _).
  - rewrite elem_of_app, IH. split.
    + intros [Hx|(c' & row & Hc' & Hrow & Hx)].
      * apply list_elem_of_In, in_concat in Hx as (row & Hrow & Hx).
        exists c, row. rewrite <- !list_elem_of_In in *. split; [left|done].
      * exists c', row. split; [by right|done].
    + intros (c' & row & [->|Hc']%elem_of_cons & Hrow & Hx).
      * left. apply list_elem_of_In, in_concat. exists row.
        by rewrite <- !list_elem_of_In.
      * right. by exists c', row.
Qed.

(** The result of a pruning that does not raise. *)
Lemma prune_vertices_Ok m m' :
  prune_vertices m = Ok m' ↔
  let u := np_unique (referenced (cells m)) in
  has_cells (cells m) ∧
  ∃ rows' pd',
    np_take (rows (points m)) u = Ok rows' ∧
    index_point_data u (point_data m) = Ok pd' ∧
    m' = Mesh (Arr2 (ncols (points m)) rows')
              (rebuild (cells m) ((λ x, index_of x u) <$> referenced (cells m)) 0)
              pd' (cell_data m).
Proof.
  unfold prune_vertices. simpl. split.
  - intros (flat & Hflat & (ncells & Hcat & Hrest)%bind_Ok)%bind_Ok.
    assert (has_cells (cells m) ∧ ncells = referenced (cells m)) as [Hhas ->].
    { apply flattened_Ok, bind_Ok. eauto. }
    split; [done|]. unfold np_unique_inverse in Hrest.
    apply bind_Ok in Hrest as (rows' & Hrows & (pd' & Hpd & [= <-])%bind_Ok).
    by exists rows', pd'.
  - intros (Hhas & rows' & pd' & Hrows & Hpd & ->).
    assert ((mapM (λ c, np_concatenate (rows (data c))) (cells m)
             ≫= np_concatenate) = Ok (referenced (cells m))) as Hflat
      by (by apply flattened_Ok).
    apply bind_Ok in Hflat as (flat & -> & Hcat). simpl. rewrite Hcat. simpl.
    rewrite Hrows. simpl. rewrite Hpd. done.
Qed.

End mesh_prune_run.

Section mesh_prune_theorems.
Import Mesh.
Context {PD CD : Type}.
Implicit Types (m : mesh PD CD) (cs : list CellBlock).

Lemma rebuild_ranks f cs :
  Forall (λ c, rect (data c)) cs →
  rebuild cs (f <$> referenced cs) 0 = map_block f <$> cs.
Proof.
  intros Hrect. pose proof (rebuild_map f cs [] [] Hrect) as H.
  simpl in H. by rewrite app_nil_r in H.
Qed.

Lemma map_block_id cs : map_block id <$> cs = cs.
Proof.
  induction cs as [|[t [nc rs]] cs IH]; [done|].
  rewrite fmap_cons, IH. f_equal. unfold map_block. simpl. do 2 f_equal.
  induction rs as [|r rs IHrs]; [done|].
  rewrite fmap_cons, IHrs. f_equal. apply list_fmap_id.
Qed.

(** C4 (as amended).  On a mesh that satisfies the data model and has
    cells (at least one block, every block with at least one cell), the
    pruner returns; with [R] the referenced point ids in ascending order
    without repetition, every cell entry is replaced by its position in
    [R], the point array and every per-point data array are cut down to
    the rows that [R] names, in that order, the cell data stay, and every
    resulting cell entry is a valid index into the new point array. *)
Theorem prune_vertices_compacts m :
  valid m → has_cells (cells m) →
  let R := np_unique (referenced (cells m)) in
  let rank x := index_of x R in
  ∃ m', prune_vertices m = Ok m' ∧
    StronglySorted lt R ∧ (∀ x, x ∈ R ↔ x ∈ referenced (cells m)) ∧
    (∀ i x, R !! i = Some x → rank x = i) ∧
    cells m' = map_block rank <$> cells m ∧
    ncols (points m') = ncols (points m) ∧
    Forall2 (λ x row, rows (points m) !! x = Some row) R (rows (points m')) ∧
    Forall2 (λ kv kv', kv'.1 = kv.1 ∧
                       Forall2 (λ x v, kv.2 !! x = Some v) R kv'.2)
            (point_data m) (point_data m') ∧
    cell_data m' = cell_data m ∧
    ∀ c row x, c ∈ cells m' → row ∈ rows (data c) → x ∈ row →
               x < length (rows (points m')).
Proof.
  intros (Hrect & Hids & Hpd) Hhas R rank.
  assert (Forall (λ x, x < length (rows (points m))) R) as HR.
  { apply Forall_forall. intros x Hx. unfold R in Hx.
    rewrite elem_of_np_unique in Hx. rewrite Forall_forall in Hids.
    by apply Hids. }
  destruct (mapM_subscript_total (rows (points m)) R HR) as [rows' Hrows].
  fold (np_take (rows (points m)) R) in Hrows.
  destruct (index_point_data_total R (point_data m)) as [pd' Hpd'].
  { eapply Forall_impl; [exact Hpd|]. simpl. intros kv ->. done. }
  eexists. split.
  { apply prune_vertices_Ok. simpl. split; [done|].
    exists rows', pd'. done. }
  simpl. rewrite rebuild_ranks by done.
  apply np_take_Ok in Hrows as Hrows2. apply index_point_data_Ok in Hpd' as Hpd2.
  split; [apply np_unique_sorted|]. split; [intros; apply elem_of_np_unique|].
  split.
  { intros i x Hi. apply index_of_nth; [|done].
    apply sorted_lt_NoDup, np_unique_sorted. }
  repeat (split; [done|]).
  intros c row x (c0 & -> & Hc0)%list_elem_of_fmap. simpl.
  intros (row0 & -> & Hrow0)%list_elem_of_fmap (x0 & -> & Hx0)%list_elem_of_fmap.
  rewrite <- (Forall2_length _ _ _ Hrows2).
  apply index_of_lt, elem_of_np_unique, elem_of_referenced. eauto.
Qed.

(** C7.  Pruning a pruned mesh changes nothing (and a pruning that
    raises, raises). *)
Theorem prune_vertices_idempotent m :
  Forall (λ c, rect (data c)) (cells m) →
  prune_vertices m ≫= prune_vertices = prune_vertices m.
Proof.
  intros Hrect. destruct (prune_vertices m) as [m'|e] eqn:Hm; [|done]. simpl.
  apply prune_vertices_Ok in Hm as (Hhas & rows' & pd' & Hrows & Hpd & ->).
  simpl in *. set (R := np_unique (referenced (cells m))) in *.
  rewrite rebuild_ranks in * by done.
  apply prune_vertices_Ok. simpl.
  assert (np_unique (referenced (map_block (λ x, index_of x R) <$> cells m))
          = seq 0 (length R)) as HU.
  { rewrite referenced_map_block. apply np_unique_ranks. }
  rewrite !HU. split; [by apply has_cells_map_block|].
  apply np_take_Ok in Hrows as Hrows2. apply index_point_data_Ok in Hpd as Hpd2.
  exists rows', pd'. split; [|split].
  - rewrite (Forall2_length _ _ _ Hrows2). apply np_take_seq.
  - apply index_point_data_seq. apply Forall_forall. intros kv' Hkv'.
    apply list_elem_of_lookup in Hkv' as [i Hi].
    destruct (Forall2_lookup_r _ _ _ _ _ Hpd2 Hi) as (kv & _ & _ & Hlen).
    by rewrite (Forall2_length _ _ _ Hlen).
  - f_equal.
    assert (((λ x, index_of x (seq 0 (length R))) <$>
               referenced (map_block (λ x, index_of x R) <$> cells m))
            = id <$> referenced (map_block (λ x, index_of x R) <$> cells m)) as ->.
    { apply list_fmap_ext. intros i y Hy. rewrite referenced_map_block in Hy.
      apply list_elem_of_lookup_2, list_elem_of_fmap in Hy as (x & -> & Hx).
      apply index_of_seq, index_of_lt. by apply elem_of_np_unique. }
    rewrite rebuild_ranks by (by apply rect_map_block).
    by rewrite map_block_id.
Qed.

End mesh_prune_theorems.

Lemma prune_vertices_compacts_witness :
  let ln := Mesh.mkCellBlock "line" (Mesh.Arr2 2 [[0; 1]]) in
  let tri := Mesh.mkCellBlock "triangle" (Mesh.Arr2 3 [[0; 2; 5]; [2; 5; 7]]) in
  let m : Mesh.mesh nat nat :=
    Mesh.Mesh (Mesh.Arr2 3 (replicate 8 [0; 1; 0]%Q)) [ln; tri]
              [("a"%string, seq 10 8)] [("b"%string, [1; 2])] in
  let R := Mesh.np_unique (referenced (Mesh.cells m)) in
  let rank x := Mesh.index_of x R in
  ∃ m', Mesh.prune_vertices m = Ok m' ∧
    StronglySorted lt R ∧ (∀ x, x ∈ R ↔ x ∈ referenced (Mesh.cells m)) ∧
    (∀ i x, R !! i = Some x → rank x = i) ∧
    Mesh.cells m' = map_block rank <$> Mesh.cells m ∧
    Mesh.ncols (Mesh.points m') = Mesh.ncols (Mesh.points m) ∧
    Forall2 (λ x row, Mesh.rows (Mesh.points m) !! x = Some row) R
            (Mesh.rows (Mesh.points m')) ∧
    Forall2 (λ kv kv', kv'.1 = kv.1 ∧
                       Forall2 (λ x v, kv.2 !! x = Some v) R kv'.2)
            (Mesh.point_data m) (Mesh.point_data m') ∧
    Mesh.cell_data m' = Mesh.cell_data m ∧
    ∀ c row x, c ∈ Mesh.cells m' → row ∈ Mesh.rows (Mesh.data c) → x ∈ row →
               x < length (Mesh.rows (Mesh.points m')).
Proof.
  intros ln tri m. apply (prune_vertices_compacts m).
  - unfold valid, Mesh.rect. simpl. repeat split; repeat constructor; simpl; lia.
  - split; [done|]. repeat constructor; done.
Defined.

Lemma prune_vertices_idempotent_witness :
  let tri := Mesh.mkCellBlock "triangle" (Mesh.Arr2 3 [[0; 2; 5]; [2; 5; 7]]) in
  let m : Mesh.mesh nat nat :=
    Mesh.Mesh (Mesh.Arr2 3 (replicate 8 [0; 1; 0]%Q)) [tri]
              [("a"%string, seq 10 8)] [("b"%string, [1])] in
  Mesh.prune_vertices m ≫= Mesh.prune_vertices = Mesh.prune_vertices m.
Proof.
  intros tri m. apply (prune_vertices_idempotent m).
  unfold Mesh.rect. simpl. repeat constructor.
Defined.

(** C4 as stated fails on a mesh that satisfies the data model and has
    no cell block, or a block without cells: the pruner raises
    [ValueError] there and returns no mesh. *)
Lemma prune_vertices_without_cells_raises :
  let m0 : Mesh.mesh nat nat :=
    Mesh.Mesh (Mesh.Arr2 3 [[0; 0; 0]%Q]) [] [("a"%string, [1])] [] in
  let m1 : Mesh.mesh nat nat :=
    Mesh.Mesh (Mesh.Arr2 3 [[0; 0; 0]%Q])
              [Mesh.mkCellBlock "triangle" (Mesh.Arr2 3 [])]
              [("a"%string, [1])] [("b"%string, [2])] in
  valid m0 ∧ Mesh.prune_vertices m0 = Raise ValueError ∧
  valid m1 ∧ Mesh.prune_vertices m1 = Raise ValueError.
Proof.
  intros m0 m1. unfold valid, Mesh.rect. simpl.
  repeat split; repeat constructor.
Qed.

(** ** Empty results *)
Section mesh_empty.
Import Mesh.
Context {PD CD : Type}.
Implicit Types (m : mesh PD CD).

Lemma mapM_Raise {A B} (f : A → result B) (l : list A) e :
  mapM f l = Raise e → ∃ x, x ∈ l ∧ f x = Raise e.
Proof.
  induction l as [|x l IH]; simpl; [done|].
  destruct (f x) as [y|e'] eqn:Hfx; simpl.
  - destruct (mapM f l) as [k|e'] eqn:Hl; simpl; [done|].
    intros [= ->]. destruct (IH eq_refl) as (x' & Hin & Hx').
    exists x'. split; [by right|done].
  - intros [= ->]. exists x. split; [left|done].
Qed.

Lemma bind_Raise {A B} (f : A → result B) (c : result A) e :
  c ≫= f = Raise e → c = Raise e ∨ ∃ a, c = Ok a ∧ f a = Raise e.
Proof.
  destruct c as [a|e']; simpl; intros H; [right; exists a; by split|].
  left. by injection H as ->.
Qed.

Lemma np_take_Raise {A} (a : list A) idx e :
  np_take a idx = Raise e → e = IndexError.
Proof.
  intros (i & _ & Hi)%mapM_Raise. unfold subscript in Hi.
  destruct (a !! i); congruence.
Qed.

(** The pruner raises nothing but numpy's own two exceptions. *)
Lemma prune_vertices_Raise m e :
  prune_vertices m = Raise e → e = ValueError ∨ e = IndexError.
Proof.
  unfold prune_vertices.
  intros [Hflat|(flat & _ & [Hcat|(nc & _ & Hrest)]%bind_Raise)]%bind_Raise.
  - apply mapM_Raise in Hflat as (c & _ & Hc). unfold np_concatenate in Hc.
    destruct (rows (data c)); [left|]; congruence.
  - unfold np_concatenate in Hcat. destruct flat; [left|]; congruence.
  - simpl in Hrest.
    apply bind_Raise in Hrest as [Hrows|(rows' & _ & [Hpd|(pd' & _ & ?)]%bind_Raise)].
    + right. by eapply np_take_Raise.
    + right. unfold index_point_data in Hpd.
      apply mapM_Raise in Hpd as (kv & _ & [Hkv|(arr & _ & ?)]%bind_Raise);
        [by eapply np_take_Raise|done].
    + done.
Qed.

Lemma prune_vertices_no_cells m :
  cells m = [] → prune_vertices m = Raise ValueError.
Proof. intros Hnil. unfold prune_vertices. by rewrite Hnil. Qed.

Lemma cells_prune_z_0 m : cells (prune_z_0 m) = cells m.
Proof. unfold prune_z_0. by destruct (_ && _). Qed.

(** C9 (as amended).  The pipeline never signals [EmptyResultError].
    The filter keeps a block whenever the mesh has one; on a mesh
    without blocks the pipeline without pruning returns a mesh without
    blocks and says nothing, and with pruning it fails with numpy's
    [ValueError]. *)
Theorem process_empty_results (remove_lower prune_v prune_z : bool) m :
  process remove_lower prune_v prune_z m ≠ Raise EmptyResultError ∧
  (cells m ≠ [] → cells (remove_lower_dim_cells m) ≠ []) ∧
  (cells m = [] →
     (∃ m', process remove_lower false prune_z m = Ok m' ∧ cells m' = []) ∧
     process remove_lower true prune_z m = Raise ValueError).
Proof.
  split; [|split].
  - unfold process. intros [Hp|(m2 & _ & ?)]%bind_Raise; [|done].
    destruct prune_v; [|done].
    by apply prune_vertices_Raise in Hp as [?|?].
  - apply remove_lower_dim_cells_nonempty.
  - intros Hnil.
    assert (cells (if remove_lower then remove_lower_dim_cells m else m) = [])
      as Hnil1.
    { destruct remove_lower; [|done]. simpl. by rewrite Hnil. }
    split.
    + unfold process. simpl. eexists. split; [done|].
      destruct prune_z; [|done]. by rewrite cells_prune_z_0.
    + unfold process. by rewrite prune_vertices_no_cells.
Qed.

End mesh_empty.

Lemma process_empty_results_witness :
  let m : Mesh.mesh nat nat := Mesh.Mesh (Mesh.Arr2 3 [[0; 0; 0]%Q]) [] [] [] in
  (∃ m', Mesh.process true false false m = Ok m' ∧ Mesh.cells m' = []) ∧
  Mesh.process true true false m = Raise ValueError.
Proof.
  intros m. destruct (process_empty_results true true false m) as (_ & _ & H).
  by apply H.
Defined.

(** C9 as stated fails: a mesh without cell blocks passes the filter and
    comes back with zero blocks and no error; with pruning the error is
    numpy's [ValueError]. *)
Lemma process_empty_silent :
  let m : Mesh.mesh nat nat := Mesh.Mesh (Mesh.Arr2 3 [[0; 0; 0]%Q]) [] [] [] in
  Mesh.cells (Mesh.remove_lower_dim_cells m) = [] ∧
  Mesh.process true false false m = Ok m ∧
  Mesh.process true false false m ≠ Raise EmptyResultError ∧
  Mesh.process true true false m ≠ Raise EmptyResultError.
Proof. repeat split; vm_compute; discriminate. Qed.


(** ** What a call of [orient_lines] leaves untouched *)

Section store_frame.
Import Store.
Variable h0 : heap.
Implicit Types (l : loc) (o : obj).

Lemma bind_run {A B} (p : prog A) (f : A → prog B) h :
  (p ≫= f) h = match p h with
               | (Ok a, h') => f a h'
               | (Raise e, h') => (Raise e, h')
               end.
Proof. done. Qed.

Lemma keeps_ret {A} (a : A) (Q : A → Prop) : Q a → keeps h0 (mret a) Q.
Proof. intros HQ k. split; [by exists k|]. by intros a' [= <-]. Qed.

Lemma keeps_weaken {A} (p : prog A) (Q Q' : A → Prop) :
  keeps h0 p Q → (∀ a, Q a → Q' a) → keeps h0 p Q'.
Proof.
  intros Hp HQ k. destruct (Hp k) as [Hk Ha]. split; [done|]. auto.
Qed.

Lemma keeps_bind {A B} (p : prog A) (f : A → prog B) Q Q' :
  keeps h0 p Q → (∀ a, Q a → keeps h0 (f a) Q') → keeps h0 (p ≫= f) Q'.
Proof.
  intros Hp Hf k. rewrite bind_run. destruct (Hp k) as [[k1 Hk1] Ha].
  destruct (p (h0 ++ k)) as [[a|e] h1]; simpl in *; subst.
  - apply (Hf a); auto.
  - split; [by exists k1|done].
Qed.

Lemma keeps_lift {A} (r : result A) : keeps h0 (lift r) (λ _, True).
Proof. intros k. split; [by exists k|done]. Qed.

Lemma keeps_read_list l : keeps h0 (read_list l) (λ _, True).
Proof. intros k. split; [by exists k|done]. Qed.
Lemma keeps_read_line l : keeps h0 (read_line l) (λ _, True).
Proof. intros k. split; [by exists k|done]. Qed.
Lemma keeps_read_pairs l : keeps h0 (read_pairs l) (λ _, True).
Proof. intros k. split; [by exists k|done]. Qed.
Lemma keeps_read_ints l : keeps h0 (read_ints l) (λ _, True).
Proof. intros k. split; [by exists k|done]. Qed.
Lemma keeps_read_bools l : keeps h0 (read_bools l) (λ _, True).
Proof. intros k. split; [by exists k|done]. Qed.

(** A new object lies behind the objects of [h0]. *)
Lemma keeps_alloc o : keeps h0 (alloc o) (λ l, length h0 ≤ l).
Proof.
  intros k. unfold alloc. simpl. split.
  - exists (k ++ [o]). by rewrite app_assoc.
  - intros a [= <-]. rewrite length_app. lia.
Qed.

(** Writing behind [h0] leaves [h0] as it is. *)
Lemma keeps_write l o : length h0 ≤ l → keeps h0 (write l o) (λ _, True).
Proof.
  intros Hl k. unfold write. simpl. split; [|done].
  exists (<[l - length h0 := o]> k). by apply insert_app_r_alt.
Qed.

Lemma keeps_mapM {A B} (f : A → prog B) (xs : list A) :
  (∀ x, keeps h0 (f x) (λ _, True)) → keeps h0 (mapM f xs) (λ _, True).
Proof.
  intros Hf. induction xs as [|x xs IH]; simpl; [by apply keeps_ret|].
  eapply keeps_bind; [apply Hf|]. intros y _.
  eapply keeps_bind; [apply IH|]. intros ys _. by apply keeps_ret.
Qed.

Lemma keeps_for_each (js : list nat) (body : nat → prog unit) :
  (∀ j, keeps h0 (body j) (λ _, True)) → keeps h0 (for_each js body) (λ _, True).
Proof.
  intros Hb. induction js as [|j js IH]; simpl; [by apply keeps_ret|].
  eapply keeps_bind; [apply Hb|]. intros _ _. apply IH.
Qed.

Lemma keeps_neg_line l : keeps h0 (neg_line l) (λ _, True).
Proof.
  eapply keeps_bind; [apply keeps_read_line|]. intros ln _.
  eapply keeps_weaken; [apply keeps_alloc|done].
Qed.

(** An iteration writes the three arrays only. *)
Lemma keeps_step ppi order oriented j :
  length h0 ≤ ppi → length h0 ≤ order → length h0 ≤ oriented →
  keeps h0 (step ppi order oriented j) (λ _, True).
Proof.
  intros Hp Ho Hb. unfold step.
  eapply keeps_bind; [apply keeps_read_pairs|]. intros a _.
  eapply keeps_bind; [apply keeps_lift|]. intros prev _.
  eapply (keeps_bind _ _ (λ _, True)).
  { case_decide; [|by apply keeps_ret].
    eapply keeps_bind; [by apply keeps_write|]. intros _ _.
    eapply keeps_bind; [apply keeps_read_bools|]. intros o _.
    eapply keeps_bind; [by apply keeps_write|]. intros _ _.
    by apply keeps_ret. }
  intros wh _.
  eapply keeps_bind; [apply keeps_lift|]. intros k _.
  eapply keeps_bind; [apply keeps_read_pairs|]. intros a' _.
  eapply keeps_bind; [by apply keeps_write|]. intros _ _.
  eapply keeps_bind; [apply keeps_read_ints|]. intros o _.
  by apply keeps_write.
Qed.

Lemma keeps_orient_lines lines :
  keeps h0 (orient_lines lines) (λ out, length h0 ≤ out).
Proof.
  unfold orient_lines.
  eapply keeps_bind; [apply keeps_read_list|]. intros items _.
  eapply (keeps_bind _ _ (λ _, True)).
  { apply keeps_mapM. intros l.
    eapply keeps_bind; [apply keeps_read_line|]. intros ln _. by apply keeps_ret. }
  intros pairs _.
  eapply keeps_bind; [apply keeps_alloc|]. intros ppi Hppi.
  eapply keeps_bind; [apply keeps_alloc|]. intros order Horder.
  eapply keeps_bind; [apply keeps_alloc|]. intros oriented Horiented.
  eapply (keeps_bind _ _ (λ _, True)).
  { apply keeps_for_each. intros j. by apply keeps_step. }
  intros _ _.
  eapply keeps_bind; [apply keeps_read_ints|]. intros ord _.
  eapply keeps_bind; [apply keeps_lift|]. intros items1 _.
  eapply keeps_bind; [apply keeps_alloc|]. intros lines1 _.
  eapply keeps_bind; [apply keeps_read_bools|]. intros ori _.
  eapply (keeps_bind _ _ (λ _, True)).
  { apply keeps_mapM. intros j. unfold pick.
    eapply keeps_bind; [apply keeps_lift|]. intros l _.
    eapply keeps_bind; [apply keeps_lift|]. intros b _.
    destruct b; [by apply keeps_ret|apply keeps_neg_line]. }
  intros items2 _. apply keeps_alloc.
Qed.

End store_frame.

(** C10.  Whatever the store and the argument, and whether the call
    returns or raises, every object that was in the store before the call
    of [orient_lines] is in it afterwards, unchanged: the input list, the
    order of its elements, and every input segment with its stored
    endpoint pair.  A returned list is a new object. *)
Theorem orient_lines_frame (h : Store.heap) (lines : Store.loc) :
  (∀ l o, h !! l = Some o → (Store.orient_lines lines h).2 !! l = Some o) ∧
  (∀ out, (Store.orient_lines lines h).1 = Ok out → length h ≤ out).
Proof.
  destruct (keeps_orient_lines h lines []) as [[k' Hk'] Hout].
  rewrite app_nil_r in *. split; [|done].
  intros l o Hl. rewrite Hk'. by apply lookup_app_l_Some.
Qed.

(** ** The store reading computes what the value reading computes *)

Section store_refines.
Import Store.
Implicit Types (h : heap) (items : list loc) (ls : list Line).

Lemma bind_run_Ok {A B} (p : prog A) (f : A → prog B) h a h' :
  p h = (Ok a, h') → (p ≫= f) h = f a h'.
Proof. intros Hp. by rewrite bind_run, Hp. Qed.

Lemma bind_run_Raise {A B} (p : prog A) (f : A → prog B) h e h' :
  p h = (Raise e, h') → (p ≫= f) h = (Raise e, h').
Proof. intros Hp. by rewrite bind_run, Hp. Qed.

Lemma ret_run {A} (a : A) h : (mret a : prog A) h = (Ok a, h).
Proof. done. Qed.

Lemma holds_app h k items ls : holds h items ls → holds (h ++ k) items ls.
Proof.
  intros H. eapply Forall2_impl; [exact H|]. intros l ln Hl.
  by apply lookup_app_l_Some.
Qed.

Lemma read_points h items ls :
  holds h items ls →
  mapM (λ l, ln ← read_line l; mret (points ln)) items h = (Ok (points <$> ls), h).
Proof.
  induction 1 as [|l ln items ls Hl _ IH]; [done|]. simpl.
  rewrite (bind_run_Ok _ _ h (points ln) h).
  - by rewrite (bind_run_Ok _ _ h _ h IH).
  - rewrite (bind_run_Ok _ _ h ln h); [done|]. unfold read_line. by rewrite Hl.
Qed.

Lemma lookup_arrays h s :
  with_arrays h s !! length h = Some (OPairs (Orient.point_pair_ids s)) ∧
  with_arrays h s !! (length h + 1) = Some (OInts (Orient.order s)) ∧
  with_arrays h s !! (length h + 2) = Some (OBools (Orient.oriented s)).
Proof.
  unfold with_arrays. repeat split.
  - by rewrite list_lookup_middle.
  - rewrite lookup_app_r by lia. by replace (length h + 1 - length h) with 1 by lia.
  - rewrite lookup_app_r by lia. by replace (length h + 2 - length h) with 2 by lia.
Qed.

Lemma write_pairs_arrays h a o b a' :
  write (length h) (OPairs a') (with_arrays h (Orient.St a o b))
  = (Ok (), with_arrays h (Orient.St a' o b)).
Proof.
  unfold write, with_arrays. rewrite insert_app_r_alt by lia.
  by rewrite Nat.sub_diag.
Qed.

Lemma write_ints_arrays h a o b o' :
  write (length h + 1) (OInts o') (with_arrays h (Orient.St a o b))
  = (Ok (), with_arrays h (Orient.St a o' b)).
Proof.
  unfold write, with_arrays. rewrite insert_app_r_alt by lia.
  by replace (length h + 1 - length h) with 1 by lia.
Qed.

Lemma write_bools_arrays h a o b b' :
  write (length h + 2) (OBools b') (with_arrays h (Orient.St a o b))
  = (Ok (), with_arrays h (Orient.St a o b')).
Proof.
  unfold write, with_arrays. rewrite insert_app_r_alt by lia.
  by replace (length h + 2 - length h) with 2 by lia.
Qed.

Lemma read_arrays h s :
  read_pairs (length h) (with_arrays h s)
    = (Ok (Orient.point_pair_ids s), with_arrays h s) ∧
  read_ints (length h + 1) (with_arrays h s)
    = (Ok (Orient.order s), with_arrays h s) ∧
  read_bools (length h + 2) (with_arrays h s)
    = (Ok (Orient.oriented s), with_arrays h s).
Proof.
  destruct (lookup_arrays h s) as (H0 & H1 & H2).
  unfold read_pairs, read_ints, read_bools. by rewrite H0, H1, H2.
Qed.

(** The swap at the end of an iteration. *)
Lemma swap_arrays h a o b j k :
  (a ← read_pairs (length h);
   write (length h) (OPairs (Np.swap j k a));;
   o ← read_ints (length h + 1);
   write (length h + 1) (OInts (Np.swap j k o))) (with_arrays h (Orient.St a o b))
  = (Ok (), with_arrays h (Orient.St (Np.swap j k a) (Np.swap j k o) b)).
Proof.
  rewrite (bind_run_Ok _ _ _ _ _ (proj1 (read_arrays h _))). cbv beta.
  rewrite (bind_run_Ok _ _ _ _ _ (write_pairs_arrays h _ _ _ _)).
  rewrite (bind_run_Ok _ _ _ _ _ (proj1 (proj2 (read_arrays h _)))). cbv beta.
  apply write_ints_arrays.
Qed.

(** The flip of the unplaced rows and of their flags. *)
Lemma flip_arrays {A} h a o b j (wh : A) :
  (write (length h) (OPairs (Np.map_from flip j a));;
   o ← read_bools (length h + 2);
   write (length h + 2) (OBools (Np.map_from negb j o));;
   mret wh) (with_arrays h (Orient.St a o b))
  = (Ok wh, with_arrays h (Orient.St (Np.map_from flip j a) o
                                     (Np.map_from negb j b))).
Proof.
  rewrite (bind_run_Ok _ _ _ _ _ (write_pairs_arrays h _ _ _ _)).
  rewrite (bind_run_Ok _ _ _ _ _ (proj2 (proj2 (read_arrays h _)))). cbv beta.
  rewrite (bind_run_Ok _ _ _ _ _ (write_bools_arrays h _ _ _ _)). done.
Qed.

(** An iteration over the store is an iteration over the arrays. *)
Lemma step_refines h j s :
  ∃ s', Store.step (length h) (length h + 1) (length h + 2) j (with_arrays h s)
        = (outcome (Orient.step j s), with_arrays h s') ∧
        ∀ s1, Orient.step j s = Ok s1 → s' = s1.
Proof.
  destruct s as [a o b]. unfold Store.step, Orient.step.
  cbv beta zeta. cbn [Orient.point_pair_ids Orient.order Orient.oriented].
  rewrite (bind_run_Ok _ _ _ _ _ (proj1 (read_arrays h _))).
  cbn [Orient.point_pair_ids]. rewrite bind_run. unfold lift at 1.
  destruct (subscript a (j - 1)) as [prev|e]; [|simpl; eexists; split; [reflexivity|intros ? [=]]].
  cbn [mbind result_bind].
  destruct (decide (length (Orient.candidates fst j a prev.2) = 0)) as [He|Hne].
  - rewrite (bind_run_Ok _ _ _ _ _ (flip_arrays h _ _ _ _ _)).
    rewrite bind_run. unfold lift at 1.
    destruct (subscript (Orient.candidates snd j a prev.2) 0) as [k|e];
      [|simpl; eexists; split; [reflexivity|intros ? [=]]].
    cbn [mbind result_bind outcome]. rewrite swap_arrays.
    eexists. split; [done|]. by intros s1 [= <-].
  - rewrite (bind_run_Ok _ _ _ _ _ (ret_run _ _)).
    rewrite bind_run. unfold lift at 1.
    destruct (subscript (Orient.candidates fst j a prev.2) 0) as [k|e];
      [|simpl; eexists; split; [reflexivity|intros ? [=]]].
    cbn [mbind result_bind outcome]. rewrite swap_arrays.
    eexists. split; [done|]. by intros s1 [= <-].
Qed.

Lemma for_each_refines h js s :
  ∃ s', for_each js (Store.step (length h) (length h + 1) (length h + 2))
                 (with_arrays h s)
        = (outcome (Orient.loop js s), with_arrays h s') ∧
        ∀ s1, Orient.loop js s = Ok s1 → s' = s1.
Proof.
  revert s. induction js as [|j js IH]; intros s; simpl.
  - exists s. split; [done|]. by intros s1 [= <-].
  - destruct (step_refines h j s) as (s1 & Hstep & Hs1).
    rewrite bind_run, Hstep.
    destruct (Orient.step j s) as [s2|e]; simpl; [|eexists; split; [reflexivity|intros ? [=]]].
    rewrite (Hs1 s2 eq_refl). apply IH.
Qed.

Lemma subscript_holds h items ls (o : nat) :
  holds h items ls →
  match subscript items o with
  | Ok l => ∃ ln, subscript ls o = Ok ln ∧ h !! l = Some (OLine ln)
  | Raise e => subscript ls o = Raise e
  end.
Proof.
  intros Hh. unfold subscript.
  destruct (items !! o) as [l|] eqn:Hl.
  - destruct (Forall2_lookup_l _ _ _ _ _ Hh Hl) as (ln & -> & Hln). eauto.
  - apply lookup_ge_None in Hl. rewrite (Forall2_length _ _ _ Hh) in Hl.
    by rewrite (lookup_ge_None_2 ls o).
Qed.

Lemma reorder_holds h items ls (ord : list nat) :
  holds h items ls →
  match mapM (subscript items) ord with
  | Ok items1 => ∃ ls1, mapM (subscript ls) ord = Ok ls1 ∧ holds h items1 ls1
  | Raise e => mapM (subscript ls) ord = Raise e
  end.
Proof.
  intros Hh. induction ord as [|o ord IH]; simpl.
  - exists []. split; [done|constructor].
  - pose proof (subscript_holds h items ls o Hh) as Ho.
    destruct (subscript items o) as [l|e]; simpl.
    + destruct Ho as (ln & -> & Hln). simpl.
      destruct (mapM (subscript items) ord) as [items1|e]; simpl.
      * destruct IH as (ls1 & -> & Hls1). simpl. eexists. split; [done|].
        by constructor.
      * by rewrite IH.
    + by rewrite Ho.
Qed.

Lemma pick_refines items1 ls1 ori js h :
  holds h items1 ls1 →
  ∃ k r, mapM (pick items1 ori) js h = (r, h ++ k) ∧
    match r with
    | Ok items2 => ∃ ls2, mapM (pick_value ls1 ori) js = Ok ls2 ∧
                          holds (h ++ k) items2 ls2
    | Raise e => mapM (pick_value ls1 ori) js = Raise e
    end.
Proof.
  revert h. induction js as [|j js IH]; intros h Hh; simpl.
  - exists [], (Ok []). rewrite app_nil_r. split; [done|].
    exists []. split; [done|constructor].
  - rewrite bind_run. unfold pick at 1.
    rewrite bind_run. unfold lift at 1.
    pose proof (subscript_holds h items1 ls1 j Hh) as Hj.
    destruct (subscript items1 j) as [l|e]; cbn [fst snd].
    { destruct Hj as (ln & Hsub & Hln).
      rewrite bind_run. unfold lift at 1.
      destruct (subscript ori j) as [b|e] eqn:Hb; cbn [fst snd].
      - assert (pick_value ls1 ori j = Ok (Orient.signed b ln)) as ->.
        { unfold pick_value. by rewrite Hsub, Hb. }
        assert (∃ k1 y, (if b then mret l else neg_line l) h = (Ok y, h ++ k1) ∧
                        (h ++ k1) !! y = Some (OLine (Orient.signed b ln)))
          as (k1 & y & -> & Hy).
        { destruct b.
          - exists [], l. rewrite app_nil_r. by split.
          - exists [OLine (neg ln)], (length h). split.
            + unfold neg_line. rewrite bind_run. unfold read_line. by rewrite Hln.
            + by rewrite list_lookup_middle. }
        rewrite bind_run.
        destruct (IH (h ++ k1) (holds_app h k1 _ _ Hh)) as (k & r & -> & Hr).
        destruct r as [items2|e].
        + destruct Hr as (ls2 & -> & Hls2).
          exists (k1 ++ k), (Ok (y :: items2)). rewrite app_assoc. split; [done|].
          eexists. split; [done|]. constructor; [|done].
          by apply lookup_app_l_Some.
        + rewrite Hr. exists (k1 ++ k), (Raise e). by rewrite app_assoc.
      - assert (pick_value ls1 ori j = Raise e) as ->.
        { unfold pick_value. by rewrite Hsub, Hb. }
        exists [], (Raise e). by rewrite app_nil_r. }
    assert (pick_value ls1 ori j = Raise e) as ->.
    { unfold pick_value. by rewrite Hj. }
    exists [], (Raise e). by rewrite app_nil_r.
Qed.

(** The store reading of [orient_lines] extends the store, and returns
    a list of the segments that the value reading returns, or raises
    what the value reading raises. *)
Lemma orient_lines_refines h lines items ls :
  h !! lines = Some (OList items) → holds h items ls →
  ∃ k r, Store.orient_lines lines h = (r, h ++ k) ∧
    match r with
    | Ok out => ∃ items' ls', (h ++ k) !! out = Some (OList items') ∧
                              holds (h ++ k) items' ls' ∧
                              Orient.orient_lines ls = Ok ls'
    | Raise e => Orient.orient_lines ls = Raise e
    end.
Proof.
  intros Hlines Hh. unfold Store.orient_lines, Orient.orient_lines.
  rewrite (bind_run_Ok _ _ h items h) by (unfold read_list; by rewrite Hlines).
  rewrite (bind_run_Ok _ _ _ _ _ (read_points h items ls Hh)).
  set (P := points <$> ls).
  rewrite (bind_run_Ok _ _ h (length h) (h ++ [OPairs P])) by done.
  rewrite (bind_run_Ok _ _ _ (length h + 1)
             ((h ++ [OPairs P]) ++ [OInts (seq 0 (length P))]))
    by (unfold alloc; by rewrite length_app).
  rewrite (bind_run_Ok _ _ _ (length h + 2) (with_arrays h (Orient.init P))).
  2:{ unfold alloc, with_arrays, Orient.init. simpl.
      rewrite !length_app, <- !app_assoc. simpl. do 2 f_equal. lia. }
  destruct (for_each_refines h (seq 1 (length P - 1)) (Orient.init P))
    as (s' & Hloop & Hs').
  rewrite bind_run, Hloop. fold (Orient.run P).
  destruct (Orient.run P) as [s|e] eqn:Hrun; cbn [outcome mbind result_bind].
  2:{ eexists _, (Raise e). split; [reflexivity|done]. }
  rewrite (Hs' s Hrun). clear Hloop Hs' s'.
  rewrite (bind_run_Ok _ _ _ _ _ (proj1 (proj2 (read_arrays h s)))).
  rewrite bind_run. unfold lift at 1.
  pose proof (reorder_holds h items ls (Orient.order s) Hh) as Hre.
  destruct (mapM (subscript items) (Orient.order s)) as [items1|e].
  2:{ rewrite Hre. eexists _, (Raise e). split; [reflexivity|done]. }
  destruct Hre as (ls1 & -> & Hls1). cbn [mbind result_bind].
  set (H1 := with_arrays h s ++ [OList items1]).
  rewrite (bind_run_Ok _ _ _ (length (with_arrays h s)) H1) by done.
  rewrite (bind_run_Ok _ _ H1 (Orient.oriented s) H1).
  2:{ unfold read_bools, H1. rewrite lookup_app_l.
      - by rewrite (proj2 (proj2 (lookup_arrays h s))).
      - unfold with_arrays. rewrite length_app. simpl. lia. }
  assert (holds H1 items1 ls1) as Hh1.
  { unfold H1, with_arrays. by do 2 apply holds_app. }
  destruct (pick_refines items1 ls1 (Orient.oriented s)
              (seq 0 (length (Orient.oriented s))) H1 Hh1) as (k & r & Hpick & Hr).
  rewrite bind_run, Hpick.
  assert (∀ k', ∃ k'', H1 ++ k' = h ++ k'') as Hext.
  { intros k'. unfold H1, with_arrays. rewrite <- !app_assoc. eauto. }
  destruct r as [items2|e].
  - destruct Hr as (ls2 & Hls2 & Hh2).
    destruct (Hext (k ++ [OList items2])) as [k'' Hk''].
    exists k'', (Ok (length (H1 ++ k))). unfold alloc.
    rewrite <- Hk'', app_assoc. split; [done|].
    exists items2, ls2. split; [by rewrite list_lookup_middle|].
    split; [by apply holds_app|]. exact Hls2.
  - destruct (Hext k) as [k'' Hk'']. exists k'', (Raise e).
    rewrite <- Hk''. split; [done|]. exact Hr.
Qed.

End store_refines.

(** * Further properties *)

(** ** [orient_lines] on every input *)
Section orient_further.
Import Orient.
Implicit Types (lines : list Line) (P : list (Z * Z)) (s : state).

(** An iteration whose row [j] already continues row [j - 1] changes
    nothing. *)
Lemma step_in_place j s prev r :
  point_pair_ids s !! (j - 1) = Some prev →
  point_pair_ids s !! j = Some r → r.1 = prev.2 →
  step j s = Ok s.
Proof.
  intros Hprev Hr Hcol. rewrite step_eq.
  rewrite (proj2 (subscript_Ok _ _ _) Hprev). simpl.
  assert (found j (point_pair_ids s) prev.2 = true) as ->.
  { apply found_spec. exists r. split; [|done].
    apply list_elem_of_lookup. exists 0. by rewrite lookup_drop, Nat.add_0_r. }
  assert (candidates fst j (point_pair_ids s) prev.2 !! 0 = Some j) as Hk.
  { apply candidates_head. split; [done|]. split; [by exists r|]. intros; lia. }
  rewrite (proj2 (subscript_Ok _ _ _) Hk). simpl.
  rewrite !swap_same. by destruct s.
Qed.

Lemma loop_in_place P n j :
  chained P → 1 ≤ j → n ≤ length P - j →
  loop (seq j n) (init P) = Ok (init P).
Proof.
  intros Hch. revert j. induction n as [|n IH]; intros j Hj Hn; simpl; [done|].
  destruct (lookup_lt_is_Some_2 P (j - 1)) as [prev Hprev]; [lia|].
  destruct (lookup_lt_is_Some_2 P j) as [r Hr]; [lia|].
  rewrite (step_in_place j (init P) prev r); simpl; try done.
  - apply IH; lia.
  - symmetry. apply (Hch (j - 1)); [done|]. by replace (S (j - 1)) with j by lia.
Qed.

(** The rows at the end of a run are the stored pairs of the returned
    segments, each in the direction of its flag. *)
Lemma rows_of_output lines s perm j :
  Inv (points <$> lines) j s →
  mapM (subscript lines) (order s) = Ok perm →
  point_pair_ids s = zip_with dir (oriented s) (points <$> perm).
Proof.
  intros HI Hperm. apply mapM_Ok in Hperm.
  apply list_eq. intros i. rewrite lookup_zip_with, list_lookup_fmap.
  destruct (oriented s !! i) as [b|] eqn:Hb; simpl.
  - assert (i < length (order s)) as Hi.
    { rewrite (inv_len_order _ _ _ HI), <- (inv_len_ori _ _ _ HI).
      by eapply lookup_lt_Some. }
    destruct (lookup_lt_is_Some_2 _ _ Hi) as [o Ho].
    destruct (Forall2_lookup_l _ _ _ _ _ Hperm Ho) as (l & Hl & Hlo%subscript_Ok).
    rewrite (inv_rows _ _ _ HI i o b Ho Hb), Hl, list_lookup_fmap, Hlo. done.
  - apply lookup_ge_None.
    rewrite (inv_len_ppi _ _ _ HI), <- (inv_len_ori _ _ _ HI).
    by apply lookup_ge_None.
Qed.

(** The first failing iteration of a loop that raises. *)
Lemma loop_Raise n j s e :
  loop (seq j n) s = Raise e →
  ∃ m s', m < n ∧ loop (seq j m) s = Ok s' ∧ step (j + m) s' = Raise e.
Proof.
  revert j s. induction n as [|n IH]; intros j s; simpl; [done|].
  destruct (step j s) as [s1|e1] eqn:Hstep; simpl.
  - intros (m & s' & Hm & Hloop & Hs')%IH.
    exists (S m), s'. split; [lia|]. simpl. rewrite Hstep. simpl.
    split; [done|]. by replace (j + S m) with (S j + m) by lia.
  - intros [= ->]. exists 0, s. split; [lia|]. by rewrite Nat.add_0_r.
Qed.

Lemma signed_signed b l : signed b (signed b l) = l.
Proof. destruct b, l as [p sg]; [done|]. unfold signed, neg. simpl. by rewrite negb_involutive. Qed.

Lemma zip_with_signed_signed (flips : list bool) (ls : list Line) :
  length flips = length ls →
  zip_with signed flips (zip_with signed flips ls) = ls.
Proof.
  revert ls. induction flips as [|b flips IH]; intros [|l ls]; simpl; try done.
  intros [= Hlen]. by rewrite signed_signed, IH.
Qed.

Lemma zip_with_signed_neg (flips : list bool) (ls : list Line) :
  zip_with signed flips (neg <$> ls) = neg <$> zip_with signed flips ls.
Proof.
  revert ls. induction flips as [|b flips IH]; intros [|l ls]; simpl; try done.
  rewrite IH. by destruct b.
Qed.

(** X1.  An input whose stored pairs are already chained in the given
    order (the stored head of every segment is the stored tail of the
    next one) is returned as it is: same order, no segment negated.
    Whether the last segment leads back to the first is not looked at;
    in particular the empty list and a single segment are returned
    unchanged. *)
Theorem orient_lines_chained_unchanged lines :
  chained (points <$> lines) → orient_lines lines = Ok lines.
Proof.
  intros Hch.
  assert (run (points <$> lines) = Ok (init (points <$> lines))) as Hrun.
  { unfold run. apply loop_in_place; [done|lia|lia]. }
  destruct (orient_lines_of_run _ _ Hrun) as (perm & Hperm & _ & ->).
  apply mapM_subscript_omap in Hperm. simpl in Hperm.
  rewrite length_fmap, omap_lookup_seq in Hperm. subst perm.
  f_equal. simpl. apply zip_with_signed_id.
  - by rewrite length_replicate, length_fmap.
  - apply Forall_forall. by intros b [-> _]%elem_of_replicate.
Qed.

Lemma orient_lines_chained_unchanged_witness :
  let lines := [mkLine (0, 1)%Z true; mkLine (1, 2)%Z false; mkLine (2, 5)%Z true] in
  chained (points <$> lines) ∧ orient_lines lines = Ok lines.
Proof.
  assert (chained (points <$> [mkLine (0, 1)%Z true; mkLine (1, 2)%Z false;
                               mkLine (2, 5)%Z true])) as Hch.
  { intros [|[|[|i]]] x y; simpl; intros [= <-] [= <-]; done. }
  split; [exact Hch|]. exact (orient_lines_chained_unchanged _ Hch).
Defined.

(** X2.  Whenever [orient_lines] returns, on any input whatever with
    ids of the int64 range, the returned list holds the input segments in some order, some of them
    negated; it starts with the first input segment; the stored pairs
    of the returned segments, each read in the direction of its flag
    (as stored when the segment was kept, reversed when it was negated),
    are chained from the first to the last; and the undirected edges are
    those of the input.  The step from the last segment back to the
    first is not part of what a return guarantees. *)
Theorem orient_lines_returns_chain lines out :
  int64_ids (points <$> lines) →
  orient_lines lines = Ok out →
  ∃ perm flips,
    perm ≡ₚ lines ∧ length flips = length perm ∧
    out = zip_with signed flips perm ∧
    head out = head lines ∧
    chained (zip_with dir flips (points <$> perm)) ∧
    edges out ≡ₚ edges lines.
Proof.
  intros _ (s & perm & Hrun & Hperm & Hp & ->)%orient_lines_Ok.
  pose proof (run_Inv _ _ Hrun) as HI.
  assert (length (oriented s) = length perm) as Hlen.
  { rewrite (inv_len_ori _ _ _ HI), length_fmap. symmetry.
    by apply Permutation_length. }
  exists perm, (oriented s). repeat split; try done.
  - rewrite !head_lookup, lookup_zip_with.
    destruct lines as [|l0 lines'].
    { apply Permutation_nil_r in Hp as ->. by destruct (oriented s !! 0). }
    destruct (inv_first _ _ _ HI) as [Ho Hb]; [simpl; lia|].
    apply mapM_Ok in Hperm.
    destruct (Forall2_lookup_l _ _ _ _ _ Hperm Ho) as (l & Hl & Hlo%subscript_Ok).
    rewrite Hb, Hl. simpl in *. congruence.
  - rewrite <- (rows_of_output lines s perm _ HI Hperm).
    intros i x y Hx Hy. apply (inv_chain _ _ _ HI i x y); [|done|done].
    apply lookup_lt_Some in Hy. rewrite (inv_len_ppi _ _ _ HI) in Hy. lia.
  - rewrite edges_signed by done. unfold edges. by rewrite Hp.
Qed.

Lemma orient_lines_returns_chain_witness :
  let lines := [mkLine (0, 1)%Z true; mkLine (5, 2)%Z true; mkLine (2, 1)%Z true] in
  let out := [mkLine (0, 1)%Z true; mkLine (2, 1)%Z false; mkLine (5, 2)%Z false] in
  int64_ids (points <$> lines) ∧
  orient_lines lines = Ok out ∧
  ∃ perm flips,
    perm ≡ₚ lines ∧ length flips = length perm ∧
    out = zip_with signed flips perm ∧
    head out = head lines ∧
    chained (zip_with dir flips (points <$> perm)) ∧
    edges out ≡ₚ edges lines.
Proof.
  intros lines out.
  assert (int64_ids (points <$> lines)) as Hids
    by (apply (bool_decide_unpack _); vm_compute; exact I).
  split; [exact Hids|]. split; [reflexivity|].
  exact (orient_lines_returns_chain lines out Hids eq_refl).
Defined.

(** X3.  [orient_lines] raises nothing but the IndexError of an empty
    candidate array, and only at an iteration at which neither a stored
    tail nor a stored head among the unplaced rows is the id that is
    looked for; the comprehensions after the loop never raise. *)
Theorem orient_lines_raises_only_stuck lines e :
  orient_lines lines = Raise e →
  e = IndexError ∧
  ∃ j s prev,
    1 ≤ j < length lines ∧
    loop (seq 1 (j - 1)) (init (points <$> lines)) = Ok s ∧
    point_pair_ids s !! (j - 1) = Some prev ∧
    no_match fst j (point_pair_ids s) prev.2 ∧
    no_match snd j (point_pair_ids s) prev.2.
Proof.
  intros Hraise.
  destruct (run (points <$> lines)) as [s|e0] eqn:Hrun.
  { destruct (orient_lines_of_run _ _ Hrun) as (perm & _ & _ & Hok). congruence. }
  assert (e0 = e) as ->.
  { unfold orient_lines in Hraise. rewrite Hrun in Hraise. by injection Hraise. }
  unfold run in Hrun.
  apply loop_Raise in Hrun as (m & s & Hm & Hloop & Hstep).
  rewrite length_fmap in Hm.
  pose proof (loop_Inv _ _ 1 _ _ (le_n 1) (Inv_init _) Hloop) as HI.
  destruct (lookup_lt_is_Some_2 (point_pair_ids s) (1 + m - 1)) as [prev Hprev].
  { rewrite (inv_len_ppi _ _ _ HI), length_fmap. lia. }
  rewrite step_eq, (proj2 (subscript_Ok _ _ _) Hprev) in Hstep. simpl in Hstep.
  destruct (found (S m) (point_pair_ids s) prev.2) eqn:Hfound.
  { apply found_spec in Hfound as (r & Hr & Hcol).
    destruct (candidates_nonempty fst _ _ _ r Hr Hcol) as [k Hk].
    by rewrite (proj2 (subscript_Ok _ _ _) Hk) in Hstep. }
  rewrite <- candidates_flip in Hstep.
  unfold subscript in Hstep.
  destruct (candidates snd (S m) (point_pair_ids s) prev.2 !! 0) as [k|] eqn:Hk;
    [done|].
  split; [by injection Hstep|].
  exists (S m), s, prev. replace (S m - 1) with m by lia.
  split; [lia|]. split; [done|]. split; [by replace m with (1 + m - 1) at 1 by lia|].
  split; apply candidates_no_match.
  - unfold found in Hfound. apply bool_decide_eq_false in Hfound. lia.
  - apply lookup_ge_None in Hk. lia.
Qed.

Lemma orient_lines_raises_only_stuck_witness :
  let lines := [mkLine (0, 1)%Z true; mkLine (2, 3)%Z true] in
  orient_lines lines = Raise IndexError ∧
  ∃ j s prev,
    1 ≤ j < length lines ∧
    loop (seq 1 (j - 1)) (init (points <$> lines)) = Ok s ∧
    point_pair_ids s !! (j - 1) = Some prev ∧
    no_match fst j (point_pair_ids s) prev.2 ∧
    no_match snd j (point_pair_ids s) prev.2.
Proof.
  intros lines. split; [reflexivity|].
  exact (proj2 (orient_lines_raises_only_stuck lines IndexError eq_refl)).
Defined.

(** X4.  [orient_lines] does not look at the sign of its input: on the
    input with every segment negated it takes the same decisions, so it
    raises the same exception or returns the same list with every
    segment negated. *)
Theorem orient_lines_neg_input lines :
  orient_lines (neg <$> lines) = fmap (M := list) neg <$> orient_lines lines.
Proof.
  assert (points <$> (neg <$> lines) = points <$> lines) as HP.
  { rewrite <- list_fmap_compose. by apply list_fmap_ext. }
  destruct (run (points <$> lines)) as [s|e] eqn:Hrun.
  - destruct (orient_lines_of_run _ _ Hrun) as (perm & Hperm & _ & ->).
    rewrite <- HP in Hrun.
    destruct (orient_lines_of_run _ _ Hrun) as (perm' & Hperm' & _ & ->).
    simpl. f_equal. rewrite <- zip_with_signed_neg. f_equal.
    apply mapM_subscript_omap in Hperm, Hperm'. subst.
    induction (order s) as [|o os IH]; simpl; [done|].
    rewrite list_lookup_fmap. destruct (lines !! o); simpl; [f_equal|]; exact IH.
  - unfold orient_lines. by rewrite HP, Hrun.
Qed.

(** X5.  Applied to its own output, [orient_lines] undoes every negation
    of the first application and keeps the order; applied once more it
    gives the first output again.  So the outputs of repeated
    applications alternate between two lists, which are equal exactly
    when the first application negated nothing. *)
Theorem orient_lines_alternates lines out :
  orient_lines lines = Ok out →
  ∃ perm,
    perm ≡ₚ lines ∧ points <$> perm = points <$> out ∧
    orient_lines out = Ok perm ∧ orient_lines perm = Ok out.
Proof.
  intros (s & perm & Hrun & Hperm & Hp & ->)%orient_lines_Ok.
  pose proof (run_Inv _ _ Hrun) as HI.
  assert (length (oriented s) = length perm) as Hlen.
  { rewrite (inv_len_ori _ _ _ HI), length_fmap. symmetry.
    by apply Permutation_length. }
  set (out := zip_with signed (oriented s) perm).
  assert (points <$> perm = points <$> out) as Hpts.
  { unfold out. clear -Hlen. revert Hlen. generalize (oriented s) as flips.
    induction perm as [|l perm IH]; intros [|b flips]; simpl; try done.
    intros [= Hlen]. by rewrite points_signed, <- IH. }
  pose proof (points_output _ _ _ Hrun Hperm) as Hre. fold out in Hre.
  pose proof (run_replay _ _ Hrun) as Hrun2. rewrite <- Hre in Hrun2.
  assert (length out = length (points <$> lines)) as Hlo.
  { unfold out. rewrite length_zip_with, Hlen, Nat.min_id, length_fmap.
    by apply Permutation_length. }
  exists perm. split; [done|]. split; [done|]. split.
  - destruct (orient_lines_of_run _ _ Hrun2) as (p2 & Hp2 & _ & ->).
    simpl in *. apply mapM_subscript_omap in Hp2.
    rewrite <- Hlo, omap_lookup_seq in Hp2. subst p2.
    f_equal. by apply zip_with_signed_signed.
  - rewrite <- Hpts in Hrun2.
    destruct (orient_lines_of_run _ _ Hrun2) as (p2 & Hp2 & _ & ->).
    simpl in *. apply mapM_subscript_omap in Hp2.
    rewrite <- Hlo in Hp2. unfold out in Hp2 at 1.
    rewrite length_zip_with, Hlen, Nat.min_id, omap_lookup_seq in Hp2.
    by subst p2.
Qed.

Lemma orient_lines_alternates_witness :
  let lines := [mkLine (0, 1)%Z true; mkLine (2, 1)%Z true; mkLine (0, 2)%Z true] in
  let out := [mkLine (0, 1)%Z true; mkLine (2, 1)%Z false; mkLine (0, 2)%Z false] in
  orient_lines lines = Ok out ∧
  ∃ perm,
    perm ≡ₚ lines ∧ points <$> perm = points <$> out ∧
    orient_lines out = Ok perm ∧ orient_lines perm = Ok out.
Proof.
  intros lines out. split; [reflexivity|].
  exact (orient_lines_alternates lines out eq_refl).
Defined.

(** *** Renaming the point ids *)

Lemma where_from_inj (f : Z → Z) `{!Inj (=) (=) f} i inn out :
  Np.where_from i (f <$> inn) (f out) = Np.where_from i inn out.
Proof.
  revert i. induction inn as [|x inn IH]; intros i; simpl; [done|].
  rewrite IH.
  destruct (decide (f x = f out)) as [Hf|Hf], (decide (x = out)) as [Hx|Hx];
    try done.
  - by apply (inj f) in Hf.
  - by subst.
Qed.

Lemma candidates_rename (f : Z → Z) `{!Inj (=) (=) f} (col : Z * Z → Z)
    j ppi out :
  (∀ p, col (prod_map f f p) = f (col p)) →
  candidates col j (prod_map f f <$> ppi) (f out) = candidates col j ppi out.
Proof.
  intros Hcol. unfold candidates, Np.where_eq. f_equal.
  rewrite <- fmap_drop, <- list_fmap_compose.
  rewrite <- (where_from_inj f 0 (col <$> drop j ppi) out).
  f_equal. rewrite <- list_fmap_compose. apply list_fmap_ext.
  intros ? p _. apply Hcol.
Qed.

Lemma swap_fmap {A B} (g : A → B) j k (a : list A) :
  Np.swap j k (g <$> a) = g <$> Np.swap j k a.
Proof.
  unfold Np.swap. rewrite !list_lookup_fmap.
  destruct (a !! j) as [aj|], (a !! k) as [ak|]; simpl; try done.
  by rewrite !list_fmap_insert.
Qed.

Lemma map_from_rename (f : Z → Z) j ppi :
  Np.map_from flip j (prod_map f f <$> ppi)
  = prod_map f f <$> Np.map_from flip j ppi.
Proof.
  unfold Np.map_from. rewrite fmap_app, <- fmap_take, <- fmap_drop. f_equal.
  rewrite <- !list_fmap_compose. apply list_fmap_ext. by intros ? [x y] _.
Qed.

Lemma step_rename (f : Z → Z) `{!Inj (=) (=) f} j s :
  step j (rename_state f s) = rename_state f <$> step j s.
Proof.
  unfold step, rename_state, subscript. simpl. rewrite list_lookup_fmap.
  destruct (point_pair_ids s !! (j - 1)) as [prev|]; simpl; [|done].
  rewrite !candidates_rename by done.
  destruct (decide (length (candidates fst j (point_pair_ids s) prev.2) = 0)).
  - destruct (candidates snd j (point_pair_ids s) prev.2 !! 0) as [k|]; simpl;
      [|done].
    by rewrite map_from_rename, swap_fmap.
  - destruct (candidates fst j (point_pair_ids s) prev.2 !! 0) as [k|]; simpl;
      [|done].
    by rewrite swap_fmap.
Qed.

Lemma loop_rename (f : Z → Z) `{!Inj (=) (=) f} js s :
  loop js (rename_state f s) = rename_state f <$> loop js s.
Proof.
  revert s. induction js as [|j js IH]; intros s; simpl; [done|].
  rewrite step_rename by done.
  destruct (step j s) as [s1|e]; simpl; [apply IH|done].
Qed.

(** X15.  [orient_lines] uses the point ids only to compare them: for
    an injective renaming of the ids, with the ids of the input and the
    renamed ids in the int64 range, the call on the renamed input
    raises when the call on the input raises, and otherwise returns the
    renamed result (same order, same negated segments). *)
Theorem orient_lines_rename (f : Z → Z) lines :
  Inj (=) (=) f →
  int64_ids (points <$> lines) →
  int64_ids (points <$> (rename f <$> lines)) →
  orient_lines (rename f <$> lines)
  = fmap (M := list) (rename f) <$> orient_lines lines.
Proof.
  intros Hinj _ _.
  assert (run (points <$> (rename f <$> lines))
          = rename_state f <$> run (points <$> lines)) as Hrun.
  { unfold run. rewrite !length_fmap, <- loop_rename by done. f_equal.
    unfold init, rename_state. simpl. rewrite !length_fmap. f_equal.
    rewrite <- !list_fmap_compose. by apply list_fmap_ext. }
  destruct (run (points <$> lines)) as [s|e] eqn:Hs; simpl in Hrun.
  - destruct (orient_lines_of_run _ _ Hs) as (perm & Hperm & _ & ->).
    destruct (orient_lines_of_run _ _ Hrun) as (perm' & Hperm' & _ & ->).
    simpl in *. f_equal.
    apply mapM_subscript_omap in Hperm, Hperm'. subst.
    generalize (oriented s) as flips. 
    induction (order s) as [|o os IH]; intros flips; simpl.
    { by destruct flips. }
    rewrite list_lookup_fmap. destruct (lines !! o) as [l|]; simpl; [|apply IH].
    destruct flips as [|b flips]; simpl; [done|].
    rewrite IH. f_equal. by destruct b.
  - unfold orient_lines. by rewrite Hrun, Hs.
Qed.

Lemma orient_lines_rename_witness :
  let lines := [mkLine (0, 1)%Z true; mkLine (2, 1)%Z true; mkLine (0, 2)%Z true] in
  Inj (=) (=) (Z.add 10) ∧
  int64_ids (points <$> lines) ∧
  int64_ids (points <$> (rename (Z.add 10) <$> lines)) ∧
  orient_lines (rename (Z.add 10) <$> lines)
  = fmap (M := list) (rename (Z.add 10)) <$> orient_lines lines.
Proof.
  intros lines.
  assert (Inj (=) (=) (Z.add 10)) as Hinj by (intros x y; lia).
  assert (int64_ids (points <$> lines)) as H1
    by (apply (bool_decide_unpack _); vm_compute; exact I).
  assert (int64_ids (points <$> (rename (Z.add 10) <$> lines))) as H2
    by (apply (bool_decide_unpack _); vm_compute; exact I).
  split; [exact Hinj|]. split; [exact H1|]. split; [exact H2|].
  exact (orient_lines_rename (Z.add 10) lines Hinj H1 H2).
Defined.

End orient_further.

(** ** Which objects the returned list refers to *)
Section store_sharing.
Import Store.
Implicit Types (h : heap) (items : list loc) (ls : list Line).

(** The last comprehension returns, for a position whose flag is set,
    the reference that it read, and for another position a reference
    to an object that did not exist before. *)
Lemma pick_shares items1 ori js h items2 h' :
  mapM (pick items1 ori) js h = (Ok items2, h') →
  length h ≤ length h' ∧
  Forall2 (λ j l', ∃ b l, ori !! j = Some b ∧ items1 !! j = Some l ∧
                          if b : bool then l' = l else length h ≤ l')
          js items2.
Proof.
  revert h items2. induction js as [|j js IH]; intros h items2; simpl.
  { intros [= <- <-]. split; [done|constructor]. }
  rewrite bind_run. unfold pick at 1. rewrite bind_run. unfold lift at 1.
  destruct (subscript items1 j) as [l|e] eqn:Hl; cbn [fst snd]; [|done].
  rewrite bind_run. unfold lift at 1.
  destruct (subscript ori j) as [b|e] eqn:Hb; cbn [fst snd]; [|done].
  apply subscript_Ok in Hl, Hb.
  assert (∃ r h1, (if b then mret l else neg_line l) h = (r, h1) ∧
            match r with
            | Ok y => length h ≤ length h1 ∧
                      if b then y = l else length h ≤ y
            | Raise _ => True
            end) as (r & h1 & -> & Hr).
  { destruct b.
    - by exists (Ok l), h.
    - unfold neg_line. rewrite bind_run. unfold read_line.
      destruct (h !! l) as [[| ln | | |]|]; cbn [fst snd];
        try by (eexists (Raise _), _).
      exists (Ok (length h)), (h ++ [OLine (neg ln)]). split; [done|].
      rewrite length_app. simpl. lia. }
  destruct r as [y|e]; [|done]. destruct Hr as [Hh1 Hy].
  rewrite bind_run.
  destruct (mapM (pick items1 ori) js h1) as [[items3|e] h2] eqn:Hrest; [|done].
  intros [= <- <-]. apply IH in Hrest as [Hh2 Hrest].
  split; [lia|]. constructor.
  - exists b, l. by destruct b.
  - eapply Forall2_impl; [exact Hrest|]. simpl.
    intros j' l' (b' & l0 & ? & ? & Hl'). exists b', l0.
    split; [done|]. split; [done|]. destruct b'; [done|lia].
Qed.

(** The store reading up to its last comprehension. *)
Lemma orient_lines_unfold h lines items ls s items1 :
  h !! lines = Some (OList items) → holds h items ls →
  Orient.run (points <$> ls) = Ok s →
  mapM (subscript items) (Orient.order s) = Ok items1 →
  Store.orient_lines lines h =
    (items2 ← mapM (pick items1 (Orient.oriented s))
                   (seq 0 (length (Orient.oriented s)));
     alloc (OList items2)) (with_arrays h s ++ [OList items1]).
Proof.
  intros Hlines Hh Hrun Hitems1. unfold Store.orient_lines.
  rewrite (bind_run_Ok _ _ h items h) by (unfold read_list; by rewrite Hlines).
  rewrite (bind_run_Ok _ _ _ _ _ (read_points h items ls Hh)).
  set (P := points <$> ls) in *.
  rewrite (bind_run_Ok _ _ h (length h) (h ++ [OPairs P])) by done.
  rewrite (bind_run_Ok _ _ _ (length h + 1)
             ((h ++ [OPairs P]) ++ [OInts (seq 0 (length P))]))
    by (unfold alloc; by rewrite length_app).
  rewrite (bind_run_Ok _ _ _ (length h + 2) (with_arrays h (Orient.init P))).
  2:{ unfold alloc, with_arrays, Orient.init. simpl.
      rewrite !length_app, <- !app_assoc. simpl. do 2 f_equal. lia. }
  destruct (for_each_refines h (seq 1 (length P - 1)) (Orient.init P))
    as (s' & Hloop & Hs').
  rewrite bind_run, Hloop. fold (Orient.run P). rewrite Hrun.
  cbn [outcome]. rewrite (Hs' s Hrun). clear Hloop Hs' s'.
  rewrite (bind_run_Ok _ _ _ _ _ (proj1 (proj2 (read_arrays h s)))).
  rewrite bind_run. unfold lift at 1. rewrite Hitems1. cbn [fst snd].
  set (H1 := with_arrays h s ++ [OList items1]).
  rewrite (bind_run_Ok _ _ _ (length (with_arrays h s)) H1) by done.
  rewrite (bind_run_Ok _ _ H1 (Orient.oriented s) H1); [done|].
  unfold read_bools, H1. rewrite lookup_app_l.
  - by rewrite (proj2 (proj2 (lookup_arrays h s))).
  - unfold with_arrays. rewrite length_app. simpl. lia.
Qed.

(** X6.  What the returned list shares with the input.  When the call
    returns, the result is a list object that did not exist before the
    call (never the input list itself); at every position whose flag is
    set it refers to the very segment object of the input list that was
    placed there, and at every other position to an object created by
    the call.  The flags and the order are those of the loop on the
    stored pairs. *)
Theorem orient_lines_shares h lines items ls out h' :
  h !! lines = Some (OList items) → holds h items ls →
  Store.orient_lines lines h = (Ok out, h') →
  ∃ s items1 items',
    Orient.run (points <$> ls) = Ok s ∧
    mapM (subscript items) (Orient.order s) = Ok items1 ∧
    items1 ≡ₚ items ∧
    length h ≤ out ∧ h' !! out = Some (OList items') ∧
    length items' = length items ∧
    ∀ i l', items' !! i = Some l' →
      ∃ b l, Orient.oriented s !! i = Some b ∧ items1 !! i = Some l ∧
             if b : bool then l' = l else length h ≤ l'.
Proof.
  intros Hlines Hh Hcall.
  destruct (orient_lines_refines h lines items ls Hlines Hh) as (k & r & Hr & Hv).
  rewrite Hcall in Hr. injection Hr as <- ->.
  destruct Hv as (_ & ls' & _ & _ & Hval).
  apply orient_lines_Ok in Hval as (s & perm & Hrun & Hperm & _ & _).
  pose proof (run_Inv _ _ Hrun) as HI.
  pose proof (reorder_holds h items ls (Orient.order s) Hh) as Hre.
  destruct (mapM (subscript items) (Orient.order s)) as [items1|e] eqn:Hitems1;
    [|congruence].
  clear Hre.
  assert (length items = length ls) as Hlen by (by eapply Forall2_length).
  assert (items1 ≡ₚ items) as Hp1.
  { apply (mapM_subscript_perm items (Orient.order s)); [|done].
    rewrite Hlen, <- (length_fmap points). apply (inv_perm _ _ _ HI). }
  rewrite (orient_lines_unfold h lines items ls s items1) in Hcall by done.
  rewrite bind_run in Hcall.
  destruct (mapM (pick items1 (Orient.oriented s)) _ _)
    as [[items2|e] h2] eqn:Hpick; [|done].
  injection Hcall as <- <-.
  apply pick_shares in Hpick as [Hh2 Hpick].
  assert (length h ≤ length h2) as Hhh.
  { etrans; [|exact Hh2]. unfold with_arrays. rewrite !length_app. lia. }
  exists s, items1, items2. repeat split; try done.
  - by rewrite list_lookup_middle.
  - rewrite <- (Forall2_length _ _ _ Hpick), length_seq, (inv_len_ori _ _ _ HI).
    by rewrite length_fmap.
  - intros i l' Hl'.
    destruct (Forall2_lookup_r _ _ _ _ _ Hpick Hl') as (j & Hj & b & l & Hb & Hl & Hshare).
    apply lookup_seq in Hj as [-> _]. simpl in *.
    exists b, l. split; [done|]. split; [done|].
    destruct b; [done|]. etrans; [|exact Hshare].
    unfold with_arrays. rewrite !length_app. lia.
Qed.

Lemma orient_lines_shares_witness :
  let h := [OLine (mkLine (0, 1)%Z true); OLine (mkLine (2, 1)%Z true);
            OLine (mkLine (0, 2)%Z true); OList [0; 1; 2]] in
  ∃ out h', Store.orient_lines 3 h = (Ok out, h') ∧
  ∃ s items1 items',
    Orient.run (points <$> [mkLine (0, 1)%Z true; mkLine (2, 1)%Z true;
                            mkLine (0, 2)%Z true]) = Ok s ∧
    mapM (subscript [0; 1; 2]) (Orient.order s) = Ok items1 ∧
    items1 ≡ₚ [0; 1; 2] ∧
    length h ≤ out ∧ h' !! out = Some (OList items') ∧
    length items' = 3 ∧
    ∀ i l', items' !! i = Some l' →
      ∃ b l, Orient.oriented s !! i = Some b ∧ items1 !! i = Some l ∧
             if b : bool then l' = l else length h ≤ l'.
Proof.
  intros h. eexists _, _. split; [reflexivity|].
  apply (orient_lines_shares h 3 [0; 1; 2]
           [mkLine (0, 1)%Z true; mkLine (2, 1)%Z true; mkLine (0, 2)%Z true]).
  - reflexivity.
  - repeat constructor.
  - reflexivity.
Defined.

End store_sharing.

(** ** The post-processing stages, one by one and together *)
Section mesh_further.
Import Mesh.
Context {PD CD : Type}.
Implicit Types (m : mesh PD CD) (cs : list CellBlock).

(** *** The cell-type filter *)

Lemma keep_types_filter cs :
  Forall (λ c, type c ∈ keep_types (filter (λ c, type c ∈ keep_types cs) cs))
         (filter (λ c, type c ∈ keep_types cs) cs).
Proof.
  destruct (decide (Exists (λ c, type c ∈ cells_3d) cs)) as [H3|H3].
  { rewrite (keep_types_3d cs H3). rewrite keep_types_3d.
    - apply Forall_forall. by intros c [? _]%list_elem_of_filter.
    - apply Exists_exists in H3 as (c & Hc & Ht). apply Exists_exists.
      exists c. split; [|done]. by apply list_elem_of_filter. }
  destruct (decide (Exists (λ c, type c ∈ cells_2d) cs)) as [H2|H2].
  { rewrite (keep_types_2d cs H3 H2). rewrite keep_types_2d.
    - apply Forall_forall. by intros c [? _]%list_elem_of_filter.
    - intros (c & [_ Hc]%list_elem_of_filter & Ht)%Exists_exists.
      apply H3, Exists_exists. eauto.
    - apply Exists_exists in H2 as (c & Hc & Ht). apply Exists_exists.
      exists c. split; [|done]. by apply list_elem_of_filter. }
  rewrite (keep_types_all cs H3 H2). apply Forall_forall. intros c Hc.
  rewrite <- (keep_types_all cs H3 H2) in Hc.
  by apply list_elem_of_filter in Hc as [? _].
Qed.

Lemma length_filter_zip {A} (P : CellBlock → Prop) `{!∀ c, Decision (P c)}
    (val : list A) cs :
  length (filter (λ dc, P dc.2) (zip val cs)) ≤ length (filter P cs).
Proof.
  revert val. induction cs as [|c cs IH]; intros [|v val]; simpl; try lia.
  rewrite !filter_cons. simpl. specialize (IH val).
  destruct (decide (P c)); simpl; lia.
Qed.

Lemma filtered_filter m : filtered (remove_lower_dim_cells m).
Proof.
  split; simpl; [apply keep_types_filter|].
  apply Forall_fmap, Forall_forall. intros [name val] _. simpl.
  rewrite length_fmap.
  exact (length_filter_zip (λ c, type c ∈ keep_types (cells m)) val (cells m)).
Qed.

Lemma filtered_fixed m : filtered m → remove_lower_dim_cells m = m.
Proof.
  intros [Hcells Hdata]. destruct m as [pts cs pd cd]. simpl in *.
  unfold remove_lower_dim_cells. simpl. f_equal; [by apply filter_all|].
  rewrite <- (list_fmap_id cd) at 2. apply list_fmap_ext.
  intros i [name val] Hi. simpl. f_equal.
  rewrite filter_all.
  - apply fst_zip.
    by apply (proj1 (Forall_forall _ _) Hdata _ (list_elem_of_lookup_2 _ _ _ Hi)).
  - apply Forall_forall. intros [d c] Hdc. simpl.
    apply elem_of_zip_r in Hdc. by apply (proj1 (Forall_forall _ _) Hcells).
Qed.

(** The tier that is kept depends on the types of the blocks only. *)
Lemma keep_types_ext cs cs' :
  type <$> cs = type <$> cs' → keep_types cs = keep_types cs'.
Proof.
  intros Hty.
  assert (∀ T : gset string,
            Exists (λ c, type c ∈ T) cs ↔ Exists (λ c, type c ∈ T) cs') as HE.
  { intros T. trans (Exists (λ t, t ∈ T) (type <$> cs)).
    - symmetry. exact (Exists_fmap type (λ t, t ∈ T) cs).
    - rewrite Hty. exact (Exists_fmap type (λ t, t ∈ T) cs'). }
  unfold keep_types. rewrite Hty.
  destruct (decide (Exists _ cs)) as [H3|H3], (decide (Exists _ cs')) as [H3'|H3'];
    try done; try (by apply HE in H3); try (by apply HE in H3').
  destruct (decide (Exists _ cs)) as [H2|H2], (decide (Exists _ cs')) as [H2'|H2'];
    try done; try (by apply HE in H2); try (by apply HE in H2').
Qed.

Lemma filtered_ext m m' :
  type <$> cells m' = type <$> cells m → cell_data m' = cell_data m →
  filtered m → filtered m'.
Proof.
  intros Hty Hcd [Hcells Hdata]. split.
  - rewrite (keep_types_ext _ _ Hty).
    apply Forall_forall. intros c Hc.
    assert (type c ∈ type <$> cells m) as (c0 & -> & Hc0)%list_elem_of_fmap.
    { rewrite <- Hty. apply list_elem_of_fmap. eauto. }
    by apply (proj1 (Forall_forall _ _) Hcells).
  - rewrite Hcd. apply (f_equal length) in Hty. rewrite !length_fmap in Hty.
    by rewrite Hty.
Qed.

(** X7.  The cell-type filter is idempotent: filtering a filtered mesh
    changes nothing, for every mesh (whatever the lengths of its
    cell-data lists). *)
Theorem remove_lower_dim_cells_idempotent m :
  remove_lower_dim_cells (remove_lower_dim_cells m) = remove_lower_dim_cells m.
Proof. apply filtered_fixed, filtered_filter. Qed.

(** *** The vertex pruner *)

Lemma type_map_block f cs : type <$> (map_block f <$> cs) = type <$> cs.
Proof. rewrite <- list_fmap_compose. by apply list_fmap_ext. Qed.

Lemma map_block_ext f g cs :
  (∀ x, x ∈ referenced cs → f x = g x) →
  map_block f <$> cs = map_block g <$> cs.
Proof.
  intros Hfg. apply list_fmap_ext. intros i c Hc. unfold map_block. do 2 f_equal.
  apply list_fmap_ext. intros j row Hrow. apply list_fmap_ext. intros k x Hx.
  apply Hfg, elem_of_referenced. exists c, row.
  repeat split; by eapply list_elem_of_lookup_2.
Qed.

Lemma Forall_np_unique (P : nat → Prop) (a : list nat) :
  Forall P (np_unique a) ↔ Forall P a.
Proof.
  rewrite !Forall_forall. split; intros H x Hx; apply H; by apply elem_of_np_unique.
Qed.

Lemma elem_of_ranks (a : list nat) i :
  i ∈ (λ x, index_of x (np_unique a)) <$> a ↔ i < length (np_unique a).
Proof.
  pose proof (np_unique_ranks a) as HU. simpl in HU.
  rewrite <- elem_of_np_unique, HU, elem_of_seq. lia.
Qed.

(** The parts of the result of a pruning that returns. *)
Lemma prune_vertices_parts m m' :
  Forall (λ c, rect (data c)) (cells m) → prune_vertices m = Ok m' →
  let R := np_unique (referenced (cells m)) in
  has_cells (cells m) ∧
  cells m' = map_block (λ x, index_of x R) <$> cells m ∧
  ncols (points m') = ncols (points m) ∧
  Forall2 (λ x row, rows (points m) !! x = Some row) R (rows (points m')) ∧
  Forall2 (λ kv kv', kv'.1 = kv.1 ∧
                     Forall2 (λ x v, kv.2 !! x = Some v) R kv'.2)
          (point_data m) (point_data m') ∧
  cell_data m' = cell_data m.
Proof.
  intros Hrect Hm.
  apply prune_vertices_Ok in Hm as (Hhas & rows' & pd' & Hrows & Hpd & ->).
  simpl in *. rewrite rebuild_ranks by done.
  apply np_take_Ok in Hrows. apply index_point_data_Ok in Hpd. done.
Qed.

Lemma prune_vertices_post m m' :
  Forall (λ c, rect (data c)) (cells m) → prune_vertices m = Ok m' →
  valid m' ∧ has_cells (cells m') ∧ all_referenced m'.
Proof.
  intros Hrect Hm.
  destruct (prune_vertices_parts m m' Hrect Hm)
    as (Hhas & Hcells & Hnc & Hrows & Hpd & Hcd).
  assert (∀ i, i ∈ referenced (cells m') ↔ i < length (rows (points m')))
    as Href.
  { intros i. rewrite Hcells, referenced_map_block, <- (Forall2_length _ _ _ Hrows).
    apply elem_of_ranks. }
  split; [split; [|split]|split].
  - rewrite Hcells. by apply rect_map_block.
  - apply Forall_forall. intros x Hx. by apply Href.
  - apply Forall_forall. intros kv' Hkv'.
    apply list_elem_of_lookup in Hkv' as [i Hi].
    destruct (Forall2_lookup_r _ _ _ _ _ Hpd Hi) as (kv & _ & _ & Hlen).
    by rewrite <- (Forall2_length _ _ _ Hlen), (Forall2_length _ _ _ Hrows).
  - rewrite Hcells. by apply has_cells_map_block.
  - intros i Hi. by apply Href.
Qed.

Lemma unique_all_referenced m :
  valid m → all_referenced m →
  np_unique (referenced (cells m)) = seq 0 (length (rows (points m))).
Proof.
  intros (_ & Hids & _) Hall.
  apply sorted_lt_unique; [apply np_unique_sorted|apply seq_sorted|].
  intros x. rewrite elem_of_np_unique, elem_of_seq. split.
  - intros Hx. rewrite Forall_forall in Hids. specialize (Hids x Hx). lia.
  - intros [_ Hx]. apply Hall. lia.
Qed.

Lemma prune_vertices_fixed m :
  valid m → has_cells (cells m) → all_referenced m → prune_vertices m = Ok m.
Proof.
  intros Hv Hhas Hall. pose proof (unique_all_referenced m Hv Hall) as HU.
  destruct Hv as (Hrect & Hids & Hpd).
  apply prune_vertices_Ok. simpl. rewrite !HU. split; [done|].
  exists (rows (points m)), (point_data m). split; [apply np_take_seq|].
  split; [by apply index_point_data_seq|].
  destruct m as [[nc rs] cs pd cd]. simpl in *. f_equal.
  rewrite rebuild_ranks by done.
  rewrite (map_block_ext _ id cs); [symmetry; apply map_block_id|].
  intros x Hx. apply index_of_seq. by apply (proj1 (Forall_forall _ _) Hids).
Qed.

Lemma lookup_rank {A} (old new : list A) (R : list nat) x :
  Forall2 (λ x v, old !! x = Some v) R new → x ∈ R →
  is_Some (old !! x) ∧ new !! index_of x R = old !! x.
Proof.
  intros HF Hx. apply index_of_lookup in Hx.
  destruct (Forall2_lookup_l _ _ _ _ _ HF Hx) as (v & Hv & Hold).
  rewrite Hold. split; [by eexists|done].
Qed.

Lemma same_entries_map_block {A} (old new : list A) f cs :
  (∀ x, x ∈ referenced cs → is_Some (old !! x) ∧ new !! f x = old !! x) →
  same_entries old new cs (map_block f <$> cs).
Proof.
  intros H. apply Forall2_fmap_r, Forall_Forall2_diag, Forall_forall.
  intros c Hc. split; [done|]. split; [done|]. simpl.
  apply Forall2_fmap_r, Forall_Forall2_diag, Forall_forall. intros row Hrow.
  apply Forall2_fmap_r, Forall_Forall2_diag, Forall_forall. intros x Hx.
  apply H, elem_of_referenced. eauto.
Qed.

(** X8.  Pruning keeps the geometry.  When the pruner returns, every
    block keeps its type and its shape, and at every place of every
    cell the new vertex id names, in the new point array, the very
    point that the old id named in the old one; the same holds for
    every per-point data array, which also keeps its name. *)
Theorem prune_vertices_keeps_geometry m m' :
  Forall (λ c, rect (data c)) (cells m) → prune_vertices m = Ok m' →
  same_entries (rows (points m)) (rows (points m')) (cells m) (cells m') ∧
  Forall2 (λ kv kv', kv'.1 = kv.1 ∧
                     same_entries kv.2 kv'.2 (cells m) (cells m'))
          (point_data m) (point_data m').
Proof.
  intros Hrect Hm.
  destruct (prune_vertices_parts m m' Hrect Hm)
    as (Hhas & Hcells & Hnc & Hrows & Hpd & Hcd).
  rewrite Hcells. split.
  - apply same_entries_map_block. intros x Hx.
    apply lookup_rank; [done|]. by apply elem_of_np_unique.
  - eapply Forall2_impl; [exact Hpd|]. simpl. intros kv kv' [Hk HF].
    split; [done|]. apply same_entries_map_block. intros x Hx.
    apply lookup_rank; [done|]. by apply elem_of_np_unique.
Qed.

(** X9.  Whenever the pruner returns, its result satisfies the data
    model (rectangular cell arrays, every vertex id a valid point id,
    every per-point data array as long as the point array), has cells,
    holds no point that is not a vertex of some cell, and has at most as
    many points as the input. *)
Theorem prune_vertices_no_orphans m m' :
  Forall (λ c, rect (data c)) (cells m) → prune_vertices m = Ok m' →
  valid m' ∧ has_cells (cells m') ∧
  (∀ i, i < length (rows (points m')) ↔ i ∈ referenced (cells m')) ∧
  length (rows (points m')) ≤ length (rows (points m)).
Proof.
  intros Hrect Hm.
  destruct (prune_vertices_post m m' Hrect Hm) as (Hv & Hh & Hall).
  split; [done|]. split; [done|]. split.
  - intros i. split; [apply Hall|]. intros Hi. destruct Hv as (_ & Hids & _).
    by apply (proj1 (Forall_forall _ _) Hids).
  - destruct (prune_vertices_parts m m' Hrect Hm) as (_ & _ & _ & Hrows & _).
    rewrite <- (Forall2_length _ _ _ Hrows).
    rewrite <- (length_seq (length (rows (points m))) 0).
    apply submseteq_length, NoDup_submseteq.
    + apply sorted_lt_NoDup, np_unique_sorted.
    + intros x Hx. apply list_elem_of_lookup in Hx as [i Hi].
      destruct (Forall2_lookup_l _ _ _ _ _ Hrows Hi) as (row & _ & Hrow).
      apply lookup_lt_Some in Hrow. apply elem_of_seq. lia.
Qed.

(** X10.  On a mesh that satisfies the data model, the pruner returns
    the mesh as it is exactly when the mesh has cells and every point is
    a vertex of some cell. *)
Theorem prune_vertices_unchanged_iff m :
  valid m →
  prune_vertices m = Ok m ↔ has_cells (cells m) ∧ all_referenced m.
Proof.
  intros Hv. split.
  - intros Hm. by destruct (prune_vertices_post m m (proj1 Hv) Hm) as (_ & ? & ?).
  - intros [? ?]. by apply prune_vertices_fixed.
Qed.

(** *** When the pruner raises *)

Lemma np_take_cases {A} (a : list A) (idx : list nat) :
  (Forall (λ i, i < length a) idx ∧ ∃ ys, np_take a idx = Ok ys) ∨
  (¬ Forall (λ i, i < length a) idx ∧ np_take a idx = Raise IndexError).
Proof.
  destruct (np_take a idx) as [ys|e] eqn:H.
  - left. split; [|eauto]. apply np_take_Ok in H. apply Forall_forall.
    intros i Hi. apply list_elem_of_lookup in Hi as [k Hk].
    destruct (Forall2_lookup_l _ _ _ _ _ H Hk) as (y & _ & Hy).
    by eapply lookup_lt_Some.
  - right. rewrite (np_take_Raise _ _ _ H). split; [|done]. intros HF.
    destruct (mapM_subscript_total a idx HF) as [ys Hys].
    unfold np_take in H. congruence.
Qed.

Lemma index_point_data_cases (u : list nat) (pd : list (string * list PD)) :
  (Forall (λ kv, Forall (λ x, x < length kv.2) u) pd ∧
   ∃ pd', index_point_data u pd = Ok pd') ∨
  (¬ Forall (λ kv, Forall (λ x, x < length kv.2) u) pd ∧
   index_point_data u pd = Raise IndexError).
Proof.
  destruct (index_point_data u pd) as [pd'|e] eqn:H.
  - left. split; [|eauto]. apply index_point_data_Ok in H. apply Forall_forall.
    intros kv Hkv. apply list_elem_of_lookup in Hkv as [k Hk].
    destruct (Forall2_lookup_l _ _ _ _ _ H Hk) as (kv' & _ & _ & HF).
    apply Forall_forall. intros x Hx. apply list_elem_of_lookup in Hx as [j Hj].
    destruct (Forall2_lookup_l _ _ _ _ _ HF Hj) as (v & _ & Hv).
    by eapply lookup_lt_Some.
  - right. assert (e = IndexError) as ->.
    { unfold index_point_data in H. apply mapM_Raise in H as (kv & _ & H).
      apply bind_Raise in H as [H|(arr & _ & H)]; [|done].
      by apply np_take_Raise in H. }
    split; [|done]. intros HF.
    destruct (index_point_data_total u pd HF) as [pd' Hpd']. congruence.
Qed.

Lemma prune_vertices_unfold m :
  has_cells (cells m) →
  prune_vertices m =
    (let u := np_unique (referenced (cells m)) in
     rows' ← np_take (rows (points m)) u;
     pd' ← index_point_data u (point_data m);
     Ok (Mesh (Arr2 (ncols (points m)) rows')
              (rebuild (cells m)
                       ((λ x, index_of x u) <$> referenced (cells m)) 0)
              pd' (cell_data m))).
Proof.
  intros [Hne Hrows]. unfold prune_vertices.
  rewrite (proj2 (concat_blocks_Ok (cells m) _) (conj Hrows eq_refl)).
  destruct (cells m) as [|c cs]; done.
Qed.

Lemma flattened_Raise cs e :
  (mapM (λ c, np_concatenate (rows (data c))) cs ≫= np_concatenate) = Raise e →
  e = ValueError.
Proof.
  intros [H|(flat & _ & H)]%bind_Raise.
  - apply mapM_Raise in H as (c & _ & H). unfold np_concatenate in H.
    destruct (rows (data c)); congruence.
  - unfold np_concatenate in H. destruct flat; congruence.
Qed.

Lemma prune_vertices_cases m :
  (¬ has_cells (cells m) ∧ prune_vertices m = Raise ValueError) ∨
  (has_cells (cells m) ∧ in_range m ∧ ∃ m', prune_vertices m = Ok m') ∨
  (has_cells (cells m) ∧ ¬ in_range m ∧ prune_vertices m = Raise IndexError).
Proof.
  destruct (mapM (λ c, np_concatenate (rows (data c))) (cells m)
              ≫= np_concatenate) as [ncells|e] eqn:Hflat.
  - apply flattened_Ok in Hflat as [Hhas ->]. right.
    rewrite (prune_vertices_unfold m Hhas). simpl. unfold in_range.
    set (u := np_unique (referenced (cells m))).
    destruct (np_take_cases (rows (points m)) u) as [[HF (rows' & ->)]|[HF ->]].
    + destruct (index_point_data_cases u (point_data m))
        as [[HG (pd' & ->)]|[HG ->]]; simpl.
      * left. split; [done|]. split; [|eauto]. split.
        -- by apply Forall_np_unique.
        -- eapply Forall_impl; [exact HG|]. intros kv. apply Forall_np_unique.
      * right. split; [done|]. split; [|done]. intros [_ HG']. apply HG.
        eapply Forall_impl; [exact HG'|]. intros kv. apply Forall_np_unique.
    + right. split; [done|]. split; [|done]. intros [HF' _]. apply HF.
      by apply Forall_np_unique.
  - left. pose proof (flattened_Raise _ _ Hflat) as ->. split.
    + intros Hhas.
      assert (mapM (λ c, np_concatenate (rows (data c))) (cells m)
                ≫= np_concatenate = Ok (referenced (cells m))) as Hok
        by (by apply flattened_Ok).
      congruence.
    + destruct (prune_vertices m) as [m'|e] eqn:Hm.
      * apply prune_vertices_Ok in Hm as [Hhas _].
        assert (mapM (λ c, np_concatenate (rows (data c))) (cells m)
                  ≫= np_concatenate = Ok (referenced (cells m))) as Hok
          by (by apply flattened_Ok).
        congruence.
      * unfold prune_vertices in Hm.
        destruct (mapM _ (cells m)) as [flat|e1]; simpl in *; [|congruence].
        destruct (np_concatenate flat); simpl in *; congruence.
Qed.

(** X11.  The three outcomes of the pruner, for every mesh.  It returns
    exactly when there is a block, every block holds a cell, and every
    vertex id is an index into the point array and into every per-point
    data array; it raises numpy's ValueError exactly when there is no
    block or some block holds no cell; it raises IndexError exactly when
    the cells are there and some vertex id is out of range; and it
    raises nothing else. *)
Theorem prune_vertices_outcome m :
  ((∃ m', prune_vertices m = Ok m') ↔ has_cells (cells m) ∧ in_range m) ∧
  (prune_vertices m = Raise ValueError ↔ ¬ has_cells (cells m)) ∧
  (prune_vertices m = Raise IndexError ↔ has_cells (cells m) ∧ ¬ in_range m) ∧
  ∀ e, prune_vertices m = Raise e → e = ValueError ∨ e = IndexError.
Proof.
  destruct (prune_vertices_cases m)
    as [[Hno Hm]|[(Hhas & Hin & m' & Hm)|(Hhas & Hout & Hm)]]; rewrite Hm.
  - split; [split; [by intros [? ?]|by intros [? _]]|].
    split; [done|]. split; [split; [done|by intros [? _]]|].
    intros e [= <-]. by left.
  - split; [split; [done|eauto]|].
    split; [split; [done|by intros ?]|].
    split; [split; [done|by intros [_ ?]]|]. done.
  - split; [split; [by intros [? ?]|by intros [_ ?]]|].
    split; [split; [done|by intros ?]|]. split; [done|].
    intros e [= <-]. by right.
Qed.

(** *** The z-component reducer *)

Lemma prune_z_0_frame m :
  cells (prune_z_0 m) = cells m ∧ point_data (prune_z_0 m) = point_data m ∧
  cell_data (prune_z_0 m) = cell_data m ∧
  length (rows (points (prune_z_0 m))) = length (rows (points m)).
Proof.
  unfold prune_z_0. destruct (_ && _); simpl; [|done]. by rewrite length_fmap.
Qed.

Lemma prune_z_0_twice m : prune_z_0 (prune_z_0 m) = prune_z_0 m.
Proof.
  destruct (bool_decide (ncols (points m) = 3)
            && forallb (λ z, Qltb (Qabs z) tol) (column 2 (points m))) eqn:Hc.
  - assert (prune_z_0 m = Mesh (Arr2 2 (take 2 <$> rows (points m)))
                               (cells m) (point_data m) (cell_data m)) as ->
      by (unfold prune_z_0; by rewrite Hc).
    done.
  - assert (prune_z_0 m = m) as -> by (unfold prune_z_0; by rewrite Hc).
    unfold prune_z_0. by rewrite Hc.
Qed.

Lemma prune_z_0_post m :
  valid m → has_cells (cells m) → all_referenced m →
  valid (prune_z_0 m) ∧ has_cells (cells (prune_z_0 m)) ∧
  all_referenced (prune_z_0 m).
Proof.
  destruct (prune_z_0_frame m) as (Hc & Hp & _ & Hl).
  unfold valid, all_referenced. rewrite Hc, Hp, Hl. done.
Qed.

(** X12.  The z-reducer is idempotent; it never touches the cells, the
    point data or the cell data, never changes the number of points,
    and never changes the first two coordinates of a point. *)
Theorem prune_z_0_idempotent m :
  prune_z_0 (prune_z_0 m) = prune_z_0 m ∧
  cells (prune_z_0 m) = cells m ∧ point_data (prune_z_0 m) = point_data m ∧
  cell_data (prune_z_0 m) = cell_data m ∧
  Forall2 (λ r r', take 2 r' = take 2 r)
          (rows (points m)) (rows (points (prune_z_0 m))).
Proof.
  split; [apply prune_z_0_twice|].
  destruct (prune_z_0_frame m) as (Hc & Hp & Hd & _).
  repeat (split; [done|]).
  unfold prune_z_0. destruct (_ && _); simpl.
  - apply Forall2_fmap_r, Forall_Forall2_diag, Forall_forall.
    intros r _. unfold compose. by rewrite take_take, Nat.min_id.
  - by apply Forall_Forall2_diag, Forall_forall.
Qed.

(** *** The three stages together *)

Lemma stage_z (c : bool) m :
  let m' := if c then prune_z_0 m else m in
  cells m' = cells m ∧ point_data m' = point_data m ∧
  cell_data m' = cell_data m ∧
  length (rows (points m')) = length (rows (points m)) ∧
  (if c then prune_z_0 m' else m') = m'.
Proof.
  destruct c; simpl; [|done].
  destruct (prune_z_0_frame m) as (? & ? & ? & ?).
  by rewrite prune_z_0_twice.
Qed.

(** X13.  The post-processing is idempotent: run again with the same
    three options on its own result, it returns that result unchanged
    (and where the first run raises there is no result to run on). *)
Theorem process_idempotent (remove_lower prune_v prune_z : bool) m :
  Forall (λ c, rect (data c)) (cells m) →
  process remove_lower prune_v prune_z m ≫= process remove_lower prune_v prune_z
  = process remove_lower prune_v prune_z m.
Proof.
  intros Hrect. unfold process at 2 3.
  set (m1 := if remove_lower then remove_lower_dim_cells m else m).
  assert (Forall (λ c, rect (data c)) (cells m1)) as Hrect1.
  { unfold m1. destruct remove_lower; [|done]. simpl.
    apply Forall_forall. intros c [_ Hc]%list_elem_of_filter.
    by apply (proj1 (Forall_forall _ _) Hrect). }
  assert (∀ m3, type <$> cells m3 = type <$> cells m1 →
                cell_data m3 = cell_data m1 →
                (if remove_lower then remove_lower_dim_cells m3 else m3) = m3)
    as Hfilter.
  { intros m3 Hty Hcd. unfold m1 in *. destruct remove_lower; [|done].
    apply filtered_fixed, (filtered_ext _ _ Hty Hcd), filtered_filter. }
  destruct prune_v.
  - destruct (prune_vertices m1) as [m2|e] eqn:Hm2; [|done]. simpl.
    destruct (prune_vertices_parts m1 m2 Hrect1 Hm2)
      as (_ & Hcells & _ & _ & _ & Hcd).
    destruct (prune_vertices_post m1 m2 Hrect1 Hm2) as (Hv & Hh & Hall).
    destruct (stage_z prune_z m2) as (Hc3 & Hp3 & Hd3 & Hl3 & Hz3).
    set (m3 := if prune_z then prune_z_0 m2 else m2) in *.
    unfold process. rewrite Hfilter.
    + rewrite prune_vertices_fixed; [simpl; by rewrite Hz3| | |].
      * unfold valid. by rewrite Hc3, Hp3, Hl3.
      * by rewrite Hc3.
      * unfold all_referenced. by rewrite Hc3, Hl3.
    + by rewrite Hc3, Hcells, type_map_block.
    + by rewrite Hd3.
  - simpl.
    destruct (stage_z prune_z m1) as (Hc3 & Hp3 & Hd3 & Hl3 & Hz3).
    set (m3 := if prune_z then prune_z_0 m1 else m1) in *.
    unfold process. rewrite Hfilter; [simpl; by rewrite Hz3| |].
    + by rewrite Hc3.
    + by rewrite Hd3.
Qed.

(** X16.  Filter and pruner together.  With both options on, a run
    that returns gives a mesh whose blocks are the blocks of the kept
    tier, in their order and with their types, and whose points are
    exactly the vertices of these blocks: the vertices that only removed
    blocks referred to are gone, because the filter runs before the
    pruner. *)
Theorem process_top_tier_vertices (prune_z : bool) m m' :
  Forall (λ c, rect (data c)) (cells m) →
  process true true prune_z m = Ok m' →
  type <$> cells m'
  = type <$> filter (λ c, type c ∈ keep_types (cells m)) (cells m) ∧
  (∀ i, i < length (rows (points m')) ↔
        ∃ c row, c ∈ cells m' ∧ row ∈ rows (data c) ∧ i ∈ row) ∧
  length (rows (points m'))
  = length (np_unique (referenced
      (filter (λ c, type c ∈ keep_types (cells m)) (cells m)))).
Proof.
  intros Hrect. unfold process.
  set (m1 := remove_lower_dim_cells m).
  assert (Forall (λ c, rect (data c)) (cells m1)) as Hrect1.
  { simpl. apply Forall_forall. intros c [_ Hc]%list_elem_of_filter.
    by apply (proj1 (Forall_forall _ _) Hrect). }
  destruct (prune_vertices m1) as [m2|e] eqn:Hm2; simpl; [|done].
  intros [= <-].
  destruct (prune_vertices_parts m1 m2 Hrect1 Hm2)
    as (_ & Hcells & _ & Hrows & _ & _).
  destruct (prune_vertices_post m1 m2 Hrect1 Hm2) as ((_ & Hids & _) & _ & Hall).
  destruct (stage_z prune_z m2) as (Hc3 & _ & _ & Hl3 & _).
  rewrite Hc3, Hl3. split; [|split].
  - by rewrite Hcells, type_map_block.
  - intros i. rewrite <- elem_of_referenced. split; [apply Hall|].
    intros Hi. by apply (proj1 (Forall_forall _ _) Hids).
  - by rewrite <- (Forall2_length _ _ _ Hrows).
Qed.

End mesh_further.

Lemma prune_vertices_keeps_geometry_witness :
  let ln := Mesh.mkCellBlock "line" (Mesh.Arr2 2 [[0; 1]]) in
  let tri := Mesh.mkCellBlock "triangle" (Mesh.Arr2 3 [[0; 2; 5]; [2; 5; 7]]) in
  let m : Mesh.mesh nat nat :=
    Mesh.Mesh (Mesh.Arr2 3 ((λ i, [inject_Z (Z.of_nat i); 1; 0]%Q) <$> seq 0 8))
              [ln; tri] [("a"%string, seq 10 8)] [("b"%string, [1; 2])] in
  ∃ m', Mesh.prune_vertices m = Ok m' ∧
    same_entries (Mesh.rows (Mesh.points m)) (Mesh.rows (Mesh.points m'))
                 (Mesh.cells m) (Mesh.cells m') ∧
    Forall2 (λ kv kv', kv'.1 = kv.1 ∧
                       same_entries kv.2 kv'.2 (Mesh.cells m) (Mesh.cells m'))
            (Mesh.point_data m) (Mesh.point_data m').
Proof.
  intros ln tri m. eexists. split; [reflexivity|].
  apply (prune_vertices_keeps_geometry m); [|reflexivity].
  unfold Mesh.rect. simpl. repeat constructor.
Defined.

Lemma prune_vertices_no_orphans_witness :
  let ln := Mesh.mkCellBlock "line" (Mesh.Arr2 2 [[0; 1]]) in
  let tri := Mesh.mkCellBlock "triangle" (Mesh.Arr2 3 [[0; 2; 5]; [2; 5; 7]]) in
  let m : Mesh.mesh nat nat :=
    Mesh.Mesh (Mesh.Arr2 3 (replicate 8 [0; 1; 0]%Q)) [ln; tri]
              [("a"%string, seq 10 8)] [("b"%string, [1; 2])] in
  ∃ m', Mesh.prune_vertices m = Ok m' ∧
    valid m' ∧ has_cells (Mesh.cells m') ∧
    (∀ i, i < length (Mesh.rows (Mesh.points m')) ↔
          i ∈ referenced (Mesh.cells m')) ∧
    length (Mesh.rows (Mesh.points m')) ≤ length (Mesh.rows (Mesh.points m)).
Proof.
  intros ln tri m. eexists. split; [reflexivity|].
  apply (prune_vertices_no_orphans m); [|reflexivity].
  unfold Mesh.rect. simpl. repeat constructor.
Defined.

Lemma prune_vertices_unchanged_iff_witness :
  let tri := Mesh.mkCellBlock "triangle" (Mesh.Arr2 3 [[0; 1; 2]; [2; 1; 3]]) in
  let m : Mesh.mesh nat nat :=
    Mesh.Mesh (Mesh.Arr2 2 (replicate 4 [0; 1]%Q)) [tri]
              [("a"%string, seq 10 4)] [("b"%string, [1])] in
  valid m ∧
  (Mesh.prune_vertices m = Ok m ↔ has_cells (Mesh.cells m) ∧ all_referenced m).
Proof.
  intros tri m.
  assert (valid m) as Hv.
  { unfold valid, Mesh.rect. simpl. repeat split; repeat constructor; simpl; lia. }
  split; [exact Hv|]. exact (prune_vertices_unchanged_iff m Hv).
Defined.

Lemma process_idempotent_witness :
  let tet := Mesh.mkCellBlock "tetra" (Mesh.Arr2 4 [[0; 1; 2; 4]]) in
  let tri := Mesh.mkCellBlock "triangle" (Mesh.Arr2 3 [[0; 1; 2]; [1; 2; 3]]) in
  let m : Mesh.mesh nat nat :=
    Mesh.Mesh (Mesh.Arr2 3 (replicate 5 [0; 1; 0]%Q)) [tri; tet; tri]
              [("a"%string, seq 10 5)] [("b"%string, [7; 8; 9])] in
  Forall (λ c, Mesh.rect (Mesh.data c)) (Mesh.cells m) ∧
  Mesh.process true true true m ≫= Mesh.process true true true
  = Mesh.process true true true m.
Proof.
  intros tet tri m.
  assert (Forall (λ c, Mesh.rect (Mesh.data c)) (Mesh.cells m)) as Hrect.
  { unfold Mesh.rect. simpl. repeat constructor. }
  split; [exact Hrect|]. exact (process_idempotent true true true m Hrect).
Defined.

(** ** The argument list of the Gmsh call *)
Section gmsh_arguments.
Import Gmsh.
Implicit Types (h : heap) (xs : list string).

Lemma command_line_mesh dim l geo msh h xs :
  h !! l = Some xs →
  command_line dim (Some l) geo msh "mesh" h =
    (Ok (args dim geo "mesh" msh
              (xs ++ ["-string"; "Mesh.SaveElementTagType=2;"])),
     <[l := xs ++ ["-string"; "Mesh.SaveElementTagType=2;"]]> h).
Proof.
  intros Hl. unfold command_line, extra_arguments. simpl. rewrite Hl.
  rewrite list_lookup_insert_eq; [done|]. by eapply lookup_lt_Some.
Qed.

(** X14.  What a call does to the caller's list of extra arguments.
    For a format other than "mesh" the list is read and left as it is.
    For the format "mesh" every call extends the caller's list itself by
    the two tag-type arguments, so after [n] calls with the same list it
    holds them [n] times and the next call hands them to Gmsh [n + 1]
    times; no other list of the store is changed. *)
Theorem command_line_extends_caller_list dim l geo msh h xs n :
  h !! l = Some xs →
  let call := command_line dim (Some l) geo msh "mesh" in
  let tag := ["-string"; "Mesh.SaveElementTagType=2;"]%string in
  let hn := after_calls n call h in
  (∀ fmt, fmt ≠ "mesh"%string →
     command_line dim (Some l) geo msh fmt h = (Ok (args dim geo fmt msh xs), h)) ∧
  hn !! l = Some (xs ++ concat (replicate n tag)) ∧
  (∀ l', l' ≠ l → hn !! l' = h !! l') ∧
  (call hn).1 = Ok (args dim geo "mesh" msh (xs ++ concat (replicate (S n) tag))).
Proof.
  intros Hl call tag hn. split.
  { intros fmt Hfmt. unfold command_line, extra_arguments.
    destruct (decide (fmt = "mesh"%string)); [done|]. by rewrite Hl. }
  assert (hn !! l = Some (xs ++ concat (replicate n tag)) ∧
          ∀ l', l' ≠ l → hn !! l' = h !! l') as [Hn Hframe].
  { unfold hn. clear hn. revert h xs Hl.
    induction n as [|n IH]; intros h xs Hl; cbn [after_calls].
    - simpl. by rewrite app_nil_r.
    - assert ((call h).2 = <[l := xs ++ tag]> h) as ->
        by (unfold call; by rewrite (command_line_mesh _ _ _ _ _ _ Hl)).
      destruct (IH (<[l := xs ++ tag]> h) (xs ++ tag)) as [IH1 IH2].
      { rewrite list_lookup_insert_eq; [done|]. by eapply lookup_lt_Some. }
      split; [by rewrite IH1, <- app_assoc|].
      intros l' Hl'. rewrite IH2 by done. by rewrite list_lookup_insert_ne. }
  split; [done|]. split; [done|].
  unfold call. rewrite (command_line_mesh _ _ _ _ _ _ Hn). simpl.
  do 2 f_equal. rewrite <- app_assoc. f_equal.
  clear. induction n as [|n IH]; simpl; [done|]. by rewrite <- IH.
Qed.

Lemma command_line_extends_caller_list_witness :
  let h := [["-v"; "0"]%string] in
  let call := command_line 3 (Some 0) "in.geo" "out.mesh" "mesh" in
  let tag := ["-string"; "Mesh.SaveElementTagType=2;"]%string in
  let hn := after_calls 2 call h in
  h !! 0 = Some ["-v"; "0"]%string ∧
  (∀ fmt, fmt ≠ "mesh"%string →
     command_line 3 (Some 0) "in.geo" "out.mesh" fmt h
     = (Ok (args 3 "in.geo" fmt "out.mesh" ["-v"; "0"]%string), h)) ∧
  hn !! 0 = Some (["-v"; "0"]%string ++ concat (replicate 2 tag)) ∧
  (∀ l', l' ≠ 0 → hn !! l' = h !! l') ∧
  (call hn).1 = Ok (args 3 "in.geo" "mesh" "out.mesh"
                         (["-v"; "0"]%string ++ concat (replicate 3 tag))).
Proof.
  intros h call tag hn. split; [reflexivity|].
  exact (command_line_extends_caller_list 3 0 "in.geo" "out.mesh" h
           ["-v"; "0"]%string 2 eq_refl).
Defined.

End gmsh_arguments.

Lemma process_top_tier_vertices_witness :
  let tet := Mesh.mkCellBlock "tetra" (Mesh.Arr2 4 [[0; 1; 2; 4]]) in
  let tri := Mesh.mkCellBlock "triangle" (Mesh.Arr2 3 [[0; 1; 2]; [1; 2; 3]]) in
  let m : Mesh.mesh nat nat :=
    Mesh.Mesh (Mesh.Arr2 3 (replicate 5 [0; 1; 0]%Q)) [tri; tet; tri]
              [("a"%string, seq 10 5)] [("b"%string, [7; 8; 9])] in
  ∃ m', Mesh.process true true false m = Ok m' ∧
    Mesh.type <$> Mesh.cells m' = ["tetra"%string] ∧
    (∀ i, i < length (Mesh.rows (Mesh.points m')) ↔
          ∃ c row, c ∈ Mesh.cells m' ∧ row ∈ Mesh.rows (Mesh.data c) ∧ i ∈ row) ∧
    length (Mesh.rows (Mesh.points m')) = 4.
Proof.
  intros tet tri m. eexists. split; [reflexivity|].
  apply (process_top_tier_vertices false m); [|reflexivity].
  unfold Mesh.rect. simpl. repeat constructor.
Defined.
